(** * Record-map sanitization of the blog's Notion client

    A shallow embedding of [sanitizeRecordMap] (lib/notion.ts) and the
    properties its design document states about it, followed by the rest of
    the client: the earlier version of the routine, [getPage] with
    [getNavigationLinkPages], and the [useDarkMode] hook.

    Modelling conventions.
    - JavaScript values are the trees of [jsval]; a number is an integer
      (only its truthiness is ever inspected).
    - A plain object is the list of its own enumerable properties in
      enumeration order: array-index keys in ascending numeric order first,
      then the other keys in creation order.  [prop_set] keeps that order.
      It is the write of an object literal, of a spread and of an
      assignment to a fixed field.  An assignment under a computed key,
      [prop_assign], differs for the name [__proto__]: on the maps the
      routines build, which start as [{}], it runs the accessor inherited
      from [Object.prototype], which makes the record the prototype of the
      map and adds no property.  The prototype of a map is not followed:
      the routines never read a map they build, and a record object
      ([{ role, value }]) has no property [__proto__] of its own, so that a
      second write under that name ends at the same accessor.
    - Record objects ([{ role, value }]) are mutated in place by the
      routine and are shared between the input map, the output map and the
      two keys of a dual-keyed block, so they live in a store and the maps
      hold references to them.  Block records and collection records have
      distinct types and live in two stores.  The value a record holds
      belongs to that record alone, so a write to a field of the value is a
      write to the record.  The value of a record is an object, or it is
      missing ([null], [undefined], or another value that is not truthy,
      which the routines pass over alike).  A record whose value is a
      truthy primitive is not represented: the module is strict code, and
      the block loop of either routine throws a [TypeError] where it
      assigns a field of such a value.  What is stated of the routines and
      of [getPage] is stated of record maps whose records hold objects.
    - [console.warn] is a log of diagnostics.
    - [parsePageId] comes from the notion-utils package; the routine is
      embedded over an arbitrary [parsePageId].
    - An [async] function is a function of the world it runs in, which is
      rejected or resolves to a value and a new world; calls of [getPage]
      run one after the other.  The Notion client, the preview-image
      extractor and [mergeRecordMaps] are arbitrary; a record map is a
      value, so [mergeRecordMaps] is taken to return a map of its own.  The
      world records the calls of [notion.getPage] the module makes.
    - The hook is followed through React's schedule: a render, the effects
      of that render in their order with the state of that render, and
      another render when the state has changed, after which the effects
      whose dependencies have changed run again. *)

From Stdlib Require Import ZArith NArith Ascii String DecimalString.
From stdpp Require Import gmap strings list fin_maps fin_sets.

Local Open Scope string_scope.
#[local] Set Warnings "-register-all".

(** ** JavaScript values *)

Inductive jsval : Type :=
| JUndefined
| JNull
| JBool (b : bool)
| JNum (n : Z)
| JStr (s : string)
| JArr (items : list jsval)
| JObj (fields : list (string * jsval)).

Definition obj : Type := list (string * jsval).

(** ToBoolean. *)
Definition truthy (v : jsval) : bool :=
  match v with
  | JUndefined | JNull => false
  | JBool b => b
  | JNum n => negb (n =? 0)%Z
  | JStr s => negb (String.eqb s "")
  | JArr _ | JObj _ => true
  end.

(** [v === s] for a string literal [s]. *)
Definition strictEqStr (v : jsval) (s : string) : bool :=
  match v with
  | JStr s' => String.eqb s' s
  | _ => false
  end.

(** [Array.isArray]. *)
Definition isArray (v : jsval) : bool :=
  match v with
  | JArr _ => true
  | _ => false
  end.

(** ** Property lists *)

Definition isDigit (c : ascii) : bool :=
  let n := nat_of_ascii c in (48 <=? n)%nat && (n <=? 57)%nat.

Definition digitsValue (s : string) : N :=
  fold_left (fun acc c => (10 * acc + (N_of_ascii c - 48))%N)
            (list_ascii_of_string s) 0%N.

(** An array index is the canonical decimal numeral of an integer below
    2^32 - 1. *)
Definition arrayIndex (s : string) : option N :=
  match s with
  | EmptyString => None
  | String c rest =>
      if forallb isDigit (list_ascii_of_string s)
         && (negb (Ascii.eqb c "0"%char) || String.eqb rest "")
         && (digitsValue s <? 4294967295)%N
      then Some (digitsValue s)
      else None
  end.

Section Props.
Context {V : Type}.

Fixpoint prop_get (k : string) (o : list (string * V)) : option V :=
  match o with
  | [] => None
  | (k', v) :: o' => if String.eqb k' k then Some v else prop_get k o'
  end.

Fixpoint prop_replace (k : string) (v : V) (o : list (string * V))
  : list (string * V) :=
  match o with
  | [] => []
  | (k', v') :: o' =>
      if String.eqb k' k then (k', v) :: o'
      else (k', v') :: prop_replace k v o'
  end.

(** A new array-index key goes after the array-index keys that are not
    larger, before every other key. *)
Fixpoint prop_insert_index (n : N) (k : string) (v : V)
         (o : list (string * V)) : list (string * V) :=
  match o with
  | [] => [(k, v)]
  | (k', v') :: o' =>
      match arrayIndex k' with
      | Some m =>
          if (m <=? n)%N then (k', v') :: prop_insert_index n k v o'
          else (k, v) :: o
      | None => (k, v) :: o
      end
  end.

(** [o[k] = v]: an existing property keeps its place. *)
Definition prop_set (k : string) (v : V) (o : list (string * V))
  : list (string * V) :=
  match prop_get k o with
  | Some _ => prop_replace k v o
  | None =>
      match arrayIndex k with
      | Some n => prop_insert_index n k v o
      | None => o ++ [(k, v)]
      end
  end.

(** [o[k] = v] for a computed key [k], on an object made by [{}] and an
    object [v].  The name [__proto__] is not looked for among the properties
    of [o]: the write goes to the accessor that [o] inherits from
    [Object.prototype], which makes [v] the prototype of [o] and adds no
    property to it. *)
Definition prop_assign (k : string) (v : V) (o : list (string * V))
  : list (string * V) :=
  if String.eqb k "__proto__" then o else prop_set k v o.

(** [delete o[k]]. *)
Definition prop_delete (k : string) (o : list (string * V))
  : list (string * V) :=
  filter (fun kv => negb (String.eqb (fst kv) k)) o.

(** Copying the properties of [src] onto [dst], as a spread does. *)
Definition spreadInto (dst src : list (string * V)) : list (string * V) :=
  fold_left (fun acc kv => prop_set (fst kv) (snd kv) acc) src dst.
End Props.

(** [o.k], [undefined] when the property is absent. *)
Definition get_field (k : string) (o : obj) : jsval :=
  match prop_get k o with
  | Some v => v
  | None => JUndefined
  end.

Definition indexKey (i : nat) : string :=
  NilZero.string_of_uint (Nat.to_uint i).

(** The own enumerable properties a spread copies out of a value: the fields
    of an object, the elements of an array, the characters of a string,
    nothing for the other primitives. *)
Definition ownProps (v : jsval) : obj :=
  match v with
  | JObj o => o
  | JArr items => imap (fun i x => (indexKey i, x)) items
  | JStr s =>
      imap (fun i c => (indexKey i, JStr (String c EmptyString)))
           (list_ascii_of_string s)
  | _ => []
  end.

(** [{ ...a, ...b }] *)
Definition objectSpread (srcs : list obj) : obj :=
  fold_left spreadInto srcs [].

(** ** Records, stores and the record map *)

Definition loc : Type := nat.

(** A record object [{ role, ..., value }]: [rec_value] is the block (or
    collection) it holds, an object, [None] when the field is absent or not
    truthy; [rec_meta] are its other fields. *)
Record record : Type := mkRecord {
  rec_meta : obj;
  rec_value : option obj
}.

Record store : Type := mkStore {
  blockRecords : gmap loc record;
  collectionRecords : gmap loc record
}.

(** The record map: [block] and [collection] map identifiers to record
    objects; [passthrough] holds every other field ([space], ...). *)
Record recordMap : Type := mkRecordMap {
  block : option (list (string * loc));
  collection : option (list (string * loc));
  passthrough : obj
}.

Inductive diagnostic : Type :=
| MissingBlocks (count : nat)
| TypeNotSet (key : string) (hasProperties hasContent : bool)
             (parentTable : jsval).

(** ** Identifier encodings *)

(** [/^[0-9a-f]+$/i] on one character. *)
Definition isHexDigit (c : ascii) : bool :=
  let n := nat_of_ascii c in
  ((48 <=? n)%nat && (n <=? 57)%nat)
  || ((97 <=? n)%nat && (n <=? 102)%nat)
  || ((65 <=? n)%nat && (n <=? 70)%nat).

(** [s.length === 32 && /^[0-9a-f]+$/i.test(s)] *)
Definition isHex32 (s : string) : bool :=
  (String.length s =? 32)%nat && forallb isHexDigit (list_ascii_of_string s).

(** The template literal of the third lookup: the 8-4-4-4-12 grouping. *)
Definition dashedId (s : string) : string :=
  substring 0 8 s ++ "-" ++ substring 8 4 s ++ "-" ++ substring 12 4 s
  ++ "-" ++ substring 16 4 s ++ "-" ++ substring 20 (String.length s - 20) s.

(** ** The routine *)

Section Sanitize.
(** [parsePageId(id, { uuid: false })] of notion-utils; [None] is its
    [undefined] result. *)
Variable parsePageId : string -> option string.

(** [parsePageId(key, { uuid: false }) || key] *)
Definition normalize (key : string) : string :=
  match parsePageId key with
  | Some s => if String.eqb s "" then key else s
  | None => key
  end.

(** *** First pass: the key tables and the reference scan *)

Definition allBlockKeysSet (keys : list string) : gset string :=
  list_to_set keys.

Definition normalizedBlockKeys (keys : list string) : gmap string string :=
  fold_left (fun m key => <[key := key]> (<[normalize key := key]> m))
            keys ∅.

(** The three lookups made for one child identifier; the result is
    [actualKey], [None] standing for [undefined]. *)
Definition resolveChild (keys : gset string) (nm : gmap string string)
           (childId : string) : option string :=
  if decide (childId ∈ keys) then Some childId
  else
    let normalizedChildId := normalize childId in
    let actualKey := nm !! normalizedChildId in
    let unset := match actualKey with
                 | Some k => String.eqb k ""
                 | None => true
                 end in
    if unset && isHex32 normalizedChildId then
      if decide (dashedId normalizedChildId ∈ keys)
      then Some (dashedId normalizedChildId)
      else actualKey
    else actualKey.

Inductive resolution : Type :=
| Resolved (actualKey : string)
| Missing.

(** What the scan does with one element of a content array: a string is
    resolved or missing ([if (actualKey)]), anything else is passed over. *)
Definition classifyChild (keys : gset string) (nm : gmap string string)
           (childId : jsval) : option resolution :=
  match childId with
  | JStr c =>
      match resolveChild keys nm c with
      | Some k => if String.eqb k "" then Some Missing else Some (Resolved k)
      | None => Some Missing
      end
  | _ => None
  end.

Record references : Type := mkReferences {
  referencedBlockIds : gset string;
  missingBlockIds : gset string
}.

Definition visitChild (keys : gset string) (nm : gmap string string)
           (acc : references) (childId : jsval) : references :=
  match classifyChild keys nm childId, childId with
  | Some (Resolved k), _ =>
      mkReferences ({[k]} ∪ referencedBlockIds acc) (missingBlockIds acc)
  | Some Missing, JStr c =>
      mkReferences (referencedBlockIds acc) ({[c]} ∪ missingBlockIds acc)
  | _, _ => acc
  end.

(** The content array the scan reads off a record:
    [(blockRecord?.value)?.value || blockRecord?.value], then its
    [content] when that is an array. *)
Definition contentChildren (blockRecord : option record) : list jsval :=
  match blockRecord ≫= rec_value with
  | None => []
  | Some value =>
      let nested := get_field "value" value in
      let blockValue := if truthy nested then nested else JObj value in
      match blockValue with
      | JObj o =>
          match get_field "content" o with
          | JArr items => items
          | _ => []
          end
      | _ => []
      end
  end.

Definition resolveReferences (heap : gmap loc record)
           (blocks : list (string * loc)) : references :=
  let keys := allBlockKeysSet blocks.*1 in
  let nm := normalizedBlockKeys blocks.*1 in
  fold_left
    (fun acc entry =>
       fold_left (visitChild keys nm) (contentChildren (heap !! entry.2)) acc)
    blocks (mkReferences ∅ ∅).

(** The summary warning. *)
Definition missingSummary (refs : references) : list diagnostic :=
  if (0 <? size (missingBlockIds refs))%nat
  then [MissingBlocks (size (missingBlockIds refs))]
  else [].

(** *** Second pass: flattening, backfill, dual keys *)

(** [hasNestedValue] *)
Definition hasNestedValue (value : obj) : bool :=
  truthy (get_field "value" value).

(** The wrapper merge. *)
Definition flatten (value : obj) : obj :=
  if hasNestedValue value then
    let actualBlock := get_field "value" value in
    let wrapperProps := prop_delete "value" (objectSpread [value]) in
    objectSpread [wrapperProps; ownProps actualBlock]
  else value.

(** [!blockValue.id || blockValue.id === ''] *)
Definition idUnset (blockValue : obj) : bool :=
  negb (truthy (get_field "id" blockValue))
  || strictEqStr (get_field "id" blockValue) "".

(** [const blockId = key || blockValue?.id] and the first assignment. *)
Definition backfillId (key : string) (blockValue : obj) : obj :=
  let blockId :=
    if String.eqb key "" then get_field "id" blockValue else JStr key in
  if truthy blockId && idUnset blockValue
  then prop_set "id" blockId blockValue
  else blockValue.

(** The tag chosen for a block without one. *)
Definition inferType (blockValue : obj) : string :=
  if truthy (get_field "properties" blockValue) then "text"
  else if truthy (get_field "content" blockValue)
          && isArray (get_field "content" blockValue) then "column_list"
  else if strictEqStr (get_field "parent_table" blockValue) "collection"
  then "page"
  else "text".

Definition backfillType (blockValue : obj) : obj :=
  if truthy (get_field "type" blockValue) then blockValue
  else prop_set "type" (JStr (inferType blockValue)) blockValue.

(** The debugging check after the inference. *)
Definition typeCheck (key : string) (hadType : bool) (blockValue : obj)
  : list diagnostic :=
  if negb hadType && negb (truthy (get_field "type" blockValue))
  then [TypeNotSet key (truthy (get_field "properties" blockValue))
                   (truthy (get_field "content" blockValue))
                   (get_field "parent_table" blockValue)]
  else [].

(** The second assignment of the identifier, under the key guard. *)
Definition finalId (key : string) (blockValue : obj) : obj :=
  if negb (String.eqb key "") && idUnset blockValue
  then prop_set "id" (JStr key) blockValue
  else blockValue.

(** The value a block record holds once its entry has been processed. *)
Definition sanitizeBlockValue (key : string) (value : obj) : obj :=
  finalId key (backfillType (backfillId key (flatten value))).

Definition blockWarnings (key : string) (value : obj) : list diagnostic :=
  let blockValue := backfillId key (flatten value) in
  typeCheck key (truthy (get_field "type" blockValue))
            (backfillType blockValue).

(** The stores under both keys. *)
Definition storeBlock (key : string) (l : loc)
           (sanitizedBlocks : list (string * loc)) : list (string * loc) :=
  if negb (String.eqb key "") && (0 <? String.length key)%nat then
    let out := prop_assign key l sanitizedBlocks in
    let normalizedKey := normalize key in
    if negb (String.eqb normalizedKey key)
       && (0 <? String.length normalizedKey)%nat
    then prop_assign normalizedKey l out
    else out
  else sanitizedBlocks.

Record blockPass : Type := mkBlockPass {
  bp_heap : gmap loc record;
  sanitizedBlocks : list (string * loc);
  bp_console : list diagnostic
}.

(** One iteration of the loop over [Object.entries(recordMap.block)]. *)
Definition sanitizeBlockEntry (acc : blockPass) (entry : string * loc)
  : blockPass :=
  match bp_heap acc !! entry.2 with
  | Some blockRecord =>
      match rec_value blockRecord with
      | Some value =>
          mkBlockPass
            (<[entry.2 := mkRecord (rec_meta blockRecord)
                                   (Some (sanitizeBlockValue entry.1 value))]>
               (bp_heap acc))
            (storeBlock entry.1 entry.2 (sanitizedBlocks acc))
            (bp_console acc ++ blockWarnings entry.1 value)
      | None => acc
      end
  | None => acc
  end.

Record collectionPass : Type := mkCollectionPass {
  cp_heap : gmap loc record;
  sanitizedCollections : list (string * loc)
}.

(** One iteration of the loop over [Object.entries(recordMap.collection)]. *)
Definition sanitizeCollectionEntry (acc : collectionPass)
           (entry : string * loc) : collectionPass :=
  match cp_heap acc !! entry.2 with
  | Some collectionRecord =>
      match rec_value collectionRecord with
      | Some value =>
          mkCollectionPass
            (<[entry.2 := mkRecord (rec_meta collectionRecord)
                                   (Some (flatten value))]> (cp_heap acc))
            (prop_assign entry.1 entry.2 (sanitizedCollections acc))
      | None => acc
      end
  | None => acc
  end.

Record outcome : Type := mkOutcome {
  out_store : store;
  out_map : recordMap;
  out_console : list diagnostic
}.

Definition sanitizeRecordMap (st : store) (rm : recordMap) : outcome :=
  match block rm with
  | None => mkOutcome st rm []
  | Some blocks =>
      let refs := resolveReferences (blockRecords st) blocks in
      let bp :=
        fold_left sanitizeBlockEntry blocks
                  (mkBlockPass (blockRecords st) [] (missingSummary refs)) in
      let cp :=
        fold_left sanitizeCollectionEntry
                  (default [] (collection rm))
                  (mkCollectionPass (collectionRecords st) []) in
      mkOutcome
        (mkStore (bp_heap bp) (cp_heap cp))
        (mkRecordMap (Some (sanitizedBlocks bp))
                     (Some (sanitizedCollections cp))
                     (passthrough rm))
        (bp_console bp)
  end.
End Sanitize.

(** ** A concrete identifier parser *)

(** The shape [8-4-4-4-12] of a dashed identifier. *)
Definition isDashedUuid (s : string) : bool :=
  (String.length s =? 36)%nat
  && String.eqb (substring 8 1 s) "-" && String.eqb (substring 13 1 s) "-"
  && String.eqb (substring 18 1 s) "-" && String.eqb (substring 23 1 s) "-"
  && isHex32 (substring 0 8 s ++ substring 9 4 s ++ substring 14 4 s
              ++ substring 19 4 s ++ substring 24 12 s).

(** Modelled from the spec: [parsePageId] is a function of the notion-utils
    package, which is not part of the sources.  The key normalizer is
    described as stripping the separators of a dashed identifier (hex groups
    of 8-4-4-4-12), passing an undashed identifier (32 hex characters)
    through, and recognising nothing else. *)
Definition parsePageId_model (id : string) : option string :=
  if isHex32 id then Some id
  else if isDashedUuid id
       then Some (substring 0 8 id ++ substring 9 4 id ++ substring 14 4 id
                  ++ substring 19 4 id ++ substring 24 12 id)
       else None.

(** ** Vocabulary of the statements *)

(** The record at [l] exists and holds a value. *)
Definition hasValue (heap : gmap loc record) (l : loc) : bool :=
  match heap !! l ≫= rec_value with
  | Some _ => true
  | None => false
  end.

(** What the block loop makes of a record it visits under [key]. *)
Definition sanitizedRecord (key : string) (r : record) : record :=
  match rec_value r with
  | Some value => mkRecord (rec_meta r) (Some (sanitizeBlockValue key value))
  | None => r
  end.

(** What the collection loop makes of a record it visits. *)
Definition flattenedRecord (r : record) : record :=
  match rec_value r with
  | Some value => mkRecord (rec_meta r) (Some (flatten value))
  | None => r
  end.

(** The entry stored under [key] is written under [c]: [c] is the key or
    its canonical form, and a name that a write adds a property for. *)
Definition writesKey (parsePageId : string -> option string)
           (key c : string) : bool :=
  negb (String.eqb key "")
  && (String.eqb c key || String.eqb c (normalize parsePageId key))
  && negb (String.eqb c "__proto__").

(** The record found at [l] after the entries [es] have been visited in
    order, [f key] being what a visit under [key] makes of a record. *)
Definition visits (f : string -> record -> record) (l : loc)
           (es : list (string * loc)) (r : record) : record :=
  fold_left (fun r e => if decide (e.2 = l) then f e.1 r else r) es r.

(** The store after the entries [es] have been visited in order. *)
Definition visitAll (f : string -> record -> record)
           (es : list (string * loc)) (heap : gmap loc record)
  : gmap loc record :=
  fold_left (fun heap e => alter (f e.1) e.2 heap) es heap.

(** Keys in enumeration order: the array indices first, in ascending order
    from [lo] on, then the other keys. *)
Fixpoint jsOrdered (lo : N) (keys : list string) : Prop :=
  match keys with
  | [] => True
  | k :: keys' =>
      match arrayIndex k with
      | Some n => (lo <= n)%N /\ jsOrdered n keys'
      | None => Forall (fun k' => arrayIndex k' = None) keys'
      end
  end.

(** The canonical forms of the keys [keys] are canonical themselves, and
    among the keys a canonical form has at most one encoding other than
    itself (the dashed one). *)
Definition canonicalForms (parsePageId : string -> option string)
           (keys : list string) : Prop :=
  Forall (fun k => normalize parsePageId (normalize parsePageId k)
                   = normalize parsePageId k) keys
  /\ Forall (fun k1 =>
               Forall (fun k2 =>
                         normalize parsePageId k1 = normalize parsePageId k2 ->
                         normalize parsePageId k1 ≠ k1 ->
                         normalize parsePageId k2 ≠ k2 ->
                         k1 = k2) keys) keys.

(** A key that has a canonical form of its own is not an array index, nor
    is its canonical form. *)
Definition plainForms (parsePageId : string -> option string)
           (keys : list string) : Prop :=
  Forall (fun k => normalize parsePageId k ≠ k ->
                   arrayIndex k = None
                   /\ arrayIndex (normalize parsePageId k) = None) keys.

(** One flattening takes the nesting out of every value the entries refer
    to. *)
Definition flatAfterOnce (heap : gmap loc record)
           (es : list (string * loc)) : Prop :=
  Forall (fun e => from_option (fun value => hasNestedValue (flatten value))
                               false (heap !! e.2 ≫= rec_value) = false) es.

(** A key the output block map can hold: it is not empty and not
    [__proto__], and when it has a canonical form of its own, neither is an
    array index and the canonical form is canonical. *)
Definition outputKey (parsePageId : string -> option string)
           (k : string) : Prop :=
  k ≠ "" /\ k ≠ "__proto__"
  /\ (normalize parsePageId k ≠ k ->
      arrayIndex k = None
      /\ arrayIndex (normalize parsePageId k) = None
      /\ normalize parsePageId (normalize parsePageId k)
         = normalize parsePageId k).

(** The shape of an output block map: the canonical form of a key that has
    one is bound to the same record earlier in the map, where it is one of
    the keys [seen] of the input, or else comes right after the key --
    unless that form is [__proto__], which is not bound at all. *)
Definition closedAt (parsePageId : string -> option string)
           (seen : list string) (a : list (string * loc)) : Prop :=
  forall i D l,
    a !! i = Some (D, l) ->
    normalize parsePageId D ≠ D ->
    normalize parsePageId D ≠ "__proto__" ->
    (exists j, (j < i)%nat /\ a !! j = Some (normalize parsePageId D, l)
               /\ normalize parsePageId D ∈ seen)
    \/ ((forall j l', (j < i)%nat -> a !! j ≠ Some (normalize parsePageId D, l'))
        /\ exists l', a !! S i = Some (normalize parsePageId D, l')).

(** What the block loop has built from the keys [seen]: distinct keys other
    than [__proto__], each a non-empty key of the input or the canonical form
    of one, in the shape [closedAt]. *)
Definition builtFrom (parsePageId : string -> option string)
           (seen : list string) (acc : list (string * loc)) : Prop :=
  NoDup acc.*1
  /\ (forall κ, κ ∈ acc.*1 ->
                κ ≠ "__proto__"
                /\ exists k0, k0 ∈ seen /\ k0 ≠ ""
                              /\ (κ = k0 \/ κ = normalize parsePageId k0))
  /\ closedAt parsePageId seen acc.

(** One flattening takes the nesting out of the value of the record. *)
Definition flatOnce (r : record) : Prop :=
  from_option (fun value => hasNestedValue (flatten value)) false (rec_value r)
  = false.

(** The value of the record, if any, is flat. *)
Definition flatRecord (r : record) : Prop :=
  forall v, rec_value r = Some v -> hasNestedValue v = false.

(** The value of the record, if any, is flat and has an identifier and a
    type. *)
Definition settledRecord (r : record) : Prop :=
  forall v, rec_value r = Some v ->
            hasNestedValue v = false
            /\ truthy (get_field "id" v) = true
            /\ truthy (get_field "type" v) = true.

(** ** Sample record maps *)

Definition undashed : string := "0123456789abcdef0123456789abcdef".
Definition dashed : string := "01234567-89ab-cdef-0123-456789abcdef".

(** A page wrapped as [{ role, value: { id, type } }]. *)
Definition wrapped_page : obj :=
  [("role", JStr "reader");
   ("value", JObj [("id", JStr "x"); ("type", JStr "page")])].

(** A container without a type whose children are an undashed reference, twice
    an unknown identifier, and a number. *)
Definition container : obj :=
  [("content", JArr [JStr undashed; JStr "zzz"; JStr "zzz"; JNum 5])].

Definition wrapped_collection : obj :=
  [("role", JStr "reader"); ("value", JObj [("name", JStr "posts")])].

(** The page, the container and a record without a value; a wrapped
    collection and a collection record without a value. *)
Definition sample_store : store :=
  mkStore
    (<[0%nat := mkRecord [("role", JStr "reader")] (Some wrapped_page)]>
     (<[1%nat := mkRecord [] (Some container)]>
      (<[2%nat := mkRecord [("role", JStr "reader")] None]> ∅)))
    (<[0%nat := mkRecord [] (Some wrapped_collection)]>
     (<[1%nat := mkRecord [] None]> ∅)).

Definition sample_map : recordMap :=
  mkRecordMap (Some [(dashed, 0%nat); ("p", 1%nat); ("q", 2%nat)])
              (Some [("c1", 0%nat); ("c2", 1%nat)])
              [("space", JObj [])].

(** The page and the container stored under the two encodings of one
    identifier, in either order. *)
Definition collision_map : recordMap :=
  mkRecordMap (Some [(dashed, 0%nat); (undashed, 1%nat)]) None [].

Definition overwritten_map : recordMap :=
  mkRecordMap (Some [(undashed, 1%nat); (dashed, 0%nat)]) None [].

(** A record map without a block mapping. *)
Definition no_block_map : recordMap :=
  mkRecordMap None (Some [("c1", 0%nat); ("c2", 1%nat)]) [].

(** A container whose only child is a number, and one whose two children
    are the same unknown identifier. *)
Definition numeric_child_store : store :=
  mkStore (<[0%nat := mkRecord [] (Some [("content", JArr [JNum 5])])]> ∅) ∅.

Definition repeated_child_store : store :=
  mkStore (<[0%nat := mkRecord []
                        (Some [("content", JArr [JStr "zzz"; JStr "zzz"])])]> ∅)
          ∅.

Definition single_block_map : recordMap :=
  mkRecordMap (Some [("p", 0%nat)]) None [].

(** A wrapper around a wrapper around a block. *)
Definition nested_twice_store : store :=
  mkStore
    (<[0%nat := mkRecord []
                  (Some [("role", JStr "reader");
                         ("value", JObj [("value", JObj [("id", JStr "x")]);
                                         ("type", JStr "page")])])]> ∅)
    ∅.

(** The page under the dashed identifier, then a record without a value
    under the undashed form of the same identifier. *)
Definition valueless_later_map : recordMap :=
  mkRecordMap (Some [(dashed, 0%nat); (undashed, 2%nat)]) None [].

(** The page and the wrapped collection stored under the name [__proto__],
    beside the container. *)
Definition proto_map : recordMap :=
  mkRecordMap (Some [("__proto__", 0%nat); ("p", 1%nat)])
              (Some [("__proto__", 0%nat)]) [].

(** A key normalizer that knows no identifier: [parsePageId] returns
    [undefined] whatever it is given, and every key is its own canonical
    form. *)
Definition unrecognised (id : string) : option string := None.

(** ** Fetching a page *)

(** The options object given to [notion.getPage]; [None] is an option left
    out. *)
Record fetchOptions : Type := mkFetchOptions {
  chunkLimit : option nat;
  fetchMissingBlocks : option bool;
  fetchCollections : option bool;
  signFileUrls : option bool
}.

(** A call of [notion.getPage]: the page asked for, and the options when
    the call has a second argument. *)
Record request : Type := mkRequest {
  req_pageId : jsval;
  req_options : option fetchOptions
}.

(** The settings the module imports from the site configuration;
    [navigationLinks] is [None] when it is [null] or [undefined]. *)
Record config : Type := mkConfig {
  isPreviewImageSupportEnabled : bool;
  navigationLinks : option (list jsval);
  navigationStyle : string;
  rootNotionPageId : string
}.

(** What the functions of the module run in: the record objects, the calls
    of [notion.getPage] the module has made (oldest first), the result
    [pMemoize] keeps for [getNavigationLinkPages], and the warnings logged. *)
Record world : Type := mkWorld {
  w_store : store;
  w_requests : list request;
  w_navigationLinkPages : option (list recordMap);
  w_console : list diagnostic
}.

(** The collaborators: the Notion client and the preview-image extractor,
    whose calls may fail ([None], a rejected promise) and may create and
    change record objects, and [mergeRecordMaps] of notion-utils, which
    builds a record map from two.  Nothing is assumed of what they return. *)
Record services : Type := mkServices {
  notion_getPage : request -> world -> option (recordMap * store);
  getPreviewImageMap : recordMap -> world -> option (jsval * store);
  mergeRecordMaps : recordMap -> recordMap -> recordMap
}.

(** An asynchronous computation: run in a world, it is rejected or it
    resolves to a value and leaves a world. *)
Definition async (A : Type) : Type := world -> option (A * world).

Definition resolve {A : Type} (a : A) : async A := fun w => Some (a, w).

Definition reject {A : Type} : async A := fun _ => None.

Definition await {A B : Type} (m : async A) (k : A -> async B) : async B :=
  fun w =>
    match m w with
    | Some (a, w') => k a w'
    | None => None
    end.

Notation "'let*' x := m 'in' k" := (await m (fun x => k))
  (at level 10, x name, m at level 100, k at level 200).

(** [pMap(xs, f, { concurrency })]: the calls are started in the order of
    [xs], the results come in that order, and one rejection rejects the
    whole.  The calls are run one after the other here, which is one of the
    schedules the concurrency bound allows. *)
Fixpoint pMap {A B : Type} (f : A -> async B) (xs : list A)
  : async (list B) :=
  match xs with
  | [] => resolve []
  | x :: xs' =>
      let* y := f x in
      let* ys := pMap f xs' in
      resolve (y :: ys)
  end.

(** [link.pageId]: a [TypeError] ([None]) on [null] and [undefined]. *)
Definition pageIdOf (link : jsval) : option jsval :=
  match link with
  | JUndefined | JNull => None
  | JObj o => Some (get_field "pageId" o)
  | _ => Some JUndefined
  end.

(** [{ chunkLimit: 1, fetchMissingBlocks: false, fetchCollections: false,
       signFileUrls: false }] *)
Definition navigationOptions : fetchOptions :=
  mkFetchOptions (Some 1%nat) (Some false) (Some false) (Some false).

(** [{ fetchMissingBlocks: true, fetchCollections: true }] *)
Definition pageOptions : fetchOptions :=
  mkFetchOptions None (Some true) (Some true) None.

Section Fetch.
Variable parsePageId : string -> option string.
Variable cfg : config.
Variable svc : services.

(** [await notion.getPage(pageId, options)] *)
Definition notionGetPage (pageId : jsval) (options : option fetchOptions)
  : async recordMap :=
  fun w =>
    let req := mkRequest pageId options in
    match notion_getPage svc req w with
    | Some (recordMap, st) =>
        Some (recordMap,
              mkWorld st (w_requests w ++ [req]) (w_navigationLinkPages w)
                      (w_console w))
    | None => None
    end.

(** [await getPreviewImageMap(recordMap)] *)
Definition previewImageMapOf (recordMap : recordMap) : async jsval :=
  fun w =>
    match getPreviewImageMap svc recordMap w with
    | Some (previewImageMap, st) =>
        Some (previewImageMap,
              mkWorld st (w_requests w) (w_navigationLinkPages w) (w_console w))
    | None => None
    end.

(** [(navigationLinks || []).map((link) => link.pageId).filter(Boolean)] *)
Definition navigationLinkPageIds : option (list jsval) :=
  filter (fun pageId => truthy pageId)
  <$> mapM pageIdOf (default [] (navigationLinks cfg)).

(** The function that [getNavigationLinkPages] memoizes. *)
Definition fetchNavigationLinkPages : async (list recordMap) :=
  match navigationLinkPageIds with
  | None => reject
  | Some ids =>
      if negb (String.eqb (navigationStyle cfg) "default")
         && (0 <? length ids)%nat
      then pMap (fun navigationLinkPageId =>
                   notionGetPage navigationLinkPageId
                                 (Some navigationOptions)) ids
      else resolve []
  end.

(** [pMemoize]: the result of the first call that resolves is kept, and is
    what every later call resolves to. *)
Definition getNavigationLinkPages : async (list recordMap) :=
  fun w =>
    match w_navigationLinkPages w with
    | Some navigationLinkRecordMaps => Some (navigationLinkRecordMaps, w)
    | None =>
        match fetchNavigationLinkPages w with
        | Some (navigationLinkRecordMaps, w') =>
            Some (navigationLinkRecordMaps,
                  mkWorld (w_store w') (w_requests w')
                          (Some navigationLinkRecordMaps) (w_console w'))
        | None => None
        end
    end.

(** [(recordMap as any).preview_images = previewImageMap] *)
Definition setPreviewImages (previewImageMap : jsval) (rm : recordMap)
  : recordMap :=
  mkRecordMap (block rm) (collection rm)
              (prop_set "preview_images" previewImageMap (passthrough rm)).

(** [return sanitizeRecordMap(recordMap)].  The routine returns on every
    record map whose records hold objects, which are the record maps of the
    model; on a record that holds a truthy primitive it throws. *)
Definition sanitized (rm : recordMap) : async recordMap :=
  fun w =>
    let o := sanitizeRecordMap parsePageId (w_store w) rm in
    Some (out_map o,
          mkWorld (out_store o) (w_requests w) (w_navigationLinkPages w)
                  (w_console w ++ out_console o)).

Definition getPage (pageId : string) : async recordMap :=
  let* recordMap := notionGetPage (JStr pageId) (Some pageOptions) in
  let* recordMap :=
    if negb (String.eqb (navigationStyle cfg) "default")
       && String.eqb (rootNotionPageId cfg) pageId
    then
      let* navigationLinkRecordMaps := getNavigationLinkPages in
      if (0 <? length navigationLinkRecordMaps)%nat
      then resolve (fold_left (mergeRecordMaps svc) navigationLinkRecordMaps
                              recordMap)
      else resolve recordMap
    else resolve recordMap in
  let* recordMap :=
    if isPreviewImageSupportEnabled cfg
    then
      let* previewImageMap := previewImageMapOf recordMap in
      resolve (setPreviewImages previewImageMap recordMap)
    else resolve recordMap in
  sanitized recordMap.
End Fetch.

(** [map] is what the client answered to the request [req], in some
    world. *)
Definition answerTo (svc : services) (req : request) (map : recordMap)
  : Prop :=
  exists w st, notion_getPage svc req w = Some (map, st).

(** A site with a custom navigation of two links, one of them to a page,
    and a site with the default navigation. *)
Definition custom_config : config :=
  mkConfig true
           (Some [JObj [("title", JStr "About"); ("pageId", JStr "about")];
                  JObj [("title", JStr "Feed"); ("url", JStr "/feed")]])
           "custom" "root".

Definition default_config : config :=
  mkConfig false None "default" "root".

(** A site whose custom navigation has a [null] entry. *)
Definition broken_config : config :=
  mkConfig false (Some [JNull]) "custom" "root".

(** Collaborators that answer every request with the sample record map, find
    no preview image, and merge by keeping the first map. *)
Definition sample_services : services :=
  mkServices (fun _ _ => Some (sample_map, sample_store))
             (fun _ w => Some (JObj [], w_store w))
             (fun a _ => a).

Definition empty_world : world := mkWorld (mkStore ∅ ∅) [] None [].

(** The record map of the page [about]: the container under the key [a]. *)
Definition about_map : recordMap :=
  mkRecordMap (Some [("a", 1%nat)]) None [].

(** Collaborators that tell the pages apart: the client answers a request
    for the page [about] with [about_map] and any other request with the
    sample record map, the extractor reports how many blocks the record map
    it is given has, and the merge adds the blocks of the second map to the
    first. *)
Definition linked_services : services :=
  mkServices
    (fun req _ =>
       Some (if strictEqStr (req_pageId req) "about" then about_map
             else sample_map, sample_store))
    (fun rm w =>
       Some (JNum (Z.of_nat (length (default [] (block rm)))), w_store w))
    (fun a b =>
       mkRecordMap (Some (spreadInto (default [] (block a))
                                     (default [] (block b))))
                   (collection a) (passthrough a)).

(** ** The earlier routine *)

(** The module as it stands in src/lib/notion.ts.  Its routine has no
    resolver, no flattener and no type inference: a block without an
    identifier is given its key, and a block that still has none is left
    out; it warns of nothing, and the collection map is passed on with the
    other fields.  [getNavigationLinkPages] is the same function in both
    modules. *)
Module LibNotion.

(** [if (!blockRecord.value.id && key) blockRecord.value.id = key] *)
Definition backfillId (key : string) (value : obj) : obj :=
  if negb (truthy (get_field "id" value)) && negb (String.eqb key "")
  then prop_set "id" (JStr key) value
  else value.

Record blockPass : Type := mkBlockPass {
  bp_heap : gmap loc record;
  sanitizedBlocks : list (string * loc)
}.

(** One iteration of the loop over [Object.entries(recordMap.block)]. *)
Definition sanitizeBlockEntry (acc : blockPass) (entry : string * loc)
  : blockPass :=
  match bp_heap acc !! entry.2 with
  | Some blockRecord =>
      match rec_value blockRecord with
      | Some value =>
          let value' := backfillId entry.1 value in
          mkBlockPass
            (<[entry.2 := mkRecord (rec_meta blockRecord) (Some value')]>
               (bp_heap acc))
            (if truthy (get_field "id" value')
             then prop_assign entry.1 entry.2 (sanitizedBlocks acc)
             else sanitizedBlocks acc)
      | None => acc
      end
  | None => acc
  end.

Definition sanitizeRecordMap (st : store) (rm : recordMap) : outcome :=
  match block rm with
  | None => mkOutcome st rm []
  | Some blocks =>
      let bp :=
        fold_left sanitizeBlockEntry blocks
                  (mkBlockPass (blockRecords st) []) in
      mkOutcome
        (mkStore (bp_heap bp) (collectionRecords st))
        (mkRecordMap (Some (sanitizedBlocks bp)) (collection rm)
                     (passthrough rm))
        []
  end.

Section Fetch.
Variable cfg : config.
Variable svc : services.

(** [return sanitizeRecordMap(recordMap)]; the earlier routine, too,
    returns on every record map whose records hold objects. *)
Definition sanitized (rm : recordMap) : async recordMap :=
  fun w =>
    let o := sanitizeRecordMap (w_store w) rm in
    Some (out_map o,
          mkWorld (out_store o) (w_requests w) (w_navigationLinkPages w)
                  (w_console w ++ out_console o)).

(** The earlier [getPage]: the page is asked for without options. *)
Definition getPage (pageId : string) : async recordMap :=
  let* recordMap := notionGetPage svc (JStr pageId) None in
  let* recordMap :=
    if negb (String.eqb (navigationStyle cfg) "default")
       && String.eqb (rootNotionPageId cfg) pageId
    then
      let* navigationLinkRecordMaps := getNavigationLinkPages cfg svc in
      if (0 <? length navigationLinkRecordMaps)%nat
      then resolve (fold_left (mergeRecordMaps svc) navigationLinkRecordMaps
                              recordMap)
      else resolve recordMap
    else resolve recordMap in
  let* recordMap :=
    if isPreviewImageSupportEnabled cfg
    then
      let* previewImageMap := previewImageMapOf svc recordMap in
      resolve (setPreviewImages previewImageMap recordMap)
    else resolve recordMap in
  sanitized recordMap.
End Fetch.
End LibNotion.

(** What the earlier block loop makes of a record it visits under [key]. *)
Definition keyedRecord (key : string) (r : record) : record :=
  match rec_value r with
  | Some value => mkRecord (rec_meta r) (Some (LibNotion.backfillId key value))
  | None => r
  end.

(** The record at [l] exists and holds a value that has an identifier. *)
Definition hasId (heap : gmap loc record) (l : loc) : bool :=
  match heap !! l ≫= rec_value with
  | Some value => truthy (get_field "id" value)
  | None => false
  end.

(** The record at [l], if it holds a value, holds a block that is not
    wrapped and has a type. *)
Definition plainBlock (heap : gmap loc record) (l : loc) : bool :=
  match heap !! l ≫= rec_value with
  | Some value =>
      negb (hasNestedValue value) && truthy (get_field "type" value)
  | None => true
  end.

(** The container stored under the empty key, and the page under [p]. *)
Definition keyless_map : recordMap :=
  mkRecordMap (Some [("", 1%nat); ("p", 0%nat)]) None [].

(** Two blocks that are not wrapped and have a type, one of them without an
    identifier. *)
Definition plain_store : store :=
  mkStore
    (<[0%nat := mkRecord [("role", JStr "reader")]
                         (Some [("type", JStr "page")])]>
     (<[1%nat := mkRecord [] (Some [("id", JStr "q"); ("type", JStr "text")])]>
      ∅))
    ∅.

Definition plain_map : recordMap :=
  mkRecordMap (Some [("p", 0%nat); ("q", 1%nat)]) None [].

(** ** The dark-mode hook *)

Definition STORAGE_KEY : string := "darkMode".
Definition CLASS_NAME_DARK : string := "dark-mode".

(** [window.localStorage]: its items, and whether [getItem] and [setItem]
    throw (storage disabled, quota exceeded). *)
Record storage : Type := mkStorage {
  items : gmap string string;
  getItemThrows : bool;
  setItemThrows : bool
}.

(** The browser as the hook meets it: [localStorage] is [None] when
    [window] or [window.localStorage] is undefined; [prefersDark] is what
    [matchMedia('(prefers-color-scheme: dark)').matches] gives, [None] when
    the call throws; [classList] is the class list of [document.body], [None]
    when [document] is undefined. *)
Record browser : Type := mkBrowser {
  localStorage : option storage;
  prefersDark : option bool;
  classList : option (gset string)
}.

(** The two state variables of the hook. *)
Record hookState : Type := mkHookState {
  isDarkMode : jsval;
  isClient : bool
}.

Section DarkMode.
(** [JSON.parse], [None] when it throws, and [JSON.stringify]. *)
Variable JSON_parse : string -> option jsval.
Variable JSON_stringify : jsval -> string.

(** The first effect after [setIsClient(true)]: the value it gives to
    [setIsDarkMode], [None] when it does not call it. *)
Definition storedPreference (b : browser) : option jsval :=
  match localStorage b with
  | None => None
  | Some s =>
      Some (if getItemThrows s then JBool false
            else
              match items s !! STORAGE_KEY with
              | Some stored => default (JBool false) (JSON_parse stored)
              | None =>
                  match prefersDark b with
                  | Some p => JBool p
                  | None => JBool false
                  end
              end)
  end.

(** The second effect, run with the state [h] of the render it belongs
    to. *)
Definition syncEffect (h : hookState) (b : browser) : browser :=
  if isClient h then
    mkBrowser
      ((fun s =>
          if setItemThrows s then s
          else mkStorage
                 (<[STORAGE_KEY := JSON_stringify (isDarkMode h)]> (items s))
                 (getItemThrows s) (setItemThrows s))
       <$> localStorage b)
      (prefersDark b)
      ((fun cl =>
          if truthy (isDarkMode h)
          then (cl ∪ {[CLASS_NAME_DARK]}) ∖ {["light-mode"]}
          else (cl ∖ {[CLASS_NAME_DARK]}) ∪ {["light-mode"]})
       <$> classList b)
  else b.

(** Mounting a component that uses the hook.  The first render has the
    initial state, and both effects run with it, the second returning at
    once since [isClient] is false.  The state the first effect has set is
    rendered next, and the second effect, which depends on [isClient], runs
    again with that state. *)
Definition mount (b : browser) : hookState * browser :=
  let h0 := mkHookState (JBool false) false in
  let h1 := mkHookState (default (isDarkMode h0) (storedPreference b)) true in
  (h1, syncEffect h1 (syncEffect h0 b)).

(** [toggleDarkMode]: the state becomes [!prev], which is not the value it
    had, so the second effect runs with the state of the next render. *)
Definition toggleDarkMode (hb : hookState * browser) : hookState * browser :=
  let h :=
    mkHookState (JBool (negb (truthy (isDarkMode hb.1)))) (isClient hb.1) in
  (h, syncEffect h hb.2).
End DarkMode.

(** JSON on the values the hook writes once the mode has been toggled, the
    two booleans; used where a statement is instantiated. *)
Definition parseBoolean (s : string) : option jsval :=
  if String.eqb s "true" then Some (JBool true)
  else if String.eqb s "false" then Some (JBool false)
  else None.

Definition stringifyBoolean (v : jsval) : string :=
  match v with
  | JBool true => "true"
  | JBool false => "false"
  | _ => "null"
  end.

(** A browser on a first visit that prefers dark, with two classes on the
    body. *)
Definition first_visit : browser :=
  mkBrowser (Some (mkStorage ∅ false false)) (Some true)
            (Some {[ "notion"; "light-mode" ]}).

(** A browser whose storage cannot be read. *)
Definition private_browser : browser :=
  mkBrowser (Some (mkStorage ∅ true true)) (Some true) (Some ∅).

(** * Properties *)

(** ** Property lists *)

Section PropFacts.
Context {V : Type}.
Implicit Types (o : list (string * V)) (k : string) (v : V).

Lemma prop_get_app k o1 o2 :
  prop_get k (o1 ++ o2) =
  match prop_get k o1 with Some v => Some v | None => prop_get k o2 end.
Proof.
  induction o1 as [|[k' v'] o1 IH]; simpl; [done|].
  destruct (String.eqb k' k); done.
Qed.

Lemma prop_get_None k o : prop_get k o = None <-> k ∉ o.*1.
Proof.
  induction o as [|[k' v'] o IH]; csimpl.
  - split; [intros _ H; inversion H | done].
  - rewrite not_elem_of_cons, <-IH.
    destruct (String.eqb_spec k' k) as [->|Hne].
    + split; [done | by intros [? _]].
    + split; [intros H; split; [congruence | done] | by intros [_ ?]].
Qed.

Lemma prop_get_Some_elem k v o : prop_get k o = Some v -> (k, v) ∈ o.
Proof.
  induction o as [|[k' v'] o IH]; simpl; [done|].
  destruct (String.eqb_spec k' k) as [->|Hne].
  - intros [= ->]. left.
  - intros H. right. by apply IH.
Qed.

Lemma prop_get_NoDup k v o :
  NoDup o.*1 -> (k, v) ∈ o -> prop_get k o = Some v.
Proof.
  induction o as [|[k' v'] o IH]; csimpl; intros Hnd Hin.
  - inversion Hin.
  - apply NoDup_cons in Hnd as [Hk' Hnd].
    destruct (String.eqb_spec k' k) as [->|Hne].
    + apply elem_of_cons in Hin as [[= ->]|Hin]; [done|].
      exfalso. apply Hk'. apply list_elem_of_fmap. by exists (k, v).
    + apply elem_of_cons in Hin as [[= -> ->]|Hin]; [done|]. by apply IH.
Qed.

Lemma prop_get_replace_eq k v o :
  is_Some (prop_get k o) -> prop_get k (prop_replace k v o) = Some v.
Proof.
  induction o as [|[k' v'] o IH]; simpl; [by intros [? ?]|].
  destruct (String.eqb_spec k' k) as [->|Hne]; simpl.
  - by rewrite String.eqb_refl.
  - intros H. destruct (String.eqb_spec k' k); [done | by apply IH].
Qed.

Lemma prop_get_replace_ne k k' v o :
  k ≠ k' -> prop_get k' (prop_replace k v o) = prop_get k' o.
Proof.
  intros Hne. induction o as [|[k0 v0] o IH]; simpl; [done|].
  destruct (String.eqb_spec k0 k) as [->|Hne0]; simpl.
  - by destruct (String.eqb_spec k k').
  - by rewrite IH.
Qed.

Lemma prop_get_insert_index n k k' v o :
  prop_get k o = None ->
  prop_get k' (prop_insert_index n k v o) =
  if String.eqb k k' then Some v else prop_get k' o.
Proof.
  induction o as [|[k0 v0] o IH]; simpl; [done|].
  destruct (String.eqb_spec k0 k) as [->|Hne]; [done|]. intros Hk.
  destruct (arrayIndex k0) as [m|]; [destruct (m <=? n)%N|]; simpl; try done.
  rewrite (IH Hk). destruct (String.eqb_spec k0 k') as [->|?]; [|done].
  by destruct (String.eqb_spec k k').
Qed.

Lemma prop_get_set_eq k v o : prop_get k (prop_set k v o) = Some v.
Proof.
  unfold prop_set. destruct (prop_get k o) as [v0|] eqn:Hk.
  - apply prop_get_replace_eq. by rewrite Hk.
  - destruct (arrayIndex k) as [n|].
    + by rewrite prop_get_insert_index, String.eqb_refl.
    + rewrite prop_get_app, Hk. simpl. by rewrite String.eqb_refl.
Qed.

Lemma prop_get_set_ne k k' v o :
  k ≠ k' -> prop_get k' (prop_set k v o) = prop_get k' o.
Proof.
  intros Hne. unfold prop_set. destruct (prop_get k o) as [v0|] eqn:Hk.
  - by apply prop_get_replace_ne.
  - destruct (arrayIndex k) as [n|].
    + rewrite prop_get_insert_index by done.
      by destruct (String.eqb_spec k k').
    + rewrite prop_get_app. simpl.
      destruct (String.eqb_spec k k'); [done|]. by destruct (prop_get k' o).
Qed.

Lemma prop_get_set k k' v o :
  prop_get k' (prop_set k v o) =
  if String.eqb k k' then Some v else prop_get k' o.
Proof.
  destruct (String.eqb_spec k k') as [->|Hne].
  - apply prop_get_set_eq.
  - by apply prop_get_set_ne.
Qed.

Lemma prop_replace_same k v o :
  prop_get k o = Some v -> prop_replace k v o = o.
Proof.
  induction o as [|[k0 v0] o IH]; simpl; [done|].
  destruct (String.eqb_spec k0 k) as [->|Hne].
  - by intros [= ->].
  - intros H. by rewrite IH.
Qed.

Lemma prop_set_same k v o : prop_get k o = Some v -> prop_set k v o = o.
Proof.
  intros H. unfold prop_set. rewrite H. by apply prop_replace_same.
Qed.

Lemma prop_set_new k v o :
  prop_get k o = None -> arrayIndex k = None ->
  prop_set k v o = (o ++ [(k, v)])%list.
Proof. intros H1 H2. unfold prop_set. by rewrite H1, H2. Qed.

Lemma prop_get_delete k k' o :
  prop_get k' (prop_delete k o) =
  if String.eqb k k' then None else prop_get k' o.
Proof.
  unfold prop_delete. induction o as [|[k0 v0] o IH]; simpl.
  - by destruct (String.eqb k k').
  - rewrite filter_cons. simpl.
    destruct (String.eqb_spec k0 k) as [->|Hne]; simpl.
    + rewrite IH. by destruct (String.eqb_spec k k').
    + rewrite IH. destruct (String.eqb_spec k0 k') as [->|?]; [|done].
      by destruct (String.eqb_spec k k'); [subst|].
Qed.

Lemma fst_prop_replace k v o : (prop_replace k v o).*1 = o.*1.
Proof.
  induction o as [|[k0 v0] o IH]; csimpl; [done|].
  destruct (String.eqb k0 k); csimpl; [done|]. by rewrite IH.
Qed.

(** A spread reads the last binding of a key in its source. *)
Lemma prop_get_spreadInto k (dst src : list (string * V)) :
  prop_get k (spreadInto dst src) =
  match prop_get k (reverse src) with
  | Some v => Some v
  | None => prop_get k dst
  end.
Proof.
  unfold spreadInto. revert dst.
  induction src as [|[k0 v0] src IH]; intros dst; simpl; [done|].
  rewrite IH, reverse_cons, prop_get_app. simpl.
  destruct (prop_get k (reverse src)); [done|].
  rewrite prop_get_set. by destruct (String.eqb k0 k).
Qed.

Lemma prop_get_reverse k o :
  NoDup o.*1 -> prop_get k (reverse o) = prop_get k o.
Proof.
  intros Hnd. destruct (prop_get k o) as [v|] eqn:Hk.
  - apply prop_get_NoDup.
    + by rewrite fmap_reverse, reverse_Permutation.
    + apply elem_of_reverse. by apply prop_get_Some_elem.
  - apply prop_get_None. apply prop_get_None in Hk.
    by rewrite fmap_reverse, elem_of_reverse.
Qed.

Lemma fst_prop_insert_index n k v o :
  (prop_insert_index n k v o).*1 ≡ₚ k :: o.*1.
Proof.
  induction o as [|[k0 v0] o IH]; csimpl; [done|].
  destruct (arrayIndex k0) as [m|]; [destruct (m <=? n)%N|]; csimpl; try done.
  rewrite IH. apply Permutation_swap.
Qed.

Lemma NoDup_prop_set k v o : NoDup o.*1 -> NoDup (prop_set k v o).*1.
Proof.
  intros Hnd. unfold prop_set. destruct (prop_get k o) as [v0|] eqn:Hk.
  - by rewrite fst_prop_replace.
  - apply prop_get_None in Hk. destruct (arrayIndex k) as [n|].
    + rewrite fst_prop_insert_index. by apply NoDup_cons.
    + rewrite fmap_app. csimpl. rewrite <-Permutation_cons_append.
      by apply NoDup_cons.
Qed.

Lemma elem_of_prop_set_keys k v o κ :
  κ ∈ (prop_set k v o).*1 -> κ = k \/ κ ∈ o.*1.
Proof.
  unfold prop_set. destruct (prop_get k o) as [v0|].
  - rewrite fst_prop_replace. by right.
  - destruct (arrayIndex k) as [n|].
    + rewrite fst_prop_insert_index. by intros [?|?]%elem_of_cons; [left|right].
    + rewrite fmap_app, elem_of_app. csimpl.
      by intros [?|[?|?%elem_of_nil]%elem_of_cons]; [right|left|].
Qed.

Lemma NoDup_spreadInto (dst src : list (string * V)) :
  NoDup dst.*1 -> NoDup (spreadInto dst src).*1.
Proof.
  unfold spreadInto. revert dst.
  induction src as [|[k0 v0] src IH]; intros dst Hnd; simpl; [done|].
  apply IH. by apply NoDup_prop_set.
Qed.

Lemma prop_replace_insert k v v0 j o :
  NoDup o.*1 -> o !! j = Some (k, v0) -> prop_replace k v o = <[j:=(k, v)]> o.
Proof.
  revert j. induction o as [|[k' v'] o IH]; intros j; csimpl; [done|].
  rewrite NoDup_cons. intros [Hk' Hnd]. destruct j as [|j]; simpl.
  - intros [= -> ->]. by rewrite String.eqb_refl.
  - intros Hj. destruct (String.eqb_spec k' k) as [->|Hne].
    + exfalso. apply Hk'. apply list_elem_of_fmap. exists (k, v0).
      split; [done|]. by apply list_elem_of_lookup_2 with j.
    + by rewrite (IH j).
Qed.

Lemma prop_set_insert k v v0 j o :
  NoDup o.*1 -> o !! j = Some (k, v0) -> prop_set k v o = <[j:=(k, v)]> o.
Proof.
  intros Hnd Hj. unfold prop_set.
  rewrite (prop_get_NoDup k v0 o Hnd) by by apply list_elem_of_lookup_2 with j.
  by apply (prop_replace_insert _ _ v0).
Qed.

Lemma prop_set_last k v v' o :
  prop_get k o = None ->
  prop_set k v' (o ++ [(k, v)]) = (o ++ [(k, v')])%list.
Proof.
  intros Hk. unfold prop_set. rewrite prop_get_app, Hk. simpl.
  rewrite String.eqb_refl.
  induction o as [|[k0 v0] o IH]; simpl in *.
  - by rewrite String.eqb_refl.
  - destruct (String.eqb_spec k0 k); [done|]. by rewrite IH.
Qed.

(** *** Enumeration order *)

Lemma jsOrdered_nonindex lo (ks : list string) :
  Forall (fun k => arrayIndex k = None) ks -> jsOrdered lo ks.
Proof.
  destruct ks as [|k ks]; simpl; [done|].
  intros [Hk Hks]%Forall_cons. by rewrite Hk.
Qed.

Lemma jsOrdered_weaken lo lo' (ks : list string) :
  (lo' <= lo)%N -> jsOrdered lo ks -> jsOrdered lo' ks.
Proof.
  destruct ks as [|k ks]; simpl; [done|].
  destruct (arrayIndex k); [|done]. intros ? [? ?]. split; [lia|done].
Qed.

Lemma jsOrdered_snoc lo (ks : list string) k :
  arrayIndex k = None -> jsOrdered lo ks -> jsOrdered lo (ks ++ [k]).
Proof.
  intros Hk. revert lo. induction ks as [|k0 ks IH]; intros lo; simpl.
  - by rewrite Hk.
  - destruct (arrayIndex k0).
    + intros [? ?]. split; [done|]. by apply IH.
    + intros Hks. apply Forall_app. split; [done|]. by apply Forall_singleton.
Qed.

Lemma jsOrdered_insert_index lo n k v o :
  arrayIndex k = Some n -> (lo <= n)%N ->
  jsOrdered lo o.*1 -> jsOrdered lo (prop_insert_index n k v o).*1.
Proof.
  intros Hk. revert lo. induction o as [|[k0 v0] o IH]; intros lo Hlo; csimpl.
  - by rewrite Hk.
  - destruct (arrayIndex k0) as [m|] eqn:Hk0.
    + intros [Hm Ho]. destruct (N.leb_spec m n); csimpl.
      * rewrite Hk0. split; [done|]. by apply IH.
      * rewrite Hk, Hk0. split; [done|]. split; [lia|done].
    + intros Ho. csimpl. rewrite Hk, Hk0. split; [done|]. done.
Qed.

Lemma jsOrdered_prop_set lo k v o :
  jsOrdered lo o.*1 ->
  (forall n, arrayIndex k = Some n -> (lo <= n)%N) ->
  jsOrdered lo (prop_set k v o).*1.
Proof.
  intros Ho Hlo. unfold prop_set. destruct (prop_get k o).
  - by rewrite fst_prop_replace.
  - destruct (arrayIndex k) as [n|] eqn:Hk.
    + apply jsOrdered_insert_index; [done| |done]. by apply Hlo.
    + rewrite fmap_app. by apply jsOrdered_snoc.
Qed.

(** What comes before an array index in enumeration order. *)
Lemma jsOrdered_before lo (ks ks' : list string) k n :
  jsOrdered lo (ks ++ k :: ks') -> arrayIndex k = Some n ->
  Forall (fun k' => exists m, arrayIndex k' = Some m /\ (m <= n)%N) ks.
Proof.
  intros Ho Hk. revert lo Ho. induction ks as [|k0 ks IH]; intros lo; simpl;
    [done|].
  destruct (arrayIndex k0) as [m|] eqn:Hk0.
  - intros [Hm Ho]. apply Forall_cons. split; [|by apply (IH m)].
    exists m. split; [done|].
    clear IH Hk0 Hm. revert m Ho.
    induction ks as [|k1 ks IH]; intros m; simpl.
    + rewrite Hk. by intros [? _].
    + destruct (arrayIndex k1) as [m1|] eqn:Hk1.
      * intros [? Ho]. specialize (IH m1 Ho). lia.
      * intros Ho. apply Forall_app in Ho as [_ Ho].
        apply Forall_cons in Ho as [Ho _]. congruence.
  - intros Ho. apply Forall_app in Ho as [_ Ho].
    apply Forall_cons in Ho as [Ho _]. congruence.
Qed.

Lemma prop_insert_index_last n k v o :
  Forall (fun k' => exists m, arrayIndex k' = Some m /\ (m <= n)%N) o.*1 ->
  prop_insert_index n k v o = (o ++ [(k, v)])%list.
Proof.
  induction o as [|[k0 v0] o IH]; csimpl; [done|].
  intros [(m & -> & Hm) Ho]%Forall_cons.
  destruct (N.leb_spec m n); [|lia]. by rewrite IH.
Qed.

(** A new key that is next in enumeration order is appended. *)
Lemma prop_set_ordered lo k v o (ks : list string) :
  prop_get k o = None ->
  jsOrdered lo (o.*1 ++ k :: ks) ->
  prop_set k v o = (o ++ [(k, v)])%list.
Proof.
  intros Hk Ho. unfold prop_set. rewrite Hk.
  destruct (arrayIndex k) as [n|] eqn:Hn; [|done].
  apply prop_insert_index_last. by apply (jsOrdered_before lo _ ks k).
Qed.

(** Where a new array index goes. *)
Lemma prop_insert_index_split n k v o :
  exists o1 o2,
    o = (o1 ++ o2)%list
    /\ prop_insert_index n k v o = (o1 ++ (k, v) :: o2)%list
    /\ Forall (fun k' => arrayIndex k' ≠ None) o1.*1.
Proof.
  induction o as [|[k0 v0] o IH]; simpl.
  - by exists [], [].
  - destruct (arrayIndex k0) as [m|] eqn:Hk0;
      [destruct (m <=? n)%N|]; [|by exists [], ((k0, v0) :: o) ..].
    destruct IH as (o1 & o2 & -> & -> & Ho1).
    exists ((k0, v0) :: o1), o2. split; [done|]. split; [done|].
    csimpl. apply Forall_cons. split; [by rewrite Hk0|done].
Qed.

(** Writes under a computed key. *)
Lemma prop_assign_proto v o : prop_assign "__proto__" v o = o.
Proof. done. Qed.

Lemma prop_assign_other k v o :
  k ≠ "__proto__" -> prop_assign k v o = prop_set k v o.
Proof.
  intros Hk. unfold prop_assign.
  by destruct (String.eqb_spec k "__proto__").
Qed.

Lemma prop_get_assign k k' v o :
  prop_get k' (prop_assign k v o) =
  if String.eqb k k' && negb (String.eqb k' "__proto__") then Some v
  else prop_get k' o.
Proof.
  unfold prop_assign. destruct (String.eqb_spec k "__proto__") as [->|Hk].
  - destruct (String.eqb_spec "__proto__" k') as [<-|]; [|done].
    by rewrite String.eqb_refl.
  - rewrite prop_get_set. destruct (String.eqb_spec k k') as [<-|]; [|done].
    by destruct (String.eqb_spec k "__proto__").
Qed.

Lemma prop_get_assign_proto k v o :
  prop_get "__proto__" (prop_assign k v o) = prop_get "__proto__" o.
Proof. by rewrite prop_get_assign, andb_false_r. Qed.

Lemma NoDup_prop_assign k v o : NoDup o.*1 -> NoDup (prop_assign k v o).*1.
Proof.
  intros Hnd. unfold prop_assign. destruct (String.eqb k "__proto__"); [done|].
  by apply NoDup_prop_set.
Qed.

Lemma jsOrdered_prop_assign lo k v o :
  jsOrdered lo o.*1 ->
  (forall n, arrayIndex k = Some n -> (lo <= n)%N) ->
  jsOrdered lo (prop_assign k v o).*1.
Proof.
  intros Ho Hlo. unfold prop_assign.
  destruct (String.eqb k "__proto__"); [done|]. by apply jsOrdered_prop_set.
Qed.
End PropFacts.

Lemma get_field_set f f' x (o : obj) :
  get_field f' (prop_set f x o) =
  if String.eqb f f' then x else get_field f' o.
Proof.
  unfold get_field. rewrite prop_get_set. by destruct (String.eqb f f').
Qed.

(** ** The steps applied to one block value *)

Section BlockValue.
Variable parsePageId : string -> option string.
Implicit Types (key : string) (value blockValue : obj).

Lemma normalize_nonempty key : key ≠ "" -> normalize parsePageId key ≠ "".
Proof.
  intros Hk. unfold normalize. destruct (parsePageId key) as [s|]; [|done].
  by destruct (String.eqb_spec s "").
Qed.

Lemma idUnset_truthy blockValue :
  idUnset blockValue = negb (truthy (get_field "id" blockValue)).
Proof.
  unfold idUnset. destruct (get_field "id" blockValue) as [| |b|n|s|l|o];
    simpl; try done; try by rewrite orb_false_r.
  by destruct (String.eqb s "").
Qed.

Lemma backfillId_other key blockValue f :
  f ≠ "id" -> get_field f (backfillId key blockValue) = get_field f blockValue.
Proof.
  intros Hf. unfold backfillId.
  destruct (_ && _); [|done]. rewrite get_field_set.
  by destruct (String.eqb_spec "id" f).
Qed.

Lemma backfillId_id key blockValue :
  key ≠ "" -> truthy (get_field "id" (backfillId key blockValue)) = true.
Proof.
  intros Hk. unfold backfillId. rewrite idUnset_truthy.
  destruct (String.eqb_spec key "") as [|_]; [done|].
  assert (truthy (JStr key) = true) as ->.
  { simpl. by destruct (String.eqb_spec key ""). }
  simpl. destruct (truthy (get_field "id" blockValue)) eqn:Hid; simpl; [done|].
  rewrite get_field_set. simpl. by destruct (String.eqb_spec key "").
Qed.

Lemma backfillId_settled key blockValue :
  truthy (get_field "id" blockValue) = true ->
  backfillId key blockValue = blockValue.
Proof.
  intros Hid. unfold backfillId. rewrite idUnset_truthy, Hid. simpl.
  by rewrite andb_false_r.
Qed.

Lemma inferType_nonempty blockValue :
  truthy (JStr (inferType blockValue)) = true.
Proof. unfold inferType. by repeat case_match. Qed.

Lemma backfillType_other blockValue f :
  f ≠ "type" -> get_field f (backfillType blockValue) = get_field f blockValue.
Proof.
  intros Hf. unfold backfillType. destruct (truthy _); [done|].
  rewrite get_field_set. by destruct (String.eqb_spec "type" f).
Qed.

Lemma backfillType_type blockValue :
  truthy (get_field "type" (backfillType blockValue)) = true.
Proof.
  unfold backfillType.
  destruct (truthy (get_field "type" blockValue)) eqn:Ht; [done|].
  rewrite get_field_set. apply inferType_nonempty.
Qed.

Lemma backfillType_settled blockValue :
  truthy (get_field "type" blockValue) = true ->
  backfillType blockValue = blockValue.
Proof. intros Ht. unfold backfillType. by rewrite Ht. Qed.

Lemma finalId_other key blockValue f :
  f ≠ "id" -> get_field f (finalId key blockValue) = get_field f blockValue.
Proof.
  intros Hf. unfold finalId. destruct (_ && _); [|done].
  rewrite get_field_set. by destruct (String.eqb_spec "id" f).
Qed.

Lemma finalId_settled key blockValue :
  truthy (get_field "id" blockValue) = true ->
  finalId key blockValue = blockValue.
Proof.
  intros Hid. unfold finalId. rewrite idUnset_truthy, Hid.
  by rewrite andb_false_r.
Qed.

Lemma sanitizeBlockValue_other key value f :
  f ≠ "id" -> f ≠ "type" ->
  get_field f (sanitizeBlockValue key value)
  = get_field f (flatten value).
Proof.
  intros H1 H2. unfold sanitizeBlockValue.
  by rewrite finalId_other, backfillType_other, backfillId_other.
Qed.

Lemma sanitizeBlockValue_type key value :
  truthy (get_field "type" (sanitizeBlockValue key value)) = true.
Proof.
  unfold sanitizeBlockValue. rewrite finalId_other by done.
  apply backfillType_type.
Qed.

Lemma sanitizeBlockValue_id key value :
  key ≠ "" ->
  truthy (get_field "id" (sanitizeBlockValue key value)) = true.
Proof.
  intros Hk. unfold sanitizeBlockValue.
  rewrite finalId_settled.
  - rewrite backfillType_other by done. by apply backfillId_id.
  - rewrite backfillType_other by done. by apply backfillId_id.
Qed.

Lemma flatten_settled value : hasNestedValue value = false -> flatten value = value.
Proof. intros H. unfold flatten. by rewrite H. Qed.

(** A flat block that has an identifier and a type is left as it is. *)
Lemma sanitizeBlockValue_settled key value :
  hasNestedValue value = false ->
  truthy (get_field "id" value) = true ->
  truthy (get_field "type" value) = true ->
  sanitizeBlockValue key value = value.
Proof.
  intros Hn Hid Ht. unfold sanitizeBlockValue.
  rewrite (flatten_settled _ Hn), (backfillId_settled _ _ Hid).
  rewrite (backfillType_settled _ Ht). by apply finalId_settled.
Qed.

Lemma sanitizeBlockValue_nested key value :
  hasNestedValue (sanitizeBlockValue key value)
  = hasNestedValue (flatten value).
Proof. unfold hasNestedValue. by rewrite sanitizeBlockValue_other. Qed.

(** The fields of a flattened wrapper: those of the inner block, then those
    of the wrapper other than [value]. *)
Lemma flatten_fields value f :
  hasNestedValue value = true ->
  NoDup value.*1 ->
  NoDup (ownProps (get_field "value" value)).*1 ->
  prop_get f (flatten value)
  = match prop_get f (ownProps (get_field "value" value)) with
    | Some x => Some x
    | None => if String.eqb f "value" then None else prop_get f value
    end.
Proof.
  intros Hn Hv Hi. unfold flatten. rewrite Hn. unfold objectSpread. simpl.
  rewrite prop_get_spreadInto, (prop_get_reverse _ _ Hi).
  destruct (prop_get f (ownProps (get_field "value" value))); [done|].
  rewrite prop_get_spreadInto. simpl.
  unfold prop_delete. rewrite <-filter_reverse.
  fold (prop_delete "value" (reverse (spreadInto [] value))).
  rewrite prop_get_delete, (String.eqb_sym f "value").
  destruct (String.eqb "value" f); [done|].
  rewrite prop_get_reverse by (by apply NoDup_spreadInto; constructor).
  rewrite prop_get_spreadInto, (prop_get_reverse _ _ Hv). simpl.
  by destruct (prop_get f value).
Qed.

(** The debugging warning is never raised. *)
Lemma blockWarnings_nil key value : blockWarnings key value = [].
Proof.
  unfold blockWarnings, typeCheck. rewrite backfillType_type.
  by rewrite andb_false_r.
Qed.
End BlockValue.

(** ** Records visited in place *)

Section Visits.
Variable f : string -> record -> record.
Implicit Types (es pre post : list (string * loc)) (heap : gmap loc record)
         (l : loc) (r : record).

Lemma visitAll_lookup es heap l :
  visitAll f es heap !! l = visits f l es <$> heap !! l.
Proof.
  unfold visitAll, visits. revert heap.
  induction es as [|e es IH]; intros heap; simpl.
  - by destruct (heap !! l).
  - rewrite IH, lookup_alter. destruct (decide (e.2 = l)) as [->|]; [|done].
    by destruct (heap !! l).
Qed.

Lemma visits_untouched es l r : l ∉ es.*2 -> visits f l es r = r.
Proof.
  unfold visits. revert r.
  induction es as [|e es IH]; intros r; csimpl; [done|].
  rewrite not_elem_of_cons. intros [Hne Hl].
  destruct (decide (e.2 = l)); [done|]. by apply IH.
Qed.

(** The last visit of a location decides what its record holds. *)
Lemma visits_last pre key l post r :
  l ∉ post.*2 ->
  visits f l (pre ++ (key, l) :: post) r = f key (visits f l pre r).
Proof.
  intros Hpost. unfold visits. rewrite fold_left_app. simpl.
  rewrite decide_True by done. by apply visits_untouched.
Qed.

Lemma visits_once pre key l post r :
  l ∉ pre.*2 -> l ∉ post.*2 ->
  visits f l (pre ++ (key, l) :: post) r = f key r.
Proof. intros Hpre Hpost. by rewrite visits_last, visits_untouched. Qed.

Lemma visits_fixed es l r :
  (forall key, f key r = r) -> visits f l es r = r.
Proof.
  intros Hf. unfold visits. induction es as [|e es IH]; simpl; [done|].
  destruct (decide (e.2 = l)); [|done]. by rewrite Hf.
Qed.

Lemma visits_invariant (P : record -> Prop) es l r :
  (forall key r, P r -> P (f key r)) -> P r -> P (visits f l es r).
Proof.
  intros Hf. unfold visits. revert r.
  induction es as [|e es IH]; intros r Hr; simpl; [done|].
  apply IH. destruct (decide (e.2 = l)); [|done]. by apply Hf.
Qed.

Lemma visits_invariant_on (P : record -> Prop) es l r :
  Forall (fun e => e.2 = l -> forall r, P r -> P (f e.1 r)) es ->
  P r -> P (visits f l es r).
Proof.
  unfold visits. revert r.
  induction es as [|e es IH]; intros r Hes Hr; simpl; [done|].
  apply Forall_cons in Hes as [He Hes]. apply IH; [done|].
  destruct (decide (e.2 = l)); [|done]. by apply He.
Qed.

Lemma last_visit es l :
  l ∈ es.*2 ->
  exists pre key post, es = (pre ++ (key, l) :: post)%list /\ l ∉ post.*2.
Proof.
  induction es as [|[key l'] es IH]; csimpl; [by intros ?%elem_of_nil|].
  intros Hin. destruct (decide (l ∈ es.*2)) as [Htl|Htl].
  - destruct (IH Htl) as (pre & key' & post & -> & Hpost).
    by exists ((key, l') :: pre), key', post.
  - apply elem_of_cons in Hin as [->|?]; [|done].
    by exists [], key, es.
Qed.
End Visits.

(** ** The loop over the block entries *)

Section BlockPass.
Variable parsePageId : string -> option string.
Implicit Types (acc : blockPass) (e : string * loc) (es : list (string * loc))
         (heap : gmap loc record) (l : loc) (r : record).

Lemma sanitizedRecord_value key r :
  rec_value (sanitizedRecord key r)
  = sanitizeBlockValue key <$> rec_value r.
Proof.
  unfold sanitizedRecord. destruct (rec_value r) eqn:Hv; simpl; [done|].
  by rewrite Hv.
Qed.

Lemma sanitizedRecord_meta key r :
  rec_meta (sanitizedRecord key r) = rec_meta r.
Proof. unfold sanitizedRecord. by destruct (rec_value r). Qed.

Lemma sanitizeBlockEntry_heap acc e :
  bp_heap (sanitizeBlockEntry parsePageId acc e)
  = alter (sanitizedRecord e.1) e.2 (bp_heap acc).
Proof.
  unfold sanitizeBlockEntry.
  destruct (bp_heap acc !! e.2) as [r|] eqn:Hl.
  - destruct (rec_value r) as [value|] eqn:Hv; simpl.
    + apply map_eq. intros l. rewrite lookup_alter, lookup_insert.
      destruct (decide (e.2 = l)) as [<-|]; [|done].
      rewrite Hl. simpl. unfold sanitizedRecord. by rewrite Hv.
    + apply map_eq. intros l. rewrite lookup_alter.
      destruct (decide (e.2 = l)) as [<-|]; [|done].
      rewrite Hl. simpl. unfold sanitizedRecord. by rewrite Hv.
  - apply map_eq. intros l. rewrite lookup_alter.
    destruct (decide (e.2 = l)) as [<-|]; [|done]. by rewrite Hl.
Qed.

Lemma hasValue_alter heap key l l' :
  hasValue (alter (sanitizedRecord key) l heap) l' = hasValue heap l'.
Proof.
  unfold hasValue. rewrite lookup_alter.
  destruct (decide (l = l')) as [<-|]; [|done].
  destruct (heap !! l) as [r|]; simpl; [|done].
  rewrite sanitizedRecord_value. by destruct (rec_value r).
Qed.

Lemma sanitizeBlockEntry_out acc e :
  sanitizedBlocks (sanitizeBlockEntry parsePageId acc e)
  = if hasValue (bp_heap acc) e.2
    then storeBlock parsePageId e.1 e.2 (sanitizedBlocks acc)
    else sanitizedBlocks acc.
Proof.
  unfold sanitizeBlockEntry, hasValue.
  destruct (bp_heap acc !! e.2) as [r|]; simpl; [|done].
  by destruct (rec_value r).
Qed.

Lemma sanitizeBlockEntry_console acc e :
  bp_console (sanitizeBlockEntry parsePageId acc e) = bp_console acc.
Proof.
  unfold sanitizeBlockEntry.
  destruct (bp_heap acc !! e.2) as [r|]; simpl; [|done].
  destruct (rec_value r); simpl; [|done].
  by rewrite blockWarnings_nil, app_nil_r.
Qed.

(** The three components of the loop, each as a fold of its own. *)
Lemma blockPass_heap es acc :
  bp_heap (fold_left (sanitizeBlockEntry parsePageId) es acc)
  = visitAll sanitizedRecord es (bp_heap acc).
Proof.
  unfold visitAll. revert acc.
  induction es as [|e es IH]; intros acc; simpl; [done|].
  by rewrite IH, sanitizeBlockEntry_heap.
Qed.

Lemma blockPass_console es acc :
  bp_console (fold_left (sanitizeBlockEntry parsePageId) es acc)
  = bp_console acc.
Proof.
  revert acc. induction es as [|e es IH]; intros acc; simpl; [done|].
  by rewrite IH, sanitizeBlockEntry_console.
Qed.

Lemma blockPass_out_gen es acc heap :
  (forall l, hasValue (bp_heap acc) l = hasValue heap l) ->
  sanitizedBlocks (fold_left (sanitizeBlockEntry parsePageId) es acc)
  = fold_left (fun out e => if hasValue heap e.2
                            then storeBlock parsePageId e.1 e.2 out
                            else out)
              es (sanitizedBlocks acc).
Proof.
  revert acc. induction es as [|e es IH]; intros acc Hacc; simpl; [done|].
  rewrite IH.
  - by rewrite sanitizeBlockEntry_out, Hacc.
  - intros l. by rewrite sanitizeBlockEntry_heap, hasValue_alter.
Qed.

Lemma blockPass_out es acc :
  sanitizedBlocks (fold_left (sanitizeBlockEntry parsePageId) es acc)
  = fold_left (fun out e => if hasValue (bp_heap acc) e.2
                            then storeBlock parsePageId e.1 e.2 out
                            else out)
              es (sanitizedBlocks acc).
Proof. by apply blockPass_out_gen. Qed.

Lemma length_pos_nonempty (key : string) :
  key ≠ "" -> (0 <? String.length key)%nat = true.
Proof. by destruct key. Qed.

(** Reading the output map after one store. *)
Lemma storeBlock_lookup key l c (out : list (string * loc)) :
  prop_get c (storeBlock parsePageId key l out)
  = if writesKey parsePageId key c then Some l else prop_get c out.
Proof.
  unfold storeBlock, writesKey.
  destruct (String.eqb_spec key "") as [->|Hk]; simpl; [done|].
  rewrite (length_pos_nonempty _ Hk),
    (length_pos_nonempty _ (normalize_nonempty parsePageId _ Hk)).
  rewrite andb_true_r.
  destruct (String.eqb_spec (normalize parsePageId key) key) as [Hn|Hn];
    simpl.
  - rewrite Hn, orb_diag, prop_get_assign, (String.eqb_sym c key). done.
  - rewrite !prop_get_assign.
    rewrite (String.eqb_sym c key), (String.eqb_sym c (normalize _ key)).
    destruct (String.eqb (normalize parsePageId key) c);
      destruct (String.eqb key c);
      by destruct (String.eqb c "__proto__").
Qed.

Lemma storeAll_lookup_none heap es c (out : list (string * loc)) :
  Forall (fun e => hasValue heap e.2 && writesKey parsePageId e.1 c = false)
         es ->
  prop_get c (fold_left (fun out e => if hasValue heap e.2
                                      then storeBlock parsePageId e.1 e.2 out
                                      else out) es out)
  = prop_get c out.
Proof.
  revert out. induction es as [|e es IH]; intros out Hes; simpl; [done|].
  apply Forall_cons in Hes as [He Hes]. rewrite (IH _ Hes).
  destruct (hasValue heap e.2); [|done].
  rewrite storeBlock_lookup. simpl in He. by rewrite He.
Qed.

(** No store binds the name [__proto__]. *)
Lemma storeAll_lookup_proto heap es (out : list (string * loc)) :
  prop_get "__proto__"
           (fold_left (fun out e => if hasValue heap e.2
                                    then storeBlock parsePageId e.1 e.2 out
                                    else out) es out)
  = prop_get "__proto__" out.
Proof.
  apply storeAll_lookup_none, Forall_forall. intros e _.
  unfold writesKey. by rewrite !andb_false_r.
Qed.

(** Last write wins. *)
Lemma storeAll_lookup_last heap pre e post c (out : list (string * loc)) :
  hasValue heap e.2 = true ->
  writesKey parsePageId e.1 c = true ->
  Forall (fun e => hasValue heap e.2 && writesKey parsePageId e.1 c = false)
         post ->
  prop_get c (fold_left (fun out e => if hasValue heap e.2
                                      then storeBlock parsePageId e.1 e.2 out
                                      else out) (pre ++ e :: post) out)
  = Some e.2.
Proof.
  intros Hv Hw Hpost. rewrite fold_left_app. simpl.
  rewrite (storeAll_lookup_none _ _ _ _ Hpost), Hv, storeBlock_lookup.
  by rewrite Hw.
Qed.

(** Every binding of the output map was written by an entry that holds a
    value. *)
Lemma storeAll_lookup_inv heap es c l (out : list (string * loc)) :
  prop_get c (fold_left (fun out e => if hasValue heap e.2
                                      then storeBlock parsePageId e.1 e.2 out
                                      else out) es out) = Some l ->
  prop_get c out = Some l
  \/ exists key, (key, l) ∈ es /\ hasValue heap l = true
                 /\ writesKey parsePageId key c = true.
Proof.
  revert out. induction es as [|[key l'] es IH]; intros out; simpl;
    [by left|].
  intros H. apply IH in H as [H|(key' & Hin & Hv & Hw)].
  - destruct (hasValue heap l') eqn:Hv; [|by left].
    rewrite storeBlock_lookup in H.
    destruct (writesKey parsePageId key c) eqn:Hw; [|by left].
    injection H as <-. right. exists key. split; [left|done].
  - right. exists key'. split; [by right|done].
Qed.

End BlockPass.

(** ** The loop over the collection entries *)

Section CollectionPass.
Implicit Types (acc : collectionPass) (e : string * loc)
         (es : list (string * loc)) (heap : gmap loc record) (l : loc)
         (r : record).

Lemma flattenedRecord_value r :
  rec_value (flattenedRecord r) = flatten <$> rec_value r.
Proof.
  unfold flattenedRecord. destruct (rec_value r) eqn:Hv; simpl; [done|].
  by rewrite Hv.
Qed.

Lemma flattenedRecord_meta r : rec_meta (flattenedRecord r) = rec_meta r.
Proof. unfold flattenedRecord. by destruct (rec_value r). Qed.

Lemma sanitizeCollectionEntry_heap acc e :
  cp_heap (sanitizeCollectionEntry acc e)
  = alter flattenedRecord e.2 (cp_heap acc).
Proof.
  unfold sanitizeCollectionEntry.
  destruct (cp_heap acc !! e.2) as [r|] eqn:Hl.
  - destruct (rec_value r) as [value|] eqn:Hv; simpl.
    + apply map_eq. intros l. rewrite lookup_alter, lookup_insert.
      destruct (decide (e.2 = l)) as [<-|]; [|done].
      rewrite Hl. simpl. unfold flattenedRecord. by rewrite Hv.
    + apply map_eq. intros l. rewrite lookup_alter.
      destruct (decide (e.2 = l)) as [<-|]; [|done].
      rewrite Hl. simpl. unfold flattenedRecord. by rewrite Hv.
  - apply map_eq. intros l. rewrite lookup_alter.
    destruct (decide (e.2 = l)) as [<-|]; [|done]. by rewrite Hl.
Qed.

Lemma hasValue_flattened heap l l' :
  hasValue (alter flattenedRecord l heap) l' = hasValue heap l'.
Proof.
  unfold hasValue. rewrite lookup_alter.
  destruct (decide (l = l')) as [<-|]; [|done].
  destruct (heap !! l) as [r|]; simpl; [|done].
  rewrite flattenedRecord_value. by destruct (rec_value r).
Qed.

Lemma sanitizeCollectionEntry_out acc e :
  sanitizedCollections (sanitizeCollectionEntry acc e)
  = if hasValue (cp_heap acc) e.2
    then prop_assign e.1 e.2 (sanitizedCollections acc)
    else sanitizedCollections acc.
Proof.
  unfold sanitizeCollectionEntry, hasValue.
  destruct (cp_heap acc !! e.2) as [r|]; simpl; [|done].
  by destruct (rec_value r).
Qed.

Lemma collectionPass_heap es acc :
  cp_heap (fold_left sanitizeCollectionEntry es acc)
  = visitAll (fun _ => flattenedRecord) es (cp_heap acc).
Proof.
  unfold visitAll. revert acc.
  induction es as [|e es IH]; intros acc; simpl; [done|].
  by rewrite IH, sanitizeCollectionEntry_heap.
Qed.

Lemma collectionPass_out_gen es acc heap :
  (forall l, hasValue (cp_heap acc) l = hasValue heap l) ->
  sanitizedCollections (fold_left sanitizeCollectionEntry es acc)
  = fold_left (fun out e => if hasValue heap e.2 then prop_assign e.1 e.2 out
                            else out)
              es (sanitizedCollections acc).
Proof.
  revert acc. induction es as [|e es IH]; intros acc Hacc; simpl; [done|].
  rewrite IH.
  - by rewrite sanitizeCollectionEntry_out, Hacc.
  - intros l. by rewrite sanitizeCollectionEntry_heap, hasValue_flattened.
Qed.

(** Reading the output collection map. *)
Lemma setAll_lookup_other heap es c (out : list (string * loc)) :
  c ∉ es.*1 ->
  prop_get c (fold_left (fun out e => if hasValue heap e.2
                                      then prop_assign e.1 e.2 out else out)
                        es out)
  = prop_get c out.
Proof.
  revert out. induction es as [|e es IH]; intros out; csimpl; [done|].
  rewrite not_elem_of_cons. intros [Hne Hc]. rewrite (IH _ Hc).
  destruct (hasValue heap e.2); [|done]. rewrite prop_get_assign.
  by destruct (String.eqb_spec e.1 c).
Qed.

(** No write binds the name [__proto__]. *)
Lemma setAll_lookup_proto heap es (out : list (string * loc)) :
  prop_get "__proto__"
           (fold_left (fun out e => if hasValue heap e.2
                                    then prop_assign e.1 e.2 out else out)
                      es out)
  = prop_get "__proto__" out.
Proof.
  revert out. induction es as [|e es IH]; intros out; simpl; [done|].
  rewrite IH. destruct (hasValue heap e.2); [|done].
  apply prop_get_assign_proto.
Qed.

Lemma setAll_lookup heap es key l (out : list (string * loc)) :
  NoDup es.*1 -> (key, l) ∈ es -> key ≠ "__proto__" ->
  prop_get key (fold_left (fun out e => if hasValue heap e.2
                                        then prop_assign e.1 e.2 out else out)
                          es out)
  = if hasValue heap l then Some l else prop_get key out.
Proof.
  revert out. induction es as [|e es IH]; intros out; csimpl.
  - by intros _ ?%elem_of_nil.
  - rewrite NoDup_cons. intros [He Hnd] [<-|Hin]%elem_of_cons Hkey.
    + simpl in *. rewrite setAll_lookup_other by done.
      destruct (hasValue heap l); [|done].
      rewrite prop_assign_other by done. apply prop_get_set_eq.
    + rewrite (IH _ Hnd Hin Hkey). destruct (hasValue heap l); [done|].
      destruct (hasValue heap e.2); [|done]. rewrite prop_get_assign.
      destruct (String.eqb_spec e.1 key) as [Hk|]; [|done].
      exfalso. apply He. rewrite Hk. apply list_elem_of_fmap.
      by exists (key, l).
Qed.

Lemma setAll_lookup_inv heap es c l (out : list (string * loc)) :
  prop_get c (fold_left (fun out e => if hasValue heap e.2
                                      then prop_assign e.1 e.2 out else out)
                        es out) = Some l ->
  prop_get c out = Some l
  \/ ((c, l) ∈ es /\ hasValue heap l = true /\ c ≠ "__proto__").
Proof.
  revert out. induction es as [|[key l'] es IH]; intros out; simpl;
    [by left|].
  intros H. apply IH in H as [H|(Hin & Hv & Hc)].
  - destruct (hasValue heap l') eqn:Hv; [|by left].
    rewrite prop_get_assign in H.
    destruct (String.eqb_spec key c) as [->|]; [|by left].
    destruct (String.eqb_spec c "__proto__") as [|Hc]; [by left|].
    injection H as <-. right. split; [left|done].
  - right. split; [by right|done].
Qed.
End CollectionPass.

(** ** The routine on a record map that has a block mapping *)

Section RecordMap.
Variable parsePageId : string -> option string.
Implicit Types (st : store) (rm : recordMap) (l : loc) (r : record)
         (blocks colls : list (string * loc)).

Lemma sanitize_blocks st rm blocks :
  block rm = Some blocks ->
  block (out_map (sanitizeRecordMap parsePageId st rm))
  = Some (fold_left (fun out e => if hasValue (blockRecords st) e.2
                                  then storeBlock parsePageId e.1 e.2 out
                                  else out) blocks []).
Proof.
  intros Hb. unfold sanitizeRecordMap. rewrite Hb. simpl.
  by rewrite blockPass_out.
Qed.

Lemma sanitize_blockRecords st rm blocks l :
  block rm = Some blocks ->
  blockRecords (out_store (sanitizeRecordMap parsePageId st rm)) !! l
  = visits sanitizedRecord l blocks <$> blockRecords st !! l.
Proof.
  intros Hb. unfold sanitizeRecordMap. rewrite Hb. simpl.
  by rewrite blockPass_heap, visitAll_lookup.
Qed.

(** A record stored under one key only ends up as one visit leaves it. *)
Lemma sanitize_record_once st rm pre key l post r :
  block rm = Some (pre ++ (key, l) :: post)%list ->
  l ∉ pre.*2 -> l ∉ post.*2 ->
  blockRecords st !! l = Some r ->
  blockRecords (out_store (sanitizeRecordMap parsePageId st rm)) !! l
  = Some (sanitizedRecord key r).
Proof.
  intros Hb Hpre Hpost Hl.
  rewrite (sanitize_blockRecords _ _ _ _ Hb), Hl. simpl.
  by rewrite visits_once.
Qed.

(** Whatever is bound in the output block map holds a value with a type. *)
Lemma output_block_typed st rm blocks' c l :
  block (out_map (sanitizeRecordMap parsePageId st rm)) = Some blocks' ->
  block rm <> None ->
  prop_get c blocks' = Some l ->
  exists r v,
    blockRecords (out_store (sanitizeRecordMap parsePageId st rm)) !! l
    = Some r
    /\ rec_value r = Some v
    /\ truthy (get_field "type" v) = true.
Proof.
  intros Hout Hb Hc. destruct (block rm) as [blocks|] eqn:Hblocks; [|done].
  rewrite (sanitize_blocks _ _ _ Hblocks) in Hout. injection Hout as <-.
  apply storeAll_lookup_inv in Hc as [Hc|(key & Hin & Hv & _)]; [done|].
  rewrite (sanitize_blockRecords _ _ _ _ Hblocks).
  unfold hasValue in Hv.
  destruct (blockRecords st !! l) as [r|] eqn:Hl; simpl in *; [|done].
  destruct (rec_value r) as [v|] eqn:Hr; [|done].
  destruct (last_visit blocks l) as (pre & key' & post & -> & Hpost).
  { apply list_elem_of_fmap. by exists (key, l). }
  rewrite visits_last by done.
  assert (is_Some (rec_value (visits sanitizedRecord l pre r))) as [v' Hv'].
  { apply (visits_invariant _ (fun r => is_Some (rec_value r))).
    - intros key0 r0 [v0 Hv0]. rewrite sanitizedRecord_value, Hv0. by eexists.
    - by rewrite Hr. }
  eexists. exists (sanitizeBlockValue key' v').
  split; [done|]. split.
  - by rewrite sanitizedRecord_value, Hv'.
  - apply sanitizeBlockValue_type.
Qed.

Lemma sanitize_collections st rm blocks :
  block rm = Some blocks ->
  collection (out_map (sanitizeRecordMap parsePageId st rm))
  = Some (fold_left (fun out e => if hasValue (collectionRecords st) e.2
                                  then prop_assign e.1 e.2 out else out)
                    (default [] (collection rm)) []).
Proof.
  intros Hb. unfold sanitizeRecordMap. rewrite Hb. simpl.
  by rewrite collectionPass_out_gen with (heap := collectionRecords st).
Qed.

Lemma sanitize_collectionRecords st rm blocks l :
  block rm = Some blocks ->
  collectionRecords (out_store (sanitizeRecordMap parsePageId st rm)) !! l
  = visits (fun _ => flattenedRecord) l (default [] (collection rm))
    <$> collectionRecords st !! l.
Proof.
  intros Hb. unfold sanitizeRecordMap. rewrite Hb. simpl.
  by rewrite collectionPass_heap, visitAll_lookup.
Qed.

Lemma sanitize_console st rm blocks :
  block rm = Some blocks ->
  out_console (sanitizeRecordMap parsePageId st rm)
  = missingSummary (resolveReferences parsePageId (blockRecords st) blocks).
Proof.
  intros Hb. unfold sanitizeRecordMap. rewrite Hb. simpl.
  by rewrite blockPass_console.
Qed.

Lemma sanitize_no_block st rm :
  block rm = None ->
  sanitizeRecordMap parsePageId st rm = mkOutcome st rm [].
Proof. intros Hb. unfold sanitizeRecordMap. by rewrite Hb. Qed.
End RecordMap.

(** ** The reference scan *)

Section ReferenceScan.
Variable parsePageId : string -> option string.
Implicit Types (keys : gset string) (nm : gmap string string)
         (acc : references) (child : jsval) (children : list jsval)
         (heap : gmap loc record) (blocks : list (string * loc)).

Lemma normalizedBlockKeys_values ks x k :
  normalizedBlockKeys parsePageId ks !! x = Some k -> k ∈ ks.
Proof.
  unfold normalizedBlockKeys.
  assert (forall (m : gmap string string) (all : list string),
             (forall x k, m !! x = Some k -> k ∈ all) ->
             (forall k, k ∈ ks -> k ∈ all) ->
             forall x k,
               fold_left (fun m key => <[key:=key]>
                                         (<[normalize parsePageId key:=key]> m))
                         ks m !! x = Some k -> k ∈ all) as Hgen.
  { induction ks as [|key ks IH]; intros m all Hm Hks y k'; simpl; [apply Hm|].
    apply IH.
    - intros z k''. rewrite !lookup_insert.
      repeat case_decide; try (intros [= <-]; apply Hks; left). apply Hm.
    - intros k'' Hin. apply Hks. by right. }
  apply (Hgen ∅ ks); [|done]. intros z k'. by rewrite lookup_empty.
Qed.

Lemma classifyChild_string keys nm c :
  classifyChild parsePageId keys nm (JStr c) = Some Missing
  \/ exists k, classifyChild parsePageId keys nm (JStr c) = Some (Resolved k).
Proof.
  simpl. destruct (resolveChild parsePageId keys nm c) as [k|]; [|by left].
  destruct (String.eqb k ""); [by left | right; by exists k].
Qed.

Lemma visitChild_missing keys nm acc child c :
  c ∈ missingBlockIds (visitChild parsePageId keys nm acc child)
  <-> c ∈ missingBlockIds acc
      \/ (child = JStr c
          /\ classifyChild parsePageId keys nm child = Some Missing).
Proof.
  unfold visitChild.
  destruct (classifyChild parsePageId keys nm child) as [[k|]|] eqn:Hcl.
  - simpl. split; [by left | by intros [?|[_ ?]]].
  - destruct child as [| |b|n|s|l|o]; try done. simpl.
    rewrite elem_of_union, elem_of_singleton. split.
    + intros [->|?]; [by right | by left].
    + intros [?|[[= ->] _]]; [by right | by left].
  - split; [by left | by intros [?|[_ ?]]].
Qed.

Lemma visitChild_referenced keys nm acc child k :
  k ∈ referencedBlockIds (visitChild parsePageId keys nm acc child)
  <-> k ∈ referencedBlockIds acc
      \/ classifyChild parsePageId keys nm child = Some (Resolved k).
Proof.
  unfold visitChild.
  destruct (classifyChild parsePageId keys nm child) as [[k'|]|] eqn:Hcl.
  - simpl. rewrite elem_of_union, elem_of_singleton. split.
    + intros [->|?]; [by right | by left].
    + intros [?|[= ->]]; [by right | by left].
  - split; [|by intros [?|?]; [destruct child|]].
    intros H. left. by destruct child.
  - split; [by left | by intros [?|?]].
Qed.

(** The scan of one content array. *)
Lemma visitChildren_missing keys nm children acc c :
  c ∈ missingBlockIds (fold_left (visitChild parsePageId keys nm) children acc)
  <-> c ∈ missingBlockIds acc
      \/ (JStr c ∈ children
          /\ classifyChild parsePageId keys nm (JStr c) = Some Missing).
Proof.
  revert acc. induction children as [|child children IH]; intros acc;
    cbn [fold_left].
  - split; [by left | intros [?|[?%elem_of_nil _]]; done].
  - rewrite IH, visitChild_missing, elem_of_cons. split.
    + intros [[?|[-> ?]]|[? ?]];
        [by left | right; split; [by left|done] | right; split; [by right|done]].
    + intros [?|[[<-|?] ?]];
        [by left; left | left; right; by split | right; by split].
Qed.

Lemma visitChildren_referenced keys nm children acc k :
  k ∈ referencedBlockIds
        (fold_left (visitChild parsePageId keys nm) children acc)
  <-> k ∈ referencedBlockIds acc
      \/ exists child,
           child ∈ children
           /\ classifyChild parsePageId keys nm child = Some (Resolved k).
Proof.
  revert acc. induction children as [|child children IH]; intros acc;
    cbn [fold_left].
  - split; [by left | intros [?|(? & ?%elem_of_nil & _)]; done].
  - rewrite IH, visitChild_referenced. split.
    + intros [[?|?]|(ch & ? & ?)]; [by left | |].
      * right. exists child. split; [left|done].
      * right. exists ch. split; [by right|done].
    + intros [?|(ch & [->|?]%elem_of_cons & Hch)].
      * by left; left.
      * by left; right.
      * right. by exists ch.
Qed.

(** The scan of all the blocks, over fixed key tables. *)
Lemma scan_missing keys nm heap blocks acc c :
  c ∈ missingBlockIds
        (fold_left
           (fun acc e => fold_left (visitChild parsePageId keys nm)
                                   (contentChildren (heap !! e.2)) acc)
           blocks acc)
  <-> c ∈ missingBlockIds acc
      \/ exists key l,
           (key, l) ∈ blocks
           /\ JStr c ∈ contentChildren (heap !! l)
           /\ classifyChild parsePageId keys nm (JStr c) = Some Missing.
Proof.
  revert acc. induction blocks as [|[key l] blocks IH]; intros acc;
    cbn [fold_left].
  - split; [by left | intros [?|(? & ? & ?%elem_of_nil & _)]; done].
  - rewrite IH, visitChildren_missing. simpl. split.
    + intros [[?|[? ?]]|(key' & l' & ? & ? & ?)]; [by left | |].
      * right. exists key, l. split; [left|done].
      * right. exists key', l'. split; [by right|done].
    + intros [?|(key' & l' & [[= -> ->]|?]%elem_of_cons & ? & ?)].
      * by left; left.
      * left; right. by split.
      * right. by exists key', l'.
Qed.

Lemma scan_referenced keys nm heap blocks acc k :
  k ∈ referencedBlockIds
        (fold_left
           (fun acc e => fold_left (visitChild parsePageId keys nm)
                                   (contentChildren (heap !! e.2)) acc)
           blocks acc)
  <-> k ∈ referencedBlockIds acc
      \/ exists key l child,
           (key, l) ∈ blocks
           /\ child ∈ contentChildren (heap !! l)
           /\ classifyChild parsePageId keys nm child = Some (Resolved k).
Proof.
  revert acc. induction blocks as [|[key l] blocks IH]; intros acc;
    cbn [fold_left].
  - split; [by left | intros [?|(? & ? & ? & ?%elem_of_nil & _)]; done].
  - rewrite IH, visitChildren_referenced. simpl. split.
    + intros [[?|(ch & ? & ?)]|(key' & l' & ch & ? & ? & ?)]; [by left | |].
      * right. exists key, l, ch. split; [left|done].
      * right. exists key', l', ch. split; [by right|done].
    + intros [?|(key' & l' & ch & [[= -> ->]|?]%elem_of_cons & ? & ?)].
      * by left; left.
      * left; right. by exists ch.
      * right. by exists key', l', ch.
Qed.

(** What the three lookups can return. *)
Lemma resolveChild_exact keys nm c :
  c ∈ keys -> resolveChild parsePageId keys nm c = Some c.
Proof. intros Hc. unfold resolveChild. by rewrite decide_True. Qed.

Lemma resolveChild_key ks c k :
  resolveChild parsePageId (allBlockKeysSet ks)
               (normalizedBlockKeys parsePageId ks) c = Some k ->
  k ∈ ks.
Proof.
  unfold resolveChild, allBlockKeysSet.
  destruct (decide (c ∈ list_to_set ks)) as [Hc|Hc].
  { intros [= <-]. by apply elem_of_list_to_set in Hc. }
  destruct (_ && _).
  - destruct (decide (_ ∈ list_to_set ks)) as [Hd|Hd].
    + intros [= <-]. by apply elem_of_list_to_set in Hd.
    + apply normalizedBlockKeys_values.
  - apply normalizedBlockKeys_values.
Qed.

Lemma classify_resolved_key ks child k :
  classifyChild parsePageId (allBlockKeysSet ks)
                (normalizedBlockKeys parsePageId ks) child
  = Some (Resolved k) ->
  k ∈ ks /\ k ≠ "".
Proof.
  destruct child as [| |b|n|c|l|o]; try done. simpl.
  destruct (resolveChild _ _ _ c) as [k'|] eqn:Hres; [|done].
  destruct (String.eqb_spec k' ""); [done|]. intros [= <-].
  split; [by apply (resolveChild_key _ c)|done].
Qed.

Lemma classify_missing_key ks c :
  classifyChild parsePageId (allBlockKeysSet ks)
                (normalizedBlockKeys parsePageId ks) (JStr c) = Some Missing ->
  c ∉ ks \/ c = "".
Proof.
  simpl. destruct (decide (c ∈ ks)) as [Hc|Hc]; [|by left].
  rewrite resolveChild_exact by by apply elem_of_list_to_set.
  destruct (String.eqb_spec c ""); [by right|done].
Qed.

Lemma append_nonempty_r (a b : string) : b ≠ "" -> (a ++ b)%string ≠ "".
Proof. by destruct a, b. Qed.

Lemma dashedId_nonempty s : dashedId s ≠ "".
Proof. unfold dashedId. by apply append_nonempty_r. Qed.

(** The groups of the dashed form. *)
Lemma dashedId_groups s :
  String.length s = 32%nat ->
  String.length (dashedId s) = 36%nat
  /\ substring 8 1 (dashedId s) = "-" /\ substring 13 1 (dashedId s) = "-"
  /\ substring 18 1 (dashedId s) = "-" /\ substring 23 1 (dashedId s) = "-"
  /\ substring 0 8 (dashedId s) = substring 0 8 s
  /\ substring 9 4 (dashedId s) = substring 8 4 s
  /\ substring 14 4 (dashedId s) = substring 12 4 s
  /\ substring 19 4 (dashedId s) = substring 16 4 s
  /\ substring 24 12 (dashedId s) = substring 20 12 s.
Proof.
  intros Hlen.
  do 32 (destruct s as [|? s]; [discriminate|]).
  destruct s; [|discriminate]. repeat split.
Qed.

Lemma isHex32_length s : isHex32 s = true -> String.length s = 32%nat.
Proof.
  unfold isHex32. intros [Hlen _]%andb_true_iff. by apply Nat.eqb_eq.
Qed.

Lemma isHex32_nonempty s : isHex32 s = true -> s ≠ "".
Proof. by intros H ->. Qed.

End ReferenceScan.

(** ** Sanitizing an output block map again *)

Section Replay.
Local Open Scope list_scope.
Variable parsePageId : string -> option string.
Implicit Types (p q a : list (string * loc)) (seen : list string).

Lemma storeBlock_nonempty key l (out : list (string * loc)) :
  key ≠ "" ->
  storeBlock parsePageId key l out
  = if String.eqb (normalize parsePageId key) key
    then prop_assign key l out
    else prop_assign (normalize parsePageId key) l (prop_assign key l out).
Proof.
  intros Hk. unfold storeBlock.
  rewrite (length_pos_nonempty _ Hk),
    (length_pos_nonempty _ (normalize_nonempty parsePageId _ Hk)).
  destruct (String.eqb_spec key "") as [|_]; [done|]. simpl.
  rewrite andb_true_r. by destruct (String.eqb (normalize parsePageId key) key).
Qed.

(** Storing the entries of a well-shaped map, in order, rebuilds the map. *)
Lemma replay seen n :
  forall q p,
    (length q <= n)%nat ->
    NoDup (p ++ q).*1 ->
    jsOrdered 0 (p ++ q).*1 ->
    Forall (outputKey parsePageId) q.*1 ->
    closedAt parsePageId seen (p ++ q) ->
    fold_left (fun out e => storeBlock parsePageId e.1 e.2 out) q p
    = (p ++ q)%list.
Proof.
  induction n as [|n IH]; intros q p Hlen Hnd Hord Hkeys Hcl.
  { destruct q; [by rewrite app_nil_r | simpl in Hlen; lia]. }
  destruct q as [|[k l] q']; [by rewrite app_nil_r|].
  cbn [fold_left fst snd].
  assert (Hmid : (p ++ (k, l) :: q') !! length p = Some (k, l))
    by by apply list_lookup_middle.
  rewrite fmap_cons in Hkeys. apply Forall_cons in Hkeys as [Hk Hkeys].
  destruct Hk as (Hne & Hnp & Hkd). simpl in Hne, Hnp, Hkd.
  assert (Hkp : prop_get k p = None).
  { apply prop_get_None. rewrite fmap_app, fmap_cons in Hnd.
    apply NoDup_app in Hnd as (_ & Hdisj & _). intros Hin.
    apply (Hdisj _ Hin). left. }
  rewrite (storeBlock_nonempty _ _ _ Hne).
  rewrite (prop_assign_other k l p Hnp).
  rewrite (prop_set_ordered 0%N k l p q'.*1 Hkp)
    by by rewrite fmap_app, fmap_cons in Hord.
  assert (Hassoc : forall q0, ((p ++ [(k, l)]) ++ q0 = p ++ (k, l) :: q0)%list)
    by (intros q0; by rewrite <-app_assoc).
  destruct (String.eqb_spec (normalize parsePageId k) k) as [Hnd'|Hdual].
  { rewrite IH; [apply Hassoc | simpl in Hlen; lia | by rewrite Hassoc ..
                 | done | by rewrite Hassoc]. }
  destruct (decide (normalize parsePageId k = "__proto__")) as [Hp|Hp].
  { rewrite Hp, prop_assign_proto.
    rewrite IH; [apply Hassoc | simpl in Hlen; lia | by rewrite Hassoc ..
                 | done | by rewrite Hassoc]. }
  rewrite (prop_assign_other _ l _ Hp).
  destruct (Hkd Hdual) as (Hidx & Hidxn & Hidem).
  destruct (Hcl _ _ _ Hmid Hdual Hp)
    as [(j & Hj & Hjl & _)|[Hnone [l' Hnext]]].
  - rewrite lookup_app_l in Hjl by done.
    rewrite prop_set_same.
    + rewrite IH; [apply Hassoc | simpl in Hlen; lia | by rewrite Hassoc ..
                   | done | by rewrite Hassoc].
    + apply prop_get_NoDup.
      * rewrite <-(Hassoc q'), fmap_app in Hnd.
        by apply NoDup_app in Hnd as (? & _).
      * apply elem_of_app. left. by apply list_elem_of_lookup_2 with j.
  - destruct q' as [|[c l''] q'']; [by rewrite lookup_ge_None_2 in Hnext
      by (rewrite length_app; simpl; lia)|].
    assert ((c, l'') = (normalize parsePageId k, l')) as [= -> ->].
    { rewrite <-(Hassoc ((c, l'') :: q'')) in Hnext.
      rewrite (lookup_app_r (p ++ [(k, l)])) in Hnext
        by (rewrite length_app; simpl; lia).
      rewrite length_app in Hnext. simpl in Hnext.
      replace (S (length p) - (length p + 1))%nat with 0%nat in Hnext by lia.
      simpl in Hnext. congruence. }
    assert (Hcp : prop_get (normalize parsePageId k) (p ++ [(k, l)]) = None).
    { apply prop_get_None. rewrite fmap_app. apply not_elem_of_app. split.
      - intros (j & Hj)%list_elem_of_lookup_1.
        rewrite list_lookup_fmap in Hj.
        destruct (p !! j) as [[c0 l0]|] eqn:Hpj; [|done].
        simpl in Hj. injection Hj as ->.
        apply (Hnone j l0); [by apply lookup_lt_Some in Hpj|].
        by apply lookup_app_l_Some.
      - csimpl. by intros [?|?%elem_of_nil]%elem_of_cons. }
    rewrite (prop_set_new _ _ _ Hcp Hidxn).
    cbn [fold_left fst snd].
    rewrite fmap_cons in Hkeys. apply Forall_cons in Hkeys as [Hc Hkeys].
    destruct Hc as (Hcne & _). simpl in Hcne.
    rewrite (storeBlock_nonempty _ _ _ Hcne), Hidem, String.eqb_refl.
    rewrite (prop_assign_other _ l' _ Hp).
    rewrite (prop_set_last _ _ _ _ Hcp).
    assert (Hassoc2 : (((p ++ [(k, l)]) ++ [(normalize parsePageId k, l')])
                         ++ q''
                       = p ++ (k, l) :: (normalize parsePageId k, l') :: q'')
                      %list) by by rewrite <-!app_assoc.
    rewrite IH; [apply Hassoc2 | simpl in Hlen; lia | by rewrite Hassoc2 ..
                 | done | by rewrite Hassoc2].
Qed.
End Replay.

(** ** The shape of the output block map *)

Section Build.
Local Open Scope list_scope.
Variable parsePageId : string -> option string.
Implicit Types (a acc ext : list (string * loc)) (seen : list string).

Lemma closedAt_mono seen seen' a :
  (forall x, x ∈ seen -> x ∈ seen') ->
  closedAt parsePageId seen a -> closedAt parsePageId seen' a.
Proof.
  intros Hsub Hcl i D l Hi Hd Hp.
  destruct (Hcl i D l Hi Hd Hp) as [(j & Hj & Hjl & Hin)|Hr]; [|by right].
  left. exists j. split; [done|]. split; [done|]. by apply Hsub.
Qed.

(** Appending entries keeps the shape, as far as the old entries go. *)
Lemma closedAt_app seen a ext :
  closedAt parsePageId seen a ->
  (forall i D l,
      ext !! i = Some (D, l) ->
      normalize parsePageId D ≠ D ->
      normalize parsePageId D ≠ "__proto__" ->
      (exists j, (j < length a + i)%nat
                 /\ (a ++ ext) !! j = Some (normalize parsePageId D, l)
                 /\ normalize parsePageId D ∈ seen)
      \/ ((forall j l', (j < length a + i)%nat ->
                        (a ++ ext) !! j ≠ Some (normalize parsePageId D, l'))
          /\ exists l', (a ++ ext) !! S (length a + i)
                        = Some (normalize parsePageId D, l'))) ->
  closedAt parsePageId seen (a ++ ext).
Proof.
  intros Hcl Hext i D l Hi Hd Hp.
  destruct (decide (i < length a)%nat) as [Hlt|Hge].
  - rewrite lookup_app_l in Hi by done.
    destruct (Hcl i D l Hi Hd Hp) as [(j & Hj & Hjl & Hin)|[Hnone [l' Hnext]]].
    + left. exists j. split; [done|]. split; [|done].
      by apply lookup_app_l_Some.
    + right. split.
      * intros j l'' Hj. rewrite lookup_app_l by lia. by apply Hnone.
      * exists l'. by apply lookup_app_l_Some.
  - rewrite lookup_app_r in Hi by lia.
    replace i with (length a + (i - length a))%nat by lia.
    by apply Hext.
Qed.

(** Rebinding a key that is its own canonical form keeps the shape, when no
    entry relies on its earlier binding. *)
Lemma closedAt_insert seen a j0 c l0 l :
  closedAt parsePageId seen a ->
  a !! j0 = Some (c, l0) ->
  normalize parsePageId c = c ->
  (forall D, D ∈ a.*1 -> normalize parsePageId D ≠ D ->
             normalize parsePageId D = c -> c ∉ seen) ->
  closedAt parsePageId seen (<[j0:=(c, l)]> a).
Proof.
  intros Hcl Hj0 Hc Hfree i D l1 Hi Hd Hp.
  assert (i ≠ j0) as Hij.
  { intros ->. rewrite list_lookup_insert_eq in Hi
      by by apply lookup_lt_Some in Hj0.
    injection Hi as <- <-. done. }
  rewrite list_lookup_insert_ne in Hi by done.
  assert (D ∈ a.*1) as HD.
  { apply list_elem_of_fmap. exists (D, l1). split; [done|].
    by apply list_elem_of_lookup_2 with i. }
  destruct (Hcl i D l1 Hi Hd Hp)
    as [(j & Hj & Hjl & Hin)|[Hnone [l' Hnext]]].
  - left. exists j. split; [done|]. split; [|done].
    rewrite list_lookup_insert_ne; [done|]. intros ->.
    rewrite Hj0 in Hjl. injection Hjl as Hcd _.
    apply (Hfree D HD Hd); [done|]. by rewrite Hcd.
  - right. split.
    + intros j l'' Hj Hjl. destruct (decide (j = j0)) as [->|Hne].
      * rewrite list_lookup_insert_eq in Hjl by by apply lookup_lt_Some in Hj0.
        injection Hjl as Hcd _. apply (Hnone j0 l0 Hj). by rewrite Hj0, Hcd.
      * rewrite list_lookup_insert_ne in Hjl by done. by apply (Hnone j l'').
    + destruct (decide (S i = j0)) as [Heq|Hne].
      * exists l. rewrite Heq, list_lookup_insert_eq
          by by apply lookup_lt_Some in Hj0.
        rewrite Heq, Hj0 in Hnext. by injection Hnext as -> _.
      * exists l'. by rewrite list_lookup_insert_ne.
Qed.

Lemma lookup_middle_shift {A} (l1 l2 : list A) x i :
  (length l1 <= i)%nat -> (l1 ++ x :: l2) !! S i = (l1 ++ l2) !! i.
Proof.
  intros Hi. rewrite !lookup_app_r by lia.
  by replace (S i - length l1)%nat with (S (i - length l1)) by lia.
Qed.

(** Putting an entry in the middle keeps the shape, when it and the entries
    before it are their own canonical forms and no canonical form of a later
    key is among them. *)
Lemma closedAt_middle seen a1 a2 x :
  closedAt parsePageId seen (a1 ++ a2) ->
  Forall (fun e => normalize parsePageId e.1 = e.1) a1 ->
  normalize parsePageId x.1 = x.1 ->
  (forall D l, (D, l) ∈ a2 -> normalize parsePageId D ≠ D ->
               (normalize parsePageId D ∉ a1.*1)
               /\ normalize parsePageId D ≠ x.1) ->
  closedAt parsePageId seen (a1 ++ x :: a2).
Proof.
  intros Hcl H1 Hx H2 i D l Hi Hd Hp.
  destruct (decide (i < length a1)%nat) as [Hlt|Hge].
  { rewrite lookup_app_l in Hi by done. exfalso. apply Hd.
    apply (proj1 (Forall_forall _ _) H1 (D, l)).
    by apply list_elem_of_lookup_2 with i. }
  destruct (decide (i = length a1)) as [->|Hne].
  { rewrite list_lookup_middle in Hi by done. injection Hi as ->. done. }
  destruct i as [|i]; [lia|].
  rewrite lookup_middle_shift in Hi by lia.
  assert (HD : (D, l) ∈ a2).
  { rewrite lookup_app_r in Hi by lia. by apply list_elem_of_lookup_2 in Hi. }
  destruct (H2 D l HD Hd) as [Hc1 Hcx].
  assert (Hfar : forall j l', (a1 ++ a2) !! j
                              = Some (normalize parsePageId D, l') ->
                              (length a1 <= j)%nat).
  { intros j l' Hj. destruct (decide (length a1 <= j)%nat); [done|].
    exfalso. apply Hc1. rewrite lookup_app_l in Hj by lia.
    apply list_elem_of_fmap. exists (normalize parsePageId D, l').
    split; [done|]. by apply list_elem_of_lookup_2 with j. }
  destruct (Hcl i D l Hi Hd Hp) as [(j & Hj & Hjl & Hin)|[Hnone [l' Hnext]]].
  - left. exists (S j). split; [lia|]. split; [|done].
    rewrite lookup_middle_shift; [done|]. by apply (Hfar j l).
  - right. split.
    + intros j l'' Hj Hjl.
      destruct (decide (j < length a1)%nat) as [Hj1|Hj1].
      { rewrite lookup_app_l in Hjl by done. apply Hc1.
        apply list_elem_of_fmap. exists (normalize parsePageId D, l'').
        split; [done|]. by apply list_elem_of_lookup_2 with j. }
      destruct (decide (j = length a1)) as [->|Hj2].
      { rewrite list_lookup_middle in Hjl by done. injection Hjl as ->.
        by apply Hcx. }
      destruct j as [|j]; [lia|].
      rewrite lookup_middle_shift in Hjl by lia.
      apply (Hnone j l''); [lia|done].
    + exists l'. rewrite lookup_middle_shift; [done|]. by apply (Hfar _ l').
Qed.

Variable K : list string.
Hypothesis K_forms : canonicalForms parsePageId K.
Hypothesis K_plain : plainForms parsePageId K.

Lemma K_idem k :
  k ∈ K ->
  normalize parsePageId (normalize parsePageId k) = normalize parsePageId k.
Proof.
  intros Hk. destruct K_forms as [Hidem _].
  by apply (proj1 (Forall_forall _ _) Hidem).
Qed.

Lemma K_unique k1 k2 :
  k1 ∈ K -> k2 ∈ K ->
  normalize parsePageId k1 = normalize parsePageId k2 ->
  normalize parsePageId k1 ≠ k1 -> normalize parsePageId k2 ≠ k2 ->
  k1 = k2.
Proof.
  intros H1 H2. destruct K_forms as [_ Huniq].
  pose proof (proj1 (Forall_forall _ _) Huniq k1 H1) as Hk1.
  by apply (proj1 (Forall_forall _ _) Hk1).
Qed.

(** A key of the map that has a canonical form of its own is a key of the
    input. *)
Lemma built_dual_seen seen acc D :
  builtFrom parsePageId seen acc ->
  (forall x, x ∈ seen -> x ∈ K) ->
  D ∈ acc.*1 -> normalize parsePageId D ≠ D -> D ∈ seen.
Proof.
  intros (_ & Hsrc & _) Hsub HD Hd.
  destruct (Hsrc D HD) as (_ & k0 & Hk0 & _ & [->| ->]); [done|].
  exfalso. apply Hd. apply K_idem. by apply Hsub.
Qed.

Lemma builtFrom_mono seen seen' acc :
  (forall x, x ∈ seen -> x ∈ seen') ->
  builtFrom parsePageId seen acc -> builtFrom parsePageId seen' acc.
Proof.
  intros Hsub (Hnd & Hsrc & Hcl). split; [done|]. split.
  - intros κ Hκ. destruct (Hsrc κ Hκ) as (? & k0 & ? & ? & ?).
    split; [done|]. exists k0. split; [by apply Hsub|done].
  - by apply closedAt_mono with seen.
Qed.

(** The step for the key [__proto__]: only its canonical form, when it has
    one of its own, is bound. *)
Lemma built_step_proto seen acc l :
  builtFrom parsePageId seen acc ->
  (forall x, x ∈ seen -> x ∈ K) ->
  "__proto__" ∈ K -> "__proto__" ∉ seen ->
  builtFrom parsePageId ("__proto__" :: seen)
            (storeBlock parsePageId "__proto__" l acc).
Proof.
  intros Hb Hsub HkK Hnew.
  pose proof Hb as (Hnd & Hsrc & Hcl).
  pose proof (proj1 (Forall_forall _ _) K_plain _ HkK) as Hkplain.
  simpl in Hkplain.
  assert (Hmono : forall x, x ∈ seen -> x ∈ "__proto__" :: seen)
    by (intros; by right).
  rewrite storeBlock_nonempty by done. rewrite prop_assign_proto.
  destruct (String.eqb_spec (normalize parsePageId "__proto__") "__proto__")
    as [Hself|Hdual]; [by apply builtFrom_mono with seen|].
  rewrite prop_assign_other by done.
  destruct (Hkplain Hdual) as [_ Hidxn].
  assert (Hcself : normalize parsePageId (normalize parsePageId "__proto__")
                   = normalize parsePageId "__proto__") by by apply K_idem.
  assert (Hold : forall κ, κ ∈ acc.*1 ->
            κ ≠ "__proto__"
            /\ exists k0, k0 ∈ "__proto__" :: seen /\ k0 ≠ ""
                          /\ (κ = k0 \/ κ = normalize parsePageId k0)).
  { intros κ Hκ. destruct (Hsrc κ Hκ) as (? & k0 & ? & ? & ?).
    split; [done|]. exists k0. split; [by right|done]. }
  destruct (prop_get (normalize parsePageId "__proto__") acc) as [lc|]
    eqn:Hgetc.
  - apply prop_get_Some_elem, list_elem_of_lookup_1 in Hgetc as [jc Hjc].
    rewrite (prop_set_insert _ _ lc jc) by done.
    assert (Hkeys : (<[jc:=(normalize parsePageId "__proto__", l)]> acc).*1
                    = acc.*1).
    { rewrite list_fmap_insert. simpl. apply list_insert_id.
      by rewrite list_lookup_fmap, Hjc. }
    split; [by rewrite Hkeys|]. split; [by rewrite Hkeys|].
    apply closedAt_mono with seen; [done|].
    apply closedAt_insert with lc; [done..|].
    intros D HD Hd Heq. exfalso.
    destruct (Hsrc D HD) as [HDp _]. apply HDp.
    apply K_unique; [|done..].
    apply Hsub. by apply (built_dual_seen seen acc).
  - rewrite (prop_set_new _ _ _ Hgetc Hidxn).
    apply prop_get_None in Hgetc.
    split; [|split].
    + rewrite fmap_app. apply NoDup_app. split; [done|]. split.
      * intros x Hx [->|?%elem_of_nil]%elem_of_cons; done.
      * apply NoDup_singleton.
    + intros κ. rewrite fmap_app, elem_of_app.
      intros [Hκ|[->|?%elem_of_nil]%elem_of_cons]; [by apply Hold| |done].
      split; [done|]. exists "__proto__".
      split; [left|split; [done|by right]].
    + apply closedAt_mono with seen; [done|].
      apply closedAt_app; [done|].
      intros i D l1 [-> [= <- <-]]%list_lookup_singleton_Some. done.
Qed.

Lemma built_step seen acc k l :
  builtFrom parsePageId seen acc ->
  (forall x, x ∈ seen -> x ∈ K) ->
  k ∈ K -> k ∉ seen -> k ≠ "" ->
  builtFrom parsePageId (k :: seen) (storeBlock parsePageId k l acc).
Proof.
  intros Hb Hsub HkK Hnew Hne.
  destruct (decide (k = "__proto__")) as [->|Hkp];
    [by apply built_step_proto|].
  pose proof Hb as (Hnd & Hsrc & Hcl).
  pose proof (proj1 (Forall_forall _ _) K_plain k HkK) as Hkplain.
  simpl in Hkplain.
  assert (Hmono : forall x, x ∈ seen -> x ∈ k :: seen) by (intros; by right).
  assert (Hold : forall κ, κ ∈ acc.*1 ->
            κ ≠ "__proto__"
            /\ exists k0, k0 ∈ k :: seen /\ k0 ≠ ""
                          /\ (κ = k0 \/ κ = normalize parsePageId k0)).
  { intros κ Hκ. destruct (Hsrc κ Hκ) as (? & k0 & ? & ? & ?).
    split; [done|]. exists k0. split; [by right|done]. }
  assert (Hown : k ≠ "__proto__"
            /\ exists k0, k0 ∈ k :: seen /\ k0 ≠ ""
                          /\ (k = k0 \/ k = normalize parsePageId k0)).
  { split; [done|]. exists k. split; [left|split; [done|by left]]. }
  rewrite (storeBlock_nonempty _ _ _ _ Hne).
  rewrite (prop_assign_other k l acc Hkp).
  destruct (String.eqb_spec (normalize parsePageId k) k) as [Hself|Hdual].
  - (* the key is its own canonical form *)
    destruct (prop_get k acc) as [l0|] eqn:Hget.
    + apply prop_get_Some_elem, list_elem_of_lookup_1 in Hget as [j0 Hj0].
      rewrite (prop_set_insert _ _ l0 j0) by done.
      split; [|split].
      * rewrite list_fmap_insert. simpl. rewrite list_insert_id; [done|].
        by rewrite list_lookup_fmap, Hj0.
      * intros κ Hκ. rewrite list_fmap_insert in Hκ. simpl in Hκ.
        rewrite list_insert_id in Hκ by by rewrite list_lookup_fmap, Hj0.
        by apply Hold.
      * apply closedAt_mono with seen; [done|].
        apply closedAt_insert with l0; [done..|]. by intros.
    + split; [by apply NoDup_prop_set|]. split.
      { intros κ [->|Hκ]%elem_of_prop_set_keys; [done|by apply Hold]. }
      apply closedAt_mono with seen; [done|].
      unfold prop_set. rewrite Hget.
      destruct (arrayIndex k) as [n|] eqn:Hn.
      * (* a new array index goes among the array indices *)
        destruct (prop_insert_index_split n k l acc)
          as (a1 & a2 & Hacc & -> & Ha1).
        subst acc. rewrite fmap_app in Hsrc.
        assert (forall D, D ∈ a1.*1 ++ a2.*1 ->
                          normalize parsePageId D ≠ D ->
                          arrayIndex D = None
                          /\ arrayIndex (normalize parsePageId D) = None)
          as Hplain.
        { intros D HD Hd.
          apply (proj1 (Forall_forall _ _) K_plain D); [|done].
          apply Hsub. apply (built_dual_seen seen (a1 ++ a2)); [done..| |done].
          by rewrite fmap_app. }
        apply closedAt_middle; [done| |done|].
        -- apply Forall_forall. intros [D l1] HD. simpl.
           destruct (decide (normalize parsePageId D = D)) as [|Hd]; [done|].
           exfalso.
           assert (D ∈ a1.*1) as HD1
             by (apply list_elem_of_fmap; by exists (D, l1)).
           destruct (Hplain D) as [HDi _]; [apply elem_of_app; by left|done|].
           by apply (proj1 (Forall_forall _ _) Ha1 D HD1).
        -- intros D l1 HD Hd.
           destruct (Hplain D) as [_ Hci];
             [apply elem_of_app; right; apply list_elem_of_fmap;
              by exists (D, l1) | done |].
           split.
           ++ intros Hin. by apply (proj1 (Forall_forall _ _) Ha1 _ Hin).
           ++ simpl. intros Heq. rewrite Heq in Hci. congruence.
      * apply closedAt_app; [done|].
        intros i D l1 [-> [= <- <-]]%list_lookup_singleton_Some. done.
  - (* the key has a canonical form of its own *)
    assert (Hkacc : k ∉ acc.*1).
    { intros Hin. apply Hnew. by apply (built_dual_seen seen acc). }
    assert (Hget : prop_get k acc = None) by by apply prop_get_None.
    destruct (Hkplain Hdual) as [Hidx Hidxn].
    rewrite (prop_set_new _ _ _ Hget Hidx).
    assert (Hcself : normalize parsePageId (normalize parsePageId k)
                     = normalize parsePageId k) by by apply K_idem.
    assert (Hnd1 : NoDup (acc ++ [(k, l)]).*1).
    { rewrite fmap_app. apply NoDup_app. split; [done|]. split.
      - intros x Hx [->|?%elem_of_nil]%elem_of_cons; done.
      - apply NoDup_singleton. }
    assert (Hnodual : forall D, D ∈ acc.*1 -> normalize parsePageId D ≠ D ->
                                normalize parsePageId D
                                ≠ normalize parsePageId k).
    { intros D HD Hd Heq. apply Hnew.
      assert (D ∈ seen) as HDs by by apply (built_dual_seen seen acc).
      by rewrite <-(K_unique D k (Hsub _ HDs) HkK Heq Hd Hdual). }
    destruct (decide (normalize parsePageId k = "__proto__")) as [Hp|Hp].
    { (* its canonical form is [__proto__], which is not bound *)
      rewrite Hp, prop_assign_proto.
      split; [done|]. split.
      - intros κ. rewrite fmap_app, elem_of_app.
        intros [Hκ|[->|?%elem_of_nil]%elem_of_cons];
          [by apply Hold|done|done].
      - apply closedAt_mono with seen; [done|].
        apply closedAt_app; [done|].
        by intros i D l1 [-> [= <- <-]]%list_lookup_singleton_Some. }
    rewrite (prop_assign_other _ l _ Hp).
    assert (Hcan : normalize parsePageId k ≠ "__proto__"
              /\ exists k0, k0 ∈ k :: seen /\ k0 ≠ ""
                            /\ (normalize parsePageId k = k0
                                \/ normalize parsePageId k
                                   = normalize parsePageId k0)).
    { split; [done|]. exists k. split; [left|split; [done|by right]]. }
    destruct (prop_get (normalize parsePageId k) acc) as [lc|] eqn:Hgetc.
    + (* its canonical form is bound already *)
      apply prop_get_Some_elem, list_elem_of_lookup_1 in Hgetc as [jc Hjc].
      assert (Hlt : (jc < length acc)%nat) by by apply lookup_lt_Some in Hjc.
      rewrite (prop_set_insert _ _ lc jc) by
        (done || by apply lookup_app_l_Some).
      rewrite insert_app_l by done.
      assert (Hcseen : normalize parsePageId k ∈ seen).
      { destruct (Hsrc (normalize parsePageId k))
          as (_ & k0 & Hk0 & _ & [Heq|Heq]).
        - apply list_elem_of_fmap. exists (normalize parsePageId k, lc).
          split; [done|]. by apply list_elem_of_lookup_2 with jc.
        - by rewrite Heq.
        - destruct (decide (normalize parsePageId k0 = k0)) as [Hk0s|Hk0d].
          + by rewrite Heq, Hk0s.
          + exfalso. apply Hnew.
            by rewrite (K_unique k k0 HkK (Hsub _ Hk0) Heq Hdual Hk0d). }
      assert (Hkeys : (<[jc:=(normalize parsePageId k, l)]> acc).*1 = acc.*1).
      { rewrite list_fmap_insert. simpl. apply list_insert_id.
        by rewrite list_lookup_fmap, Hjc. }
      split; [|split].
      * by rewrite fmap_app, Hkeys, <-fmap_app.
      * intros κ. rewrite fmap_app, Hkeys, elem_of_app.
        intros [Hκ|[->|?%elem_of_nil]%elem_of_cons];
          [by apply Hold|done|done].
      * apply closedAt_mono with (k :: seen); [done|].
        apply closedAt_app.
        -- apply closedAt_mono with seen; [done|].
           apply closedAt_insert with lc; [done..|].
           intros D HD Hd Heq. by destruct (Hnodual D HD Hd).
        -- intros i D l1 [-> [= <- <-]]%list_lookup_singleton_Some _ _.
           left. exists jc.
           rewrite length_insert. split; [lia|]. split; [|by right].
           apply lookup_app_l_Some. by apply list_lookup_insert_eq.
    + (* its canonical form is new *)
      assert (Hgetc1 : prop_get (normalize parsePageId k) (acc ++ [(k, l)])
                       = None).
      { rewrite prop_get_app, Hgetc. simpl.
        by destruct (String.eqb_spec k (normalize parsePageId k)). }
      rewrite (prop_set_new _ _ _ Hgetc1 Hidxn), <-app_assoc. simpl.
      apply prop_get_None in Hgetc.
      split; [|split].
      * rewrite fmap_app. apply NoDup_app. split; [done|]. split.
        -- intros x Hx [->|[->|?%elem_of_nil]%elem_of_cons]%elem_of_cons;
             done.
        -- csimpl. apply NoDup_cons. split; [|apply NoDup_singleton].
           by intros [?|?%elem_of_nil]%elem_of_cons.
      * intros κ. rewrite fmap_app, elem_of_app.
        intros [Hκ|[->|[->|?%elem_of_nil]%elem_of_cons]%elem_of_cons];
          [by apply Hold|done|done|done].
      * apply closedAt_mono with seen; [done|].
        apply closedAt_app; [done|].
        intros [|[|i]] D l1;
          [| |by intros ?%lookup_lt_Some; simpl in *; lia].
        -- intros [= <- <-] _ _. right. split.
           ++ intros j l' Hj Hjl. rewrite lookup_app_l in Hjl by lia.
              apply Hgetc. apply list_elem_of_fmap.
              exists (normalize parsePageId k, l'). split; [done|].
              by apply list_elem_of_lookup_2 with j.
           ++ exists l. rewrite lookup_app_r by lia.
              by replace (S (length acc + 0) - length acc)%nat with 1%nat
                by lia.
        -- by intros [= <- <-].
Qed.

Lemma storeBlock_empty l (out : list (string * loc)) :
  storeBlock parsePageId "" l out = out.
Proof. done. Qed.

(** The shape holds of what the block loop builds. *)
Lemma built_all heap es :
  forall seen acc,
    builtFrom parsePageId seen acc ->
    (forall x, x ∈ seen -> x ∈ K) ->
    (forall x, x ∈ es.*1 -> x ∈ K /\ x ∉ seen) ->
    NoDup es.*1 ->
    builtFrom parsePageId (es.*1 ++ seen)
      (fold_left (fun out e => if hasValue heap e.2
                               then storeBlock parsePageId e.1 e.2 out
                               else out) es acc).
Proof.
  induction es as [|[k l] es IH]; intros seen acc Hb Hsub Hes Hnd;
    cbn [fold_left]; [done|].
  rewrite fmap_cons in Hes, Hnd. apply NoDup_cons in Hnd as [Hk Hnd].
  destruct (Hes k) as [HkK Hks]; [left|]. simpl.
  assert (Hb' : builtFrom parsePageId (k :: seen)
                  (if hasValue heap l then storeBlock parsePageId k l acc
                   else acc)).
  { destruct (hasValue heap l);
      [|apply builtFrom_mono with seen; [by right|done]].
    destruct (decide (k = "")) as [->|Hne].
    - rewrite storeBlock_empty. apply builtFrom_mono with seen; [by right|done].
    - by apply built_step. }
  apply builtFrom_mono with (es.*1 ++ k :: seen).
  { intros x. rewrite !elem_of_app, !elem_of_cons, elem_of_app. tauto. }
  apply IH; [done| | |done].
  - intros x [->|?]%elem_of_cons; [done|by apply Hsub].
  - intros x Hx. destruct (Hes x) as [? ?]; [by right|]. split; [done|].
    intros [->|?]%elem_of_cons; done.
Qed.

Lemma jsOrdered_storeBlock key l (out : list (string * loc)) :
  jsOrdered 0 out.*1 -> jsOrdered 0 (storeBlock parsePageId key l out).*1.
Proof.
  intros Hout. destruct (decide (key = "")) as [->|Hne].
  - by rewrite storeBlock_empty.
  - rewrite (storeBlock_nonempty _ _ _ _ Hne).
    destruct (String.eqb _ _);
      repeat apply jsOrdered_prop_assign; try done; intros; lia.
Qed.

Lemma storeAll_jsOrdered heap es :
  forall out : list (string * loc),
    jsOrdered 0 out.*1 ->
    jsOrdered 0 (fold_left (fun out e => if hasValue heap e.2
                                         then storeBlock parsePageId e.1 e.2 out
                                         else out) es out).*1.
Proof.
  induction es as [|e es IH]; intros out Hout; simpl; [done|].
  apply IH. destruct (hasValue heap e.2); [|done].
  by apply jsOrdered_storeBlock.
Qed.

(** Every key of the map built is fit for an output key. *)
Lemma built_outputKey seen acc κ :
  builtFrom parsePageId seen acc ->
  (forall x, x ∈ seen -> x ∈ K) ->
  κ ∈ acc.*1 -> outputKey parsePageId κ.
Proof.
  intros (_ & Hsrc & _) Hsub Hκ.
  destruct (Hsrc κ Hκ) as (Hp & k0 & Hk0 & Hne & Heq).
  pose proof (proj1 (Forall_forall _ _) K_plain k0 (Hsub _ Hk0)) as Hplain.
  pose proof (K_idem k0 (Hsub _ Hk0)) as Hidem.
  split; [|split; [done|]].
  - destruct Heq as [-> | ->]; [done|by apply normalize_nonempty].
  - destruct Heq as [-> | ->].
    + intros Hd. destruct (Hplain Hd). done.
    + intros Hd. by rewrite Hidem in Hd.
Qed.
End Build.

(** ** Records that a further visit leaves alone *)

Section Settled.
Implicit Types (r : record) (l : loc) (es : list (string * loc))
         (heap : gmap loc record).

Lemma flatOnce_sanitized key r : flatOnce r -> flatOnce (sanitizedRecord key r).
Proof.
  unfold flatOnce. rewrite sanitizedRecord_value.
  destruct (rec_value r) as [v|]; simpl; [|done]. intros Hv.
  rewrite flatten_settled; by rewrite sanitizeBlockValue_nested.
Qed.

Lemma settled_after key r :
  flatOnce r -> key ≠ "" -> settledRecord (sanitizedRecord key r).
Proof.
  unfold flatOnce. intros Hr Hk v. rewrite sanitizedRecord_value.
  destruct (rec_value r) as [v0|]; simpl in *; [|done]. intros [= <-].
  split; [by rewrite sanitizeBlockValue_nested|]. split.
  - by apply sanitizeBlockValue_id.
  - apply sanitizeBlockValue_type.
Qed.

Lemma settled_fixed key r : settledRecord r -> sanitizedRecord key r = r.
Proof.
  intros Hr. unfold sanitizedRecord. destruct r as [meta [v|]]; simpl; [|done].
  destruct (Hr v eq_refl) as (Hn & Hid & Hty).
  by rewrite sanitizeBlockValue_settled.
Qed.

Lemma settled_sanitized key r :
  settledRecord r -> settledRecord (sanitizedRecord key r).
Proof. intros Hr. by rewrite settled_fixed. Qed.

(** A record visited under a non-empty key is settled from then on. *)
Lemma visits_settled key l es r :
  flatOnce r -> (key, l) ∈ es -> key ≠ "" ->
  settledRecord (visits sanitizedRecord l es r).
Proof.
  intros Hr Hin Hk.
  apply list_elem_of_split in Hin as (pre & post & ->).
  unfold visits. rewrite fold_left_app. cbn [fold_left]. simpl.
  rewrite decide_True by done.
  apply (visits_invariant sanitizedRecord settledRecord).
  - intros key0 r0. apply settled_sanitized.
  - apply settled_after; [|done].
    apply (visits_invariant sanitizedRecord flatOnce); [|done].
    intros key0 r0. apply flatOnce_sanitized.
Qed.

Lemma flatOnce_flattened r : flatOnce r -> flatRecord (flattenedRecord r).
Proof.
  unfold flatOnce. intros Hr v. rewrite flattenedRecord_value.
  destruct (rec_value r) as [v0|]; simpl in *; [|done]. by intros [= <-].
Qed.

Lemma flat_fixed r : flatRecord r -> flattenedRecord r = r.
Proof.
  intros Hr. unfold flattenedRecord. destruct r as [meta [v|]]; simpl; [|done].
  by rewrite (flatten_settled _ (Hr v eq_refl)).
Qed.

Lemma flat_flattened r : flatRecord r -> flatRecord (flattenedRecord r).
Proof. intros Hr. by rewrite flat_fixed. Qed.

Lemma flatOnce_flat r : flatRecord r -> flatOnce r.
Proof.
  unfold flatOnce. intros Hr. destruct (rec_value r) as [v|] eqn:Hv; [|done].
  simpl. by rewrite flatten_settled; rewrite (Hr v).
Qed.

(** A collection record visited at all is flat from then on. *)
Lemma visits_flat l es r :
  flatOnce r -> l ∈ es.*2 ->
  flatRecord (visits (fun _ => flattenedRecord) l es r).
Proof.
  intros Hr Hin.
  apply list_elem_of_fmap in Hin as ([key l'] & -> & Hin).
  apply list_elem_of_split in Hin as (pre & post & ->).
  unfold visits. rewrite fold_left_app. cbn [fold_left]. simpl.
  rewrite decide_True by done.
  apply (visits_invariant (fun _ => flattenedRecord) flatRecord).
  - intros _ r0. apply flat_flattened.
  - apply flatOnce_flattened.
    apply (visits_invariant (fun _ => flattenedRecord) flatOnce); [|done].
    intros _ r0 Hr0. by apply flatOnce_flat, flatOnce_flattened.
Qed.

(** Visits that change nothing leave the store as it is. *)
Lemma visitAll_fixed (f : string -> record -> record) es heap :
  (forall key l r, (key, l) ∈ es -> heap !! l = Some r -> f key r = r) ->
  visitAll f es heap = heap.
Proof.
  unfold visitAll. induction es as [|[key l] es IH]; intros Hfix; simpl;
    [done|].
  assert (alter (f key) l heap = heap) as ->.
  { apply map_eq. intros l'. rewrite lookup_alter.
    destruct (decide (l = l')) as [<-|]; [|done].
    destruct (heap !! l) as [r|] eqn:Hl; [|done]. simpl.
    by rewrite (Hfix key l r); [|left|]. }
  apply IH. intros key' l' r Hin. apply Hfix. by right.
Qed.

Lemma hasValue_visitAll (f : string -> record -> record) es heap l :
  (forall key r, is_Some (rec_value (f key r)) <-> is_Some (rec_value r)) ->
  hasValue (visitAll f es heap) l = hasValue heap l.
Proof.
  intros Hf. unfold hasValue. rewrite visitAll_lookup.
  destruct (heap !! l) as [r|]; simpl; [|done].
  assert (is_Some (rec_value (visits f l es r)) <-> is_Some (rec_value r))
    as Hiff.
  { unfold visits. revert r. induction es as [|e es IH]; intros r; simpl;
      [done|].
    rewrite IH. destruct (decide (e.2 = l)); [apply Hf|done]. }
  destruct (rec_value (visits f l es r)) as [v|], (rec_value r) as [v0|];
    try done.
  - by destruct (proj1 Hiff (mk_is_Some _ _ eq_refl)).
  - by destruct (proj2 Hiff (mk_is_Some _ _ eq_refl)).
Qed.
End Settled.

(** ** Sanitizing twice *)

Section Twice.
Local Open Scope list_scope.
Variable parsePageId : string -> option string.
Implicit Types (heap : gmap loc record) (blocks colls a : list (string * loc)).

Lemma storeAll_effective heap q (p : list (string * loc)) :
  Forall (fun e => hasValue heap e.2 = true) q ->
  fold_left (fun out e => if hasValue heap e.2
                          then storeBlock parsePageId e.1 e.2 out else out) q p
  = fold_left (fun out e => storeBlock parsePageId e.1 e.2 out) q p.
Proof.
  revert p. induction q as [|e q IH]; intros p Hq; simpl; [done|].
  apply Forall_cons in Hq as [He Hq]. by rewrite He, IH.
Qed.

Lemma setAll_effective heap q (p : list (string * loc)) :
  Forall (fun e => hasValue heap e.2 = true) q ->
  fold_left (fun out e => if hasValue heap e.2
                          then prop_assign e.1 e.2 out else out) q p
  = fold_left (fun out e => prop_assign e.1 e.2 out) q p.
Proof.
  revert p. induction q as [|e q IH]; intros p Hq; simpl; [done|].
  apply Forall_cons in Hq as [He Hq]. by rewrite He, IH.
Qed.

(** Setting the names of a map in enumeration order rebuilds the map. *)
Lemma setAll_ordered q :
  forall p : list (string * loc),
    NoDup (p ++ q).*1 ->
    jsOrdered 0 (p ++ q).*1 ->
    Forall (fun e => e.1 ≠ "__proto__") q ->
    fold_left (fun out e => prop_assign e.1 e.2 out) q p = p ++ q.
Proof.
  induction q as [|[k l] q IH]; intros p Hnd Hord Hq; simpl;
    [by rewrite app_nil_r|].
  apply Forall_cons in Hq as [Hk Hq]. simpl in Hk.
  rewrite (prop_assign_other k l p Hk).
  rewrite (prop_set_ordered 0%N k l p q.*1).
  - rewrite IH; [by rewrite <-app_assoc | by rewrite <-app_assoc ..|done].
  - apply prop_get_None. rewrite fmap_app, fmap_cons in Hnd.
    apply NoDup_app in Hnd as (_ & Hdisj & _). intros Hin.
    apply (Hdisj _ Hin). left.
  - by rewrite fmap_app, fmap_cons in Hord.
Qed.

Lemma setAll_jsOrdered heap es :
  forall out : list (string * loc),
    jsOrdered 0 out.*1 ->
    jsOrdered 0 (fold_left (fun out e => if hasValue heap e.2
                                         then prop_assign e.1 e.2 out else out)
                           es out).*1.
Proof.
  induction es as [|e es IH]; intros out Hout; simpl; [done|].
  apply IH. destruct (hasValue heap e.2); [|done].
  apply jsOrdered_prop_assign; [done|]. intros; lia.
Qed.

Lemma setAll_NoDup heap es :
  forall out : list (string * loc),
    NoDup out.*1 ->
    NoDup (fold_left (fun out e => if hasValue heap e.2
                                   then prop_assign e.1 e.2 out else out)
                     es out).*1.
Proof.
  induction es as [|e es IH]; intros out Hnd; simpl; [done|].
  apply IH. destruct (hasValue heap e.2); [|done]. by apply NoDup_prop_assign.
Qed.

Lemma flatAfterOnce_lookup heap es key l r :
  flatAfterOnce heap es -> (key, l) ∈ es -> heap !! l = Some r -> flatOnce r.
Proof.
  intros Hflat Hin Hl.
  pose proof (proj1 (Forall_forall _ _) Hflat (key, l) Hin) as H.
  simpl in H. by rewrite Hl in H.
Qed.

(** The block map and the block records are left as they are by a second
    pass. *)
Lemma blocks_stable heap blocks :
  NoDup blocks.*1 ->
  plainForms parsePageId blocks.*1 ->
  canonicalForms parsePageId blocks.*1 ->
  flatAfterOnce heap blocks ->
  let a := fold_left (fun out e => if hasValue heap e.2
                                   then storeBlock parsePageId e.1 e.2 out
                                   else out) blocks [] in
  let heap1 := visitAll sanitizedRecord blocks heap in
  fold_left (fun out e => if hasValue heap1 e.2
                          then storeBlock parsePageId e.1 e.2 out else out)
            a [] = a
  /\ visitAll sanitizedRecord a heap1 = heap1.
Proof.
  intros Hnd Hplain Hforms Hflat a heap1.
  assert (Hbuilt : builtFrom parsePageId blocks.*1 a).
  { apply builtFrom_mono with (blocks.*1 ++ []); [by rewrite app_nil_r|].
    apply (built_all parsePageId blocks.*1 Hforms Hplain); try done.
    - split; [constructor|]. split; [by intros ? ?%elem_of_nil|].
      intros i D l. by rewrite lookup_nil.
    - by intros ? ?%elem_of_nil.
    - intros x Hx. split; [done|]. by intros ?%elem_of_nil. }
  pose proof Hbuilt as (Hnda & _ & Hcl).
  assert (Heff : forall κ l, (κ, l) ∈ a ->
                   exists key, (key, l) ∈ blocks /\ hasValue heap l = true
                               /\ key ≠ "").
  { intros κ l Hin. apply (prop_get_NoDup _ _ _ Hnda) in Hin.
    apply storeAll_lookup_inv in Hin as [Hin|(key & Hin & Hv & Hw)]; [done|].
    exists key. split; [done|]. split; [done|]. intros ->. by vm_compute in Hw. }
  assert (Hpres : forall l, hasValue heap1 l = hasValue heap l).
  { intros l. apply hasValue_visitAll. intros key r.
    rewrite sanitizedRecord_value. by rewrite fmap_is_Some. }
  split.
  - rewrite storeAll_effective.
    + apply (replay parsePageId blocks.*1 (length a) a []); simpl; try done.
      { by apply storeAll_jsOrdered. }
      apply Forall_forall. intros κ Hκ.
      by apply (built_outputKey parsePageId blocks.*1 Hforms Hplain
                  blocks.*1 a).
    + apply Forall_forall. intros [κ l] Hin. simpl. rewrite Hpres.
      by destruct (Heff κ l Hin) as (key & _ & ? & _).
  - apply visitAll_fixed. intros κ l r Hin Hl.
    destruct (Heff κ l Hin) as (key & Hkey & Hv & Hne).
    apply settled_fixed. subst heap1. rewrite visitAll_lookup in Hl.
    destruct (heap !! l) as [r0|] eqn:Hl0; [|done].
    injection Hl as <-. apply visits_settled with key; [|done..].
    by apply (flatAfterOnce_lookup heap blocks key l).
Qed.

(** The same of the collection map and the collection records. *)
Lemma collections_stable heap colls :
  NoDup colls.*1 ->
  flatAfterOnce heap colls ->
  let a := fold_left (fun out e => if hasValue heap e.2
                                   then prop_assign e.1 e.2 out else out)
                     colls [] in
  let heap1 := visitAll (fun _ => flattenedRecord) colls heap in
  fold_left (fun out e => if hasValue heap1 e.2
                          then prop_assign e.1 e.2 out else out) a [] = a
  /\ visitAll (fun _ => flattenedRecord) a heap1 = heap1.
Proof.
  intros Hnd Hflat a heap1.
  assert (Hnda : NoDup a.*1) by (apply setAll_NoDup; constructor).
  assert (Heff : forall κ l, (κ, l) ∈ a ->
                             (κ, l) ∈ colls /\ hasValue heap l = true
                             /\ κ ≠ "__proto__").
  { intros κ l Hin. apply (prop_get_NoDup _ _ _ Hnda) in Hin.
    by apply setAll_lookup_inv in Hin as [Hin|Hin]. }
  assert (Hpres : forall l, hasValue heap1 l = hasValue heap l).
  { intros l. apply hasValue_visitAll. intros _ r.
    rewrite flattenedRecord_value. by rewrite fmap_is_Some. }
  split.
  - rewrite setAll_effective.
    + apply (setAll_ordered a []); [done|by apply setAll_jsOrdered|].
      apply Forall_forall. intros [κ l] Hin.
      by destruct (Heff κ l Hin) as (_ & _ & ?).
    + apply Forall_forall. intros [κ l] Hin. simpl. rewrite Hpres.
      by destruct (Heff κ l Hin) as (_ & ? & _).
  - apply visitAll_fixed. intros κ l r Hin Hl.
    destruct (Heff κ l Hin) as (Hc & Hv & _).
    apply flat_fixed. subst heap1. rewrite visitAll_lookup in Hl.
    destruct (heap !! l) as [r0|] eqn:Hl0; [|done].
    injection Hl as <-. apply visits_flat.
    + by apply (flatAfterOnce_lookup heap colls κ l).
    + apply list_elem_of_fmap. by exists (κ, l).
Qed.

(** The result of the routine on a record map that has a block mapping. *)
Lemma sanitize_result st rm blocks :
  block rm = Some blocks ->
  out_store (sanitizeRecordMap parsePageId st rm)
  = mkStore (visitAll sanitizedRecord blocks (blockRecords st))
            (visitAll (fun _ => flattenedRecord) (default [] (collection rm))
                      (collectionRecords st))
  /\ out_map (sanitizeRecordMap parsePageId st rm)
     = mkRecordMap
         (Some (fold_left (fun out e => if hasValue (blockRecords st) e.2
                                        then storeBlock parsePageId e.1 e.2 out
                                        else out) blocks []))
         (Some (fold_left (fun out e => if hasValue (collectionRecords st) e.2
                                        then prop_assign e.1 e.2 out else out)
                          (default [] (collection rm)) []))
         (passthrough rm).
Proof.
  intros Hb. unfold sanitizeRecordMap. rewrite Hb. simpl.
  rewrite blockPass_heap, blockPass_out, collectionPass_heap.
  by rewrite collectionPass_out_gen with (heap := collectionRecords st).
Qed.
End Twice.

(** * The claims of the design document *)

(** Closed side conditions are settled by evaluation. *)
Ltac by_computation := apply (bool_decide_unpack _); vm_compute; exact I.

Ltac by_membership :=
  vm_compute;
  repeat first [apply list_elem_of_here | apply list_elem_of_further].

Section Claims.
Variable parsePageId : string -> option string.
Implicit Types (st : store) (rm : recordMap) (l : loc) (r : record)
         (blocks colls pre post : list (string * loc)).

(** C3 (type inference coverage).  Every binding of the output block map
    leads to a record whose value has a non-empty [type].  For a record
    stored under one key, the tag is the one the flattened block had when it
    had one; otherwise it is chosen in this order: [text] when the block has
    properties, else [column_list] when its content is an array, else [page]
    when its parent table is [collection], else [text]. *)
Theorem type_inference_coverage st rm :
  let o := sanitizeRecordMap parsePageId st rm in
  (forall blocks' c l,
      block (out_map o) = Some blocks' ->
      prop_get c blocks' = Some l ->
      exists r v,
        blockRecords (out_store o) !! l = Some r
        /\ rec_value r = Some v
        /\ truthy (get_field "type" v) = true)
  /\ (forall pre key l post r value,
        block rm = Some (pre ++ (key, l) :: post)%list ->
        l ∉ pre.*2 -> l ∉ post.*2 ->
        blockRecords st !! l = Some r ->
        rec_value r = Some value ->
        let b := flatten value in
        exists v',
          blockRecords (out_store o) !! l
          = Some (mkRecord (rec_meta r) (Some v'))
          /\ (truthy (get_field "type" b) = true ->
              get_field "type" v' = get_field "type" b)
          /\ (truthy (get_field "type" b) = false ->
              get_field "type" v'
              = JStr (if truthy (get_field "properties" b) then "text"
                      else if isArray (get_field "content" b)
                           then "column_list"
                      else if strictEqStr (get_field "parent_table" b)
                                          "collection"
                           then "page"
                      else "text"))).
Proof.
  intros o. split.
  - intros blocks' c l Hout Hc. subst o.
    destruct (block rm) as [blocks|] eqn:Hb.
    + eapply output_block_typed; [done| |done]. by rewrite Hb.
    + unfold sanitizeRecordMap in Hout. rewrite Hb in Hout. simpl in Hout.
      by rewrite Hb in Hout.
  - intros pre key l post r value Hb Hpre Hpost Hl Hv b. subst o.
    rewrite (sanitize_record_once _ _ _ _ _ _ _ _ Hb Hpre Hpost Hl).
    unfold sanitizedRecord. rewrite Hv.
    exists (sanitizeBlockValue key value). split; [done|].
    unfold sanitizeBlockValue. rewrite finalId_other by done. fold b.
    unfold backfillType. rewrite !backfillId_other by done.
    split; intros Ht; rewrite Ht; [by rewrite backfillId_other|].
    rewrite get_field_set. simpl. unfold inferType.
    rewrite !backfillId_other by done. f_equal.
    destruct (truthy (get_field "properties" b)); [done|].
    destruct (get_field "content" b); simpl; try done;
      by rewrite andb_false_r.
Qed.

(** C10 (last write wins among the records that hold a value).  When two
    distinct block keys have the same canonical form [c], other than
    [__proto__], and the later of the two is non-empty and its record holds a
    value, and no entry after it is stored under [c], the output block map
    binds [c] to the record of the later key: the binding made for the
    earlier key is overwritten.  (A later key whose record holds no value
    writes nothing, and the binding of the earlier key stays.) *)
Theorem last_write_wins st rm pre key1 l1 mid key2 l2 post c :
  block rm = Some (pre ++ (key1, l1) :: mid ++ (key2, l2) :: post)%list ->
  key1 ≠ key2 ->
  normalize parsePageId key1 = c ->
  normalize parsePageId key2 = c ->
  c ≠ "__proto__" ->
  key2 ≠ "" ->
  hasValue (blockRecords st) l2 = true ->
  Forall (fun e => e.1 ≠ c /\ normalize parsePageId e.1 ≠ c) post ->
  exists blocks',
    block (out_map (sanitizeRecordMap parsePageId st rm)) = Some blocks'
    /\ prop_get c blocks' = Some l2
    /\ (l1 ≠ l2 -> prop_get c blocks' ≠ Some l1).
Proof.
  intros Hb _ _ Hc Hp Hk2 Hv Hpost.
  eexists. split; [by apply sanitize_blocks|].
  assert (prop_get c
            (fold_left (fun out e => if hasValue (blockRecords st) e.2
                                     then storeBlock parsePageId e.1 e.2 out
                                     else out)
               ((pre ++ (key1, l1) :: mid) ++ (key2, l2) :: post) [])
          = Some l2) as Hget.
  { apply (storeAll_lookup_last _ _ _ (key2, l2)); simpl; [done| |].
    - unfold writesKey. rewrite Hc, String.eqb_refl, orb_true_r.
      destruct (String.eqb_spec key2 ""); [done|].
      by destruct (String.eqb_spec c "__proto__").
    - eapply Forall_impl; [exact Hpost|]. intros e [H1 H2]. simpl.
      unfold writesKey.
      destruct (String.eqb_spec c e.1); [done|].
      destruct (String.eqb_spec c (normalize parsePageId e.1)); [done|].
      by rewrite !andb_false_r. }
  rewrite <-app_assoc in Hget. simpl in Hget.
  split; [done|]. rewrite Hget. congruence.
Qed.

(** C1 (no data loss, up to key collisions).  A block record stored under
    a non-empty key and holding a value is bound in the output block map
    under that key and under the canonical form of that key, both bindings
    being the one record object, whose value has a non-empty [id] and [type]
    -- provided no later entry of the input is stored under either of these
    two keys or has one of them as its canonical form, and the record object
    is not stored again under the empty key.  The name [__proto__] is the
    exception: the output map gets no binding under it, be it the key or the
    canonical form. *)
Theorem no_data_loss st rm pre key l post r value :
  block rm = Some (pre ++ (key, l) :: post)%list ->
  key ≠ "" ->
  blockRecords st !! l = Some r ->
  rec_value r = Some value ->
  Forall (fun e => e.2 = l -> e.1 ≠ "") post ->
  Forall (fun e => e.1 ≠ key /\ normalize parsePageId e.1 ≠ key
                   /\ e.1 ≠ normalize parsePageId key
                   /\ normalize parsePageId e.1 ≠ normalize parsePageId key)
         post ->
  let o := sanitizeRecordMap parsePageId st rm in
  exists blocks' v',
    block (out_map o) = Some blocks'
    /\ (key ≠ "__proto__" -> prop_get key blocks' = Some l)
    /\ (normalize parsePageId key ≠ "__proto__" ->
        prop_get (normalize parsePageId key) blocks' = Some l)
    /\ prop_get "__proto__" blocks' = None
    /\ blockRecords (out_store o) !! l = Some (mkRecord (rec_meta r) (Some v'))
    /\ truthy (get_field "id" v') = true
    /\ truthy (get_field "type" v') = true.
Proof.
  intros Hb Hk Hl Hv Hpost Hfree o. subst o.
  assert (hasValue (blockRecords st) l = true) as Hhas.
  { unfold hasValue. rewrite Hl. simpl. by rewrite Hv. }
  assert (forall c, (c = key \/ c = normalize parsePageId key) ->
            c ≠ "__proto__" ->
            prop_get c
              (fold_left (fun out e => if hasValue (blockRecords st) e.2
                                       then storeBlock parsePageId e.1 e.2 out
                                       else out)
                 (pre ++ (key, l) :: post) [])
            = Some l) as Hget.
  { intros c Hc Hp.
    apply (storeAll_lookup_last _ _ _ (key, l)); simpl; [done| |].
    - unfold writesKey. destruct (String.eqb_spec key ""); [done|]. simpl.
      destruct (String.eqb_spec c "__proto__"); [done|].
      destruct Hc as [-> | ->]; rewrite String.eqb_refl; [done|].
      by rewrite orb_true_r.
    - eapply Forall_impl; [exact Hfree|]. intros e (H1 & H2 & H3 & H4). simpl.
      unfold writesKey.
      destruct (String.eqb_spec c e.1) as [He|_];
        [destruct Hc; congruence|].
      destruct (String.eqb_spec c (normalize parsePageId e.1)) as [He|_];
        [destruct Hc; congruence|].
      by rewrite !andb_false_r. }
  pose (kept := fun r' : record =>
          rec_meta r' = rec_meta r
          /\ exists v', rec_value r' = Some v'
                        /\ truthy (get_field "id" v') = true
                        /\ truthy (get_field "type" v') = true).
  assert (forall key' r', key' ≠ "" -> is_Some (rec_value r') ->
                          rec_meta r' = rec_meta r ->
                          kept (sanitizedRecord key' r')) as Hkept.
  { intros key' r' Hk' [w Hw] Hmeta. split.
    - by rewrite sanitizedRecord_meta.
    - exists (sanitizeBlockValue key' w).
      rewrite sanitizedRecord_value, Hw. split; [done|]. split.
      + by apply sanitizeBlockValue_id.
      + apply sanitizeBlockValue_type. }
  assert (kept (visits sanitizedRecord l (pre ++ (key, l) :: post) r))
    as (Hmeta & v' & Hv' & Hid & Hty).
  { unfold visits. rewrite fold_left_app. cbn [fold_left]. simpl.
    rewrite decide_True by done.
    apply (visits_invariant_on sanitizedRecord kept).
    - eapply Forall_impl; [exact Hpost|]. intros e He Hel r' (Hm & w & Hw & _).
      apply Hkept; [by apply He | by rewrite Hw | done].
    - apply Hkept; [done| |].
      + apply (visits_invariant _ (fun r => is_Some (rec_value r))).
        * intros key0 r0 [w Hw]. rewrite sanitizedRecord_value, Hw.
          by eexists.
        * by rewrite Hv.
      + apply (visits_invariant _ (fun r' => rec_meta r' = rec_meta r));
          [|done].
        intros key0 r0 Hr0. by rewrite sanitizedRecord_meta. }
  eexists. exists v'.
  split; [by apply sanitize_blocks|].
  split; [intros Hp; apply Hget; [by left|done]|].
  split; [intros Hp; apply Hget; [by right|done]|].
  split; [apply storeAll_lookup_proto|].
  split; [|done].
  rewrite (sanitize_blockRecords _ _ _ _ _ Hb), Hl. simpl.
  destruct (visits sanitizedRecord l (pre ++ (key, l) :: post) r)
    as [meta' value'].
  simpl in *. by subst.
Qed.

(** C9 (collection normalizer, behind the block guard).  When the record
    map has a block mapping, a collection record without a value is left out
    of the output collection map; a collection record with a value is bound
    under its own key, unless that key is [__proto__], under which nothing is
    bound; nothing is bound under any other key or to any other record; and
    the record (stored under one key) ends up holding the flattened value,
    which is the value itself when it has no nested value field: no
    identifier and no type are added. *)
Theorem collection_normalizer st rm blocks colls :
  block rm = Some blocks ->
  collection rm = Some colls ->
  NoDup colls.*1 ->
  let o := sanitizeRecordMap parsePageId st rm in
  exists colls',
    collection (out_map o) = Some colls'
    /\ (forall key l,
          (key, l) ∈ colls ->
          hasValue (collectionRecords st) l = false ->
          prop_get key colls' = None)
    /\ (forall key l,
          (key, l) ∈ colls ->
          hasValue (collectionRecords st) l = true ->
          key ≠ "__proto__" ->
          prop_get key colls' = Some l)
    /\ prop_get "__proto__" colls' = None
    /\ (forall c l,
          prop_get c colls' = Some l ->
          (c, l) ∈ colls /\ hasValue (collectionRecords st) l = true)
    /\ (forall pre key l post r value,
          colls = (pre ++ (key, l) :: post)%list ->
          l ∉ pre.*2 -> l ∉ post.*2 ->
          collectionRecords st !! l = Some r ->
          rec_value r = Some value ->
          collectionRecords (out_store o) !! l
          = Some (mkRecord (rec_meta r) (Some (flatten value)))
          /\ (hasNestedValue value = false -> flatten value = value)).
Proof.
  intros Hb Hc Hnd o. subst o.
  eexists. split; [by apply (sanitize_collections _ _ _ _ Hb)|].
  rewrite Hc. simpl. split; [|split; [|split; [|split]]].
  - intros key l Hin Hv.
    destruct (decide (key = "__proto__")) as [->|Hp];
      [apply setAll_lookup_proto|].
    by rewrite (setAll_lookup _ _ _ l), Hv.
  - intros key l Hin Hv Hp. by rewrite (setAll_lookup _ _ _ l), Hv.
  - apply setAll_lookup_proto.
  - intros c l Hget.
    by apply setAll_lookup_inv in Hget as [?|(? & ? & _)].
  - intros pre key l post r value Hcs Hpre Hpost Hl Hv.
    split; [|apply flatten_settled].
    rewrite (sanitize_collectionRecords _ _ _ _ _ Hb), Hc, Hl, Hcs. simpl.
    rewrite visits_once by done. unfold flattenedRecord. by rewrite Hv.
Qed.

(** C8 (effects of the routine).  Without a block mapping the routine changes
    nothing.  With one, it builds new block and collection maps but updates
    in place the record objects the input maps refer to: a block record with
    a value (stored under one key) ends up holding the flattened block with
    its identifier and type filled in, a collection record with a value the
    flattened collection.  Records that no entry refers to, records without a
    value, and the fields of a record other than [value] are unchanged. *)
Theorem mutation_confined st rm :
  let o := sanitizeRecordMap parsePageId st rm in
  (block rm = None -> out_store o = st)
  /\ (forall blocks,
        block rm = Some blocks ->
        let colls := default [] (collection rm) in
        (forall l, l ∉ blocks.*2 ->
                   blockRecords (out_store o) !! l = blockRecords st !! l)
        /\ (forall l, l ∉ colls.*2 ->
                      collectionRecords (out_store o) !! l
                      = collectionRecords st !! l)
        /\ (forall l, hasValue (blockRecords st) l = false ->
                      blockRecords (out_store o) !! l = blockRecords st !! l)
        /\ (forall l, hasValue (collectionRecords st) l = false ->
                      collectionRecords (out_store o) !! l
                      = collectionRecords st !! l)
        /\ (forall l, rec_meta <$> blockRecords (out_store o) !! l
                      = rec_meta <$> blockRecords st !! l)
        /\ (forall l, rec_meta <$> collectionRecords (out_store o) !! l
                      = rec_meta <$> collectionRecords st !! l)
        /\ (forall pre key l post r value,
              blocks = (pre ++ (key, l) :: post)%list ->
              l ∉ pre.*2 -> l ∉ post.*2 ->
              blockRecords st !! l = Some r ->
              rec_value r = Some value ->
              blockRecords (out_store o) !! l
              = Some (mkRecord (rec_meta r)
                               (Some (sanitizeBlockValue key value))))
        /\ (forall pre key l post r value,
              colls = (pre ++ (key, l) :: post)%list ->
              l ∉ pre.*2 -> l ∉ post.*2 ->
              collectionRecords st !! l = Some r ->
              rec_value r = Some value ->
              collectionRecords (out_store o) !! l
              = Some (mkRecord (rec_meta r) (Some (flatten value))))).
Proof.
  intros o. subst o. split.
  { intros Hb. by rewrite sanitize_no_block. }
  intros blocks Hb colls. subst colls.
  repeat split.
  - intros l Hl. rewrite (sanitize_blockRecords _ _ _ _ _ Hb).
    destruct (blockRecords st !! l) as [r|]; simpl; [|done].
    by rewrite visits_untouched.
  - intros l Hl. rewrite (sanitize_collectionRecords _ _ _ _ _ Hb).
    destruct (collectionRecords st !! l) as [r|]; simpl; [|done].
    by rewrite visits_untouched.
  - intros l Hv. rewrite (sanitize_blockRecords _ _ _ _ _ Hb).
    unfold hasValue in Hv.
    destruct (blockRecords st !! l) as [r|]; simpl in *; [|done].
    destruct (rec_value r) eqn:Hr; [done|]. rewrite visits_fixed; [done|].
    intros key. unfold sanitizedRecord. by rewrite Hr.
  - intros l Hv. rewrite (sanitize_collectionRecords _ _ _ _ _ Hb).
    unfold hasValue in Hv.
    destruct (collectionRecords st !! l) as [r|]; simpl in *; [|done].
    destruct (rec_value r) eqn:Hr; [done|]. rewrite visits_fixed; [done|].
    intros key. unfold flattenedRecord. by rewrite Hr.
  - intros l. rewrite (sanitize_blockRecords _ _ _ _ _ Hb).
    destruct (blockRecords st !! l) as [r|]; simpl; [|done]. f_equal.
    apply (visits_invariant _ (fun r' => rec_meta r' = rec_meta r)); [|done].
    intros key r0 Hr0. by rewrite sanitizedRecord_meta.
  - intros l. rewrite (sanitize_collectionRecords _ _ _ _ _ Hb).
    destruct (collectionRecords st !! l) as [r|]; simpl; [|done]. f_equal.
    apply (visits_invariant _ (fun r' => rec_meta r' = rec_meta r)); [|done].
    intros key r0 Hr0. by rewrite flattenedRecord_meta.
  - intros pre key l post r value -> Hpre Hpost Hl Hv.
    rewrite (sanitize_record_once _ _ _ _ _ _ _ _ Hb Hpre Hpost Hl).
    unfold sanitizedRecord. by rewrite Hv.
  - intros pre key l post r value Hc Hpre Hpost Hl Hv.
    rewrite (sanitize_collectionRecords _ _ _ _ _ Hb), Hc, Hl. simpl.
    rewrite visits_once by done. unfold flattenedRecord. by rewrite Hv.
Qed.

(** C5 (total resolution of string identifiers).  The scan is a total
    function.  A child identifier that is a string, well-formed or not, is
    classified into exactly one of resolved and missing: either it resolves to a storage key, which
    is recorded as referenced, and the identifier is not recorded as missing;
    or it is recorded as missing, and is not recorded as referenced.  A child
    that is not a string is passed over: it is neither resolved nor
    missing. *)
Theorem reference_resolution_total heap blocks key l child :
  let keys := allBlockKeysSet blocks.*1 in
  let nm := normalizedBlockKeys parsePageId blocks.*1 in
  let refs := resolveReferences parsePageId heap blocks in
  (key, l) ∈ blocks ->
  child ∈ contentChildren (heap !! l) ->
  match child with
  | JStr c =>
      (exists k,
          classifyChild parsePageId keys nm child = Some (Resolved k)
          /\ k ∈ blocks.*1
          /\ k ∈ referencedBlockIds refs
          /\ c ∉ missingBlockIds refs)
      \/ (classifyChild parsePageId keys nm child = Some Missing
          /\ c ∈ missingBlockIds refs
          /\ c ∉ referencedBlockIds refs)
  | _ => classifyChild parsePageId keys nm child = None
  end.
Proof.
  intros keys nm refs Hin Hchild.
  destruct child as [| |b|n|c|items|o]; try done.
  destruct (classifyChild_string parsePageId keys nm c) as [Hm|[k Hr]].
  - right. split; [done|]. split.
    + apply scan_missing. right. by exists key, l.
    + intros Href. apply scan_referenced in Href
        as [Href|(key' & l' & ch & _ & _ & Hch)]; [done|].
      apply classify_resolved_key in Hch as [Hk Hne].
      by apply classify_missing_key in Hm as [?|?].
  - left. exists k. split; [done|].
    split; [by apply classify_resolved_key in Hr as [? _]|]. split.
    + apply scan_referenced. right. by exists key, l, (JStr c).
    + intros Hmiss. apply scan_missing in Hmiss
        as [Hmiss|(key' & l' & _ & _ & Hm)]; [done|].
      subst keys nm. congruence.
Qed.


(** C7 (missing reference aggregation, by identifier).  Let [M] be the set
    of the string child identifiers, found in the content arrays, that are
    classified as missing.  When [M] is empty no diagnostic is emitted;
    otherwise exactly one is, and it reports the number of elements of [M]:
    an identifier that is referenced several times counts once. *)
Theorem missing_reference_aggregation st rm blocks :
  block rm = Some blocks ->
  let keys := allBlockKeysSet blocks.*1 in
  let nm := normalizedBlockKeys parsePageId blocks.*1 in
  exists M : gset string,
    (forall c,
        c ∈ M <->
        exists key l,
          (key, l) ∈ blocks
          /\ JStr c ∈ contentChildren (blockRecords st !! l)
          /\ classifyChild parsePageId keys nm (JStr c) = Some Missing)
    /\ out_console (sanitizeRecordMap parsePageId st rm)
       = if decide (size M = 0%nat) then [] else [MissingBlocks (size M)].
Proof.
  intros Hb keys nm.
  exists (missingBlockIds (resolveReferences parsePageId (blockRecords st)
                                             blocks)).
  split.
  - intros c. unfold resolveReferences. rewrite scan_missing. simpl.
    split; [by intros [?|?] | by right].
  - rewrite (sanitize_console _ _ _ _ Hb). unfold missingSummary.
    destruct (size _) as [|n]; by simpl.
Qed.

(** C4 (flattening).  A block record (stored under one key) ends up holding
    a value whose fields, apart from [id] and [type], are those of the
    flattened value, and which is the flattened value itself when that has an
    identifier and a type.  A value without a nested value field is its own
    flattening.  The flattening of a wrapper has the fields of the inner
    block and the fields of the wrapper other than [value], the inner block
    winning where both have a field.  The record wrapped as
    [{ role: 'reader', value: { id: 'x', type: 'page' } }] comes out as
    [{ role: 'reader', id: 'x', type: 'page' }]. *)
Theorem flattening_correct :
  (forall st rm pre key l post r value,
      block rm = Some (pre ++ (key, l) :: post)%list ->
      l ∉ pre.*2 -> l ∉ post.*2 ->
      blockRecords st !! l = Some r ->
      rec_value r = Some value ->
      exists v',
        blockRecords (out_store (sanitizeRecordMap parsePageId st rm)) !! l
        = Some (mkRecord (rec_meta r) (Some v'))
        /\ (forall f, f ≠ "id" -> f ≠ "type" ->
                      get_field f v' = get_field f (flatten value))
        /\ (truthy (get_field "id" (flatten value)) = true ->
            truthy (get_field "type" (flatten value)) = true ->
            v' = flatten value))
  /\ (forall value, hasNestedValue value = false -> flatten value = value)
  /\ (forall value f,
        hasNestedValue value = true ->
        NoDup value.*1 ->
        NoDup (ownProps (get_field "value" value)).*1 ->
        prop_get f (flatten value)
        = match prop_get f (ownProps (get_field "value" value)) with
          | Some x => Some x
          | None => if String.eqb f "value" then None else prop_get f value
          end)
  /\ blockRecords (out_store (sanitizeRecordMap parsePageId sample_store
                                                sample_map)) !! 0%nat
     = Some (mkRecord [("role", JStr "reader")]
                      (Some [("role", JStr "reader"); ("id", JStr "x");
                             ("type", JStr "page")])).
Proof.
  split; [|split; [|split]].
  - intros st rm pre key l post r value Hb Hpre Hpost Hl Hv.
    rewrite (sanitize_record_once _ _ _ _ _ _ _ _ Hb Hpre Hpost Hl).
    unfold sanitizedRecord. rewrite Hv.
    exists (sanitizeBlockValue key value). split; [done|]. split.
    + intros f Hid Hty. by apply sanitizeBlockValue_other.
    + intros Hid Hty. unfold sanitizeBlockValue.
      rewrite (backfillId_settled _ _ Hid), (backfillType_settled _ Hty).
      by apply finalId_settled.
  - apply flatten_settled.
  - intros value f. apply flatten_fields.
  - rewrite (sanitize_record_once _ sample_store sample_map [] dashed 0%nat
               [("p", 1%nat); ("q", 2%nat)]
               (mkRecord [("role", JStr "reader")] (Some wrapped_page)));
      [reflexivity | reflexivity | by_computation | by_computation
      | reflexivity].
Qed.

End Claims.

Lemma type_inference_coverage_witness :
  exists v',
    blockRecords (out_store (sanitizeRecordMap parsePageId_model
                                               sample_store sample_map))
    !! 1%nat = Some (mkRecord [] (Some v'))
    /\ get_field "type" v' = JStr "column_list".
Proof.
  destruct (type_inference_coverage parsePageId_model sample_store sample_map)
    as [_ H].
  destruct (H [(dashed, 0%nat)] "p" 1%nat [("q", 2%nat)] _ _ eq_refl
              ltac:(by_computation) ltac:(by_computation) eq_refl eq_refl)
    as (v' & Hv & _ & Ht).
  exists v'. split; [exact Hv | exact (Ht eq_refl)].
Defined.

Lemma last_write_wins_witness :
  exists blocks',
    block (out_map (sanitizeRecordMap parsePageId_model sample_store
                                      collision_map)) = Some blocks'
    /\ prop_get undashed blocks' = Some 1%nat
    /\ (0%nat ≠ 1%nat -> prop_get undashed blocks' ≠ Some 0%nat).
Proof.
  apply (last_write_wins parsePageId_model sample_store collision_map
           [] dashed 0%nat [] undashed 1%nat [] undashed).
  - reflexivity.
  - by_computation.
  - reflexivity.
  - reflexivity.
  - by_computation.
  - by_computation.
  - reflexivity.
  - apply Forall_nil_2.
Defined.

(** The page is stored under the dashed identifier; the record stored under
    the undashed form of the same identifier is visited later, but holds no
    value and is passed over, so the canonical key stays bound to the page:
    the later key does not win. *)
Lemma later_key_without_value_loses :
  let o :=
    sanitizeRecordMap parsePageId_model sample_store valueless_later_map in
  block valueless_later_map = Some [(dashed, 0%nat); (undashed, 2%nat)]
  /\ dashed ≠ undashed
  /\ normalize parsePageId_model dashed = undashed
  /\ normalize parsePageId_model undashed = undashed
  /\ hasValue (blockRecords sample_store) 2%nat = false
  /\ block (out_map o) = Some [(dashed, 0%nat); (undashed, 0%nat)]
  /\ ~ (exists blocks', block (out_map o) = Some blocks'
                        /\ prop_get undashed blocks' = Some 2%nat).
Proof.
  repeat split; try reflexivity; try by_computation.
  intros (blocks' & Hb & Hget). vm_compute in Hb. injection Hb as <-.
  vm_compute in Hget. discriminate.
Qed.

Lemma no_data_loss_witness :
  exists blocks' v',
    block (out_map (sanitizeRecordMap parsePageId_model sample_store
                                      sample_map)) = Some blocks'
    /\ prop_get dashed blocks' = Some 0%nat
    /\ prop_get undashed blocks' = Some 0%nat
    /\ prop_get "__proto__" blocks' = None
    /\ blockRecords (out_store (sanitizeRecordMap parsePageId_model
                                                  sample_store sample_map))
       !! 0%nat = Some (mkRecord [("role", JStr "reader")] (Some v'))
    /\ truthy (get_field "id" v') = true
    /\ truthy (get_field "type" v') = true.
Proof.
  destruct (no_data_loss parsePageId_model sample_store sample_map
              [] dashed 0%nat [("p", 1%nat); ("q", 2%nat)]
              (mkRecord [("role", JStr "reader")] (Some wrapped_page))
              wrapped_page eq_refl ltac:(by_computation) eq_refl eq_refl
              ltac:(by_computation) ltac:(by_computation))
    as (blocks' & v' & Hb & Hkey & Hcanon & Hproto & Hrest).
  exists blocks', v'. split; [exact Hb|]. split; [|split; [|split]].
  - apply Hkey. by_computation.
  - apply Hcanon. by_computation.
  - exact Hproto.
  - exact Hrest.
Defined.

(** The container is stored under the undashed identifier and holds a
    value; the page stored under the dashed form of the same identifier is
    visited later and takes over both keys, so the container is bound
    nowhere in the output. *)
Lemma record_dropped_on_collision :
  let o := sanitizeRecordMap parsePageId_model sample_store overwritten_map in
  block overwritten_map = Some [(undashed, 1%nat); (dashed, 0%nat)]
  /\ undashed ≠ ""
  /\ hasValue (blockRecords sample_store) 1%nat = true
  /\ block (out_map o) = Some [(undashed, 0%nat); (dashed, 0%nat)]
  /\ ~ (exists blocks', block (out_map o) = Some blocks'
                        /\ prop_get undashed blocks' = Some 1%nat).
Proof.
  repeat split; try reflexivity; try by_computation.
  intros (blocks' & Hb & Hget). vm_compute in Hb. injection Hb as <-.
  vm_compute in Hget. discriminate.
Qed.

Lemma collection_normalizer_witness :
  exists colls',
    collection (out_map (sanitizeRecordMap parsePageId_model sample_store
                                           sample_map)) = Some colls'
    /\ prop_get "c2" colls' = None
    /\ prop_get "c1" colls' = Some 0%nat
    /\ collectionRecords (out_store (sanitizeRecordMap parsePageId_model
                                                       sample_store sample_map))
       !! 0%nat = Some (mkRecord [] (Some (flatten wrapped_collection))).
Proof.
  destruct (collection_normalizer parsePageId_model sample_store sample_map
              _ _ eq_refl eq_refl ltac:(by_computation))
    as (colls' & H1 & H2 & H3 & _ & _ & H5).
  exists colls'. split; [exact H1|]. split; [|split].
  - apply (H2 "c2" 1%nat); [by_computation | reflexivity].
  - apply (H3 "c1" 0%nat); [by_computation | reflexivity | by_computation].
  - apply (H5 [] "c1" 0%nat [("c2", 1%nat)]
              (mkRecord [] (Some wrapped_collection)) wrapped_collection);
      [reflexivity | by_computation | by_computation | reflexivity
      | reflexivity].
Defined.

(** Without a block mapping the routine returns at once: the collection
    record without a value stays in the map, and the wrapped collection stays
    wrapped. *)
Lemma collections_untouched_without_block :
  let o := sanitizeRecordMap parsePageId_model sample_store no_block_map in
  collection no_block_map = Some [("c1", 0%nat); ("c2", 1%nat)]
  /\ hasValue (collectionRecords sample_store) 1%nat = false
  /\ (exists colls', collection (out_map o) = Some colls'
                     /\ prop_get "c2" colls' = Some 1%nat)
  /\ hasNestedValue wrapped_collection = true
  /\ collectionRecords (out_store o) !! 0%nat
     = Some (mkRecord [] (Some wrapped_collection)).
Proof.
  repeat split; try reflexivity.
  by exists [("c1", 0%nat); ("c2", 1%nat)].
Qed.

(** A block and a collection stored under the name [__proto__] are
    sanitized like the others, but neither output map binds the name: the
    page and the wrapped collection have become the prototypes of the two
    maps. *)
Lemma proto_key_not_bound :
  let o := sanitizeRecordMap parsePageId_model sample_store proto_map in
  block (out_map o) = Some [("p", 1%nat)]
  /\ collection (out_map o) = Some []
  /\ blockRecords (out_store o) !! 0%nat
     = Some (mkRecord [("role", JStr "reader")]
                      (Some [("role", JStr "reader"); ("id", JStr "x");
                             ("type", JStr "page")]))
  /\ block (out_map (LibNotion.sanitizeRecordMap sample_store proto_map))
     = Some [("p", 1%nat)].
Proof. repeat split; reflexivity. Qed.

Lemma mutation_confined_witness :
  out_store (sanitizeRecordMap parsePageId_model sample_store no_block_map)
  = sample_store
  /\ blockRecords (out_store (sanitizeRecordMap parsePageId_model sample_store
                                                sample_map)) !! 2%nat
     = blockRecords sample_store !! 2%nat
  /\ blockRecords (out_store (sanitizeRecordMap parsePageId_model sample_store
                                                sample_map)) !! 1%nat
     = Some (mkRecord [] (Some (sanitizeBlockValue "p" container)))
  /\ collectionRecords (out_store (sanitizeRecordMap parsePageId_model
                                                     sample_store sample_map))
     !! 0%nat = Some (mkRecord [] (Some (flatten wrapped_collection))).
Proof.
  split.
  { apply (mutation_confined parsePageId_model sample_store no_block_map).
    reflexivity. }
  destruct (mutation_confined parsePageId_model sample_store sample_map)
    as [_ H].
  destruct (H _ eq_refl) as (_ & _ & H3 & _ & _ & _ & H7 & H8).
  split; [|split].
  - apply H3. reflexivity.
  - apply (H7 [(dashed, 0%nat)] "p" 1%nat [("q", 2%nat)]
              (mkRecord [] (Some container)) container);
      [reflexivity | by_computation | by_computation | reflexivity
      | reflexivity].
  - apply (H8 [] "c1" 0%nat [("c2", 1%nat)]
              (mkRecord [] (Some wrapped_collection)) wrapped_collection);
      [reflexivity | by_computation | by_computation | reflexivity
      | reflexivity].
Defined.

(** The container record of the input is not what it was before the call:
    it has been given an identifier and a type. *)
Lemma input_record_mutated :
  let o := sanitizeRecordMap parsePageId_model sample_store sample_map in
  blockRecords sample_store !! 1%nat = Some (mkRecord [] (Some container))
  /\ blockRecords (out_store o) !! 1%nat
     = Some (mkRecord []
               (Some [("content", JArr [JStr undashed; JStr "zzz";
                                        JStr "zzz"; JNum 5]);
                      ("id", JStr "p"); ("type", JStr "column_list")]))
  /\ out_store o ≠ sample_store.
Proof.
  repeat split; try reflexivity.
  intros H. apply (f_equal (fun s => blockRecords s !! 1%nat)) in H.
  vm_compute in H. discriminate.
Qed.

Lemma reference_resolution_total_witness :
  let blocks := [(dashed, 0%nat); ("p", 1%nat); ("q", 2%nat)] in
  let keys := allBlockKeysSet blocks.*1 in
  let nm := normalizedBlockKeys parsePageId_model blocks.*1 in
  let refs :=
    resolveReferences parsePageId_model (blockRecords sample_store) blocks in
  (exists k,
      classifyChild parsePageId_model keys nm (JStr undashed)
      = Some (Resolved k)
      /\ k ∈ blocks.*1
      /\ k ∈ referencedBlockIds refs
      /\ undashed ∉ missingBlockIds refs)
  \/ (classifyChild parsePageId_model keys nm (JStr undashed) = Some Missing
      /\ undashed ∈ missingBlockIds refs
      /\ undashed ∉ referencedBlockIds refs).
Proof.
  apply (reference_resolution_total parsePageId_model
           (blockRecords sample_store)
           [(dashed, 0%nat); ("p", 1%nat); ("q", 2%nat)] "p" 1%nat
           (JStr undashed)).
  - by_computation.
  - by_membership.
Defined.

(** A number in a content array is neither resolved nor missing, and no
    diagnostic mentions it. *)
Lemma number_child_unclassified :
  let blocks := [("p", 0%nat)] in
  let heap := blockRecords numeric_child_store in
  let refs := resolveReferences parsePageId_model heap blocks in
  JNum 5 ∈ contentChildren (heap !! 0%nat)
  /\ classifyChild parsePageId_model (allBlockKeysSet blocks.*1)
                   (normalizedBlockKeys parsePageId_model blocks.*1) (JNum 5)
     = None
  /\ referencedBlockIds refs = ∅
  /\ missingBlockIds refs = ∅
  /\ out_console (sanitizeRecordMap parsePageId_model numeric_child_store
                                    single_block_map) = [].
Proof.
  repeat split; try reflexivity. by_membership.
Qed.


Lemma missing_reference_aggregation_witness :
  let blocks := [(dashed, 0%nat); ("p", 1%nat); ("q", 2%nat)] in
  exists M : gset string,
    (forall c,
        c ∈ M <->
        exists key l,
          (key, l) ∈ blocks
          /\ JStr c ∈ contentChildren (blockRecords sample_store !! l)
          /\ classifyChild parsePageId_model (allBlockKeysSet blocks.*1)
                           (normalizedBlockKeys parsePageId_model blocks.*1)
                           (JStr c) = Some Missing)
    /\ out_console (sanitizeRecordMap parsePageId_model sample_store sample_map)
       = if decide (size M = 0%nat) then [] else [MissingBlocks (size M)].
Proof.
  apply (missing_reference_aggregation parsePageId_model sample_store
                                       sample_map).
  reflexivity.
Defined.

(** Two child references fail to resolve, both naming the same unknown
    identifier; the one diagnostic reports a count of one. *)
Lemma repeated_reference_counted_once :
  let blocks := [("p", 0%nat)] in
  let heap := blockRecords repeated_child_store in
  contentChildren (heap !! 0%nat) = [JStr "zzz"; JStr "zzz"]
  /\ classifyChild parsePageId_model (allBlockKeysSet blocks.*1)
                   (normalizedBlockKeys parsePageId_model blocks.*1)
                   (JStr "zzz") = Some Missing
  /\ out_console (sanitizeRecordMap parsePageId_model repeated_child_store
                                    single_block_map) = [MissingBlocks 1]
  /\ out_console (sanitizeRecordMap parsePageId_model repeated_child_store
                                    single_block_map) ≠ [MissingBlocks 2].
Proof.
  repeat split; try reflexivity. intros H. vm_compute in H. discriminate.
Qed.

Lemma flattening_correct_witness :
  (exists v',
      blockRecords (out_store (sanitizeRecordMap parsePageId_model sample_store
                                                 sample_map)) !! 0%nat
      = Some (mkRecord [("role", JStr "reader")] (Some v'))
      /\ v' = flatten wrapped_page)
  /\ flatten container = container
  /\ prop_get "id" (flatten wrapped_page) = Some (JStr "x")
  /\ prop_get "role" (flatten wrapped_page) = Some (JStr "reader")
  /\ prop_get "value" (flatten wrapped_page) = None.
Proof.
  destruct (flattening_correct parsePageId_model) as (H1 & H2 & H3 & _).
  split; [|split; [|split; [|split]]].
  - destruct (H1 sample_store sample_map [] dashed 0%nat
                 [("p", 1%nat); ("q", 2%nat)]
                 (mkRecord [("role", JStr "reader")] (Some wrapped_page))
                 wrapped_page eq_refl ltac:(by_computation)
                 ltac:(by_computation) eq_refl eq_refl)
      as (v' & Hv' & _ & Heq).
    exists v'. split; [exact Hv' | exact (Heq eq_refl eq_refl)].
  - apply H2. reflexivity.
  - apply (H3 wrapped_page "id"); [reflexivity | by_computation
                                  | by_computation].
  - apply (H3 wrapped_page "role"); [reflexivity | by_computation
                                    | by_computation].
  - apply (H3 wrapped_page "value"); [reflexivity | by_computation
                                     | by_computation].
Defined.



(** * Further properties of the code *)

(** ** The earlier routine *)

Section EarlierRoutine.
Local Open Scope list_scope.
Implicit Types (acc : LibNotion.blockPass) (e : string * loc)
         (es pre post : list (string * loc)) (heap : gmap loc record)
         (l : loc) (r : record) (key : string) (value : obj).

Lemma earlier_backfillId_settled key value :
  truthy (get_field "id" value) = true ->
  LibNotion.backfillId key value = value.
Proof. intros H. unfold LibNotion.backfillId. by rewrite H. Qed.

Lemma earlier_backfillId_other key value f :
  f ≠ "id" ->
  get_field f (LibNotion.backfillId key value) = get_field f value.
Proof.
  intros Hf. unfold LibNotion.backfillId.
  destruct (_ && _); [|done]. rewrite get_field_set.
  by destruct (String.eqb_spec "id" f).
Qed.

Lemma earlier_backfillId_id key value :
  truthy (get_field "id" (LibNotion.backfillId key value))
  = truthy (get_field "id" value) || negb (String.eqb key "").
Proof.
  unfold LibNotion.backfillId.
  destruct (truthy (get_field "id" value)) eqn:Hid; simpl; [done|].
  destruct (String.eqb_spec key "") as [->|Hk]; simpl; [done|].
  rewrite get_field_set. simpl. by destruct (String.eqb_spec key "").
Qed.

Lemma earlier_backfillId_cases key value :
  LibNotion.backfillId key value = value
  \/ (truthy (get_field "id" value) = false /\ key ≠ ""
      /\ LibNotion.backfillId key value = prop_set "id" (JStr key) value).
Proof.
  unfold LibNotion.backfillId.
  destruct (truthy (get_field "id" value)); simpl; [by left|].
  destruct (String.eqb_spec key ""); simpl; [by left | by right].
Qed.

Lemma keyedRecord_value key r :
  rec_value (keyedRecord key r) = LibNotion.backfillId key <$> rec_value r.
Proof. unfold keyedRecord. by destruct r as [meta [value|]]. Qed.

Lemma keyedRecord_meta key r : rec_meta (keyedRecord key r) = rec_meta r.
Proof. unfold keyedRecord. by destruct r as [meta [value|]]. Qed.

Lemma keyedRecord_settled key r :
  (forall value, rec_value r = Some value ->
                 truthy (get_field "id" value) = true) ->
  keyedRecord key r = r.
Proof.
  intros Hid. unfold keyedRecord. destruct r as [meta [value|]]; simpl; [|done].
  rewrite earlier_backfillId_settled; [done|]. by apply Hid.
Qed.

Lemma keyedRecord_empty r : keyedRecord "" r = r.
Proof.
  unfold keyedRecord, LibNotion.backfillId.
  destruct r as [meta [value|]]; simpl; [|done]. by rewrite andb_false_r.
Qed.

Lemma earlier_entry_heap acc e :
  LibNotion.bp_heap (LibNotion.sanitizeBlockEntry acc e)
  = alter (keyedRecord e.1) e.2 (LibNotion.bp_heap acc).
Proof.
  unfold LibNotion.sanitizeBlockEntry.
  destruct (LibNotion.bp_heap acc !! e.2) as [r|] eqn:Hl.
  - destruct (rec_value r) as [value|] eqn:Hv; simpl.
    + apply map_eq. intros l. rewrite lookup_alter, lookup_insert.
      destruct (decide (e.2 = l)) as [<-|]; [|done].
      rewrite Hl. simpl. unfold keyedRecord. by rewrite Hv.
    + apply map_eq. intros l. rewrite lookup_alter.
      destruct (decide (e.2 = l)) as [<-|]; [|done].
      rewrite Hl. simpl. unfold keyedRecord. by rewrite Hv.
  - apply map_eq. intros l. rewrite lookup_alter.
    destruct (decide (e.2 = l)) as [<-|]; [|done]. by rewrite Hl.
Qed.

Lemma earlier_entry_out acc e :
  LibNotion.sanitizedBlocks (LibNotion.sanitizeBlockEntry acc e)
  = if hasId (alter (keyedRecord e.1) e.2 (LibNotion.bp_heap acc)) e.2
    then prop_assign e.1 e.2 (LibNotion.sanitizedBlocks acc)
    else LibNotion.sanitizedBlocks acc.
Proof.
  unfold LibNotion.sanitizeBlockEntry, hasId. rewrite lookup_alter_eq.
  destruct (LibNotion.bp_heap acc !! e.2) as [r|]; simpl; [|done].
  rewrite keyedRecord_value. by destruct (rec_value r).
Qed.

Lemma earlier_pass_heap es acc :
  LibNotion.bp_heap (fold_left LibNotion.sanitizeBlockEntry es acc)
  = visitAll keyedRecord es (LibNotion.bp_heap acc).
Proof.
  unfold visitAll. revert acc.
  induction es as [|e es IH]; intros acc; simpl; [done|].
  by rewrite IH, earlier_entry_heap.
Qed.

Lemma hasId_hasValue heap l : hasId heap l = true -> hasValue heap l = true.
Proof. unfold hasId, hasValue. by destruct (heap !! l ≫= rec_value). Qed.

Lemma hasValue_keyed heap key l l' :
  hasValue (alter (keyedRecord key) l heap) l' = hasValue heap l'.
Proof.
  unfold hasValue. rewrite lookup_alter.
  destruct (decide (l = l')) as [<-|]; [|done].
  destruct (heap !! l) as [r|]; simpl; [|done].
  rewrite keyedRecord_value. by destruct (rec_value r).
Qed.

Lemma hasId_keyed heap key l l' :
  hasId heap l' = true -> hasId (alter (keyedRecord key) l heap) l' = true.
Proof.
  unfold hasId. rewrite lookup_alter.
  destruct (decide (l = l')) as [<-|]; [|done].
  destruct (heap !! l) as [r|]; simpl; [|done].
  rewrite keyedRecord_value. destruct (rec_value r) as [value|]; simpl; [|done].
  intros Hid. by rewrite earlier_backfillId_settled.
Qed.

Lemma hasId_keyed_nonempty heap key l :
  key ≠ "" -> hasValue heap l = true ->
  hasId (alter (keyedRecord key) l heap) l = true.
Proof.
  intros Hk. unfold hasId, hasValue. rewrite lookup_alter_eq.
  destruct (heap !! l) as [r|]; simpl; [|done].
  rewrite keyedRecord_value. destruct (rec_value r) as [value|]; simpl; [|done].
  intros _. rewrite earlier_backfillId_id.
  destruct (String.eqb_spec key ""); [done|]. by rewrite orb_true_r.
Qed.

(** Every binding made so far leads to a block with an identifier. *)
Lemma earlier_pass_ids es :
  forall acc,
    (forall c l, prop_get c (LibNotion.sanitizedBlocks acc) = Some l ->
                 hasId (LibNotion.bp_heap acc) l = true) ->
    forall c l,
      prop_get c (LibNotion.sanitizedBlocks
                    (fold_left LibNotion.sanitizeBlockEntry es acc)) = Some l ->
      hasId (LibNotion.bp_heap (fold_left LibNotion.sanitizeBlockEntry es acc))
            l = true.
Proof.
  induction es as [|e es IH]; intros acc Hacc; simpl; [done|].
  apply IH. intros c l. rewrite earlier_entry_out, earlier_entry_heap.
  destruct (hasId (alter (keyedRecord e.1) e.2 (LibNotion.bp_heap acc)) e.2)
    eqn:Hid.
  - rewrite prop_get_assign. destruct (_ && _).
    + by intros [= <-].
    + intros Hc. apply hasId_keyed. by apply (Hacc c).
  - intros Hc. apply hasId_keyed. by apply (Hacc c).
Qed.

Lemma earlier_pass_hasValue es acc l :
  hasValue (LibNotion.bp_heap (fold_left LibNotion.sanitizeBlockEntry es acc)) l
  = hasValue (LibNotion.bp_heap acc) l.
Proof.
  revert acc. induction es as [|e es IH]; intros acc; simpl; [done|].
  by rewrite IH, earlier_entry_heap, hasValue_keyed.
Qed.

Lemma earlier_pass_lookup_other es c :
  forall acc,
    c ∉ es.*1 ->
    prop_get c (LibNotion.sanitizedBlocks
                  (fold_left LibNotion.sanitizeBlockEntry es acc))
    = prop_get c (LibNotion.sanitizedBlocks acc).
Proof.
  induction es as [|e es IH]; intros acc Hc; simpl; [done|].
  rewrite fmap_cons in Hc. apply not_elem_of_cons in Hc as [Hne Hc].
  rewrite IH by done. rewrite earlier_entry_out.
  destruct (hasId _ _); [|done]. rewrite prop_get_assign.
  by destruct (String.eqb_spec e.1 c).
Qed.

Lemma earlier_pass_lookup_proto es :
  forall acc,
    prop_get "__proto__" (LibNotion.sanitizedBlocks
                            (fold_left LibNotion.sanitizeBlockEntry es acc))
    = prop_get "__proto__" (LibNotion.sanitizedBlocks acc).
Proof.
  induction es as [|e es IH]; intros acc; simpl; [done|].
  rewrite IH, earlier_entry_out.
  destruct (hasId _ _); [|done]. apply prop_get_assign_proto.
Qed.

Lemma earlier_pass_lookup_inv es :
  forall acc c l,
    prop_get c (LibNotion.sanitizedBlocks
                  (fold_left LibNotion.sanitizeBlockEntry es acc)) = Some l ->
    prop_get c (LibNotion.sanitizedBlocks acc) = Some l
    \/ ((c, l) ∈ es /\ hasValue (LibNotion.bp_heap acc) l = true
        /\ c ≠ "__proto__").
Proof.
  induction es as [|e es IH]; intros acc c l; simpl; [by left|].
  intros [Hc|(Hin & Hv & Hp)]%IH.
  - rewrite earlier_entry_out in Hc.
    destruct (hasId (alter (keyedRecord e.1) e.2 (LibNotion.bp_heap acc)) e.2)
      eqn:Hid; [|by left].
    rewrite prop_get_assign in Hc.
    destruct (String.eqb_spec e.1 c) as [<-|_]; [|by left].
    destruct (String.eqb_spec e.1 "__proto__") as [|Hp]; [by left|].
    injection Hc as <-. right. split; [destruct e; left|].
    split; [|done].
    apply hasId_hasValue in Hid. by rewrite hasValue_keyed in Hid.
  - right. split; [by right|]. split; [|done].
    by rewrite earlier_entry_heap, hasValue_keyed in Hv.
Qed.

(** The binding of a key after the loop: the one made for the last entry
    stored under it, if that entry is kept. *)
Lemma earlier_pass_lookup pre key l post acc :
  key ∉ post.*1 -> key ≠ "__proto__" ->
  let acc1 := fold_left LibNotion.sanitizeBlockEntry pre acc in
  prop_get key (LibNotion.sanitizedBlocks
                  (fold_left LibNotion.sanitizeBlockEntry
                             (pre ++ (key, l) :: post) acc))
  = if hasId (alter (keyedRecord key) l (LibNotion.bp_heap acc1)) l
    then Some l
    else prop_get key (LibNotion.sanitizedBlocks acc1).
Proof.
  intros Hpost Hp acc1. rewrite fold_left_app. cbn [fold_left].
  rewrite earlier_pass_lookup_other by done. rewrite earlier_entry_out.
  fold acc1. cbn [fst snd]. destruct (hasId _ _); [|done].
  rewrite prop_assign_other by done. apply prop_get_set_eq.
Qed.

Lemma earlier_entry_out_cases acc e :
  LibNotion.sanitizedBlocks (LibNotion.sanitizeBlockEntry acc e)
  = LibNotion.sanitizedBlocks acc
  \/ LibNotion.sanitizedBlocks (LibNotion.sanitizeBlockEntry acc e)
     = prop_assign e.1 e.2 (LibNotion.sanitizedBlocks acc).
Proof.
  rewrite earlier_entry_out. destruct (hasId _ _); [by right | by left].
Qed.

Lemma earlier_pass_NoDup es :
  forall acc,
    NoDup (LibNotion.sanitizedBlocks acc).*1 ->
    NoDup (LibNotion.sanitizedBlocks
             (fold_left LibNotion.sanitizeBlockEntry es acc)).*1.
Proof.
  induction es as [|e es IH]; intros acc Hnd; simpl; [done|].
  apply IH. destruct (earlier_entry_out_cases acc e) as [-> | ->]; [done|].
  by apply NoDup_prop_assign.
Qed.

Lemma earlier_pass_jsOrdered es :
  forall acc,
    jsOrdered 0 (LibNotion.sanitizedBlocks acc).*1 ->
    jsOrdered 0 (LibNotion.sanitizedBlocks
                   (fold_left LibNotion.sanitizeBlockEntry es acc)).*1.
Proof.
  induction es as [|e es IH]; intros acc Hord; simpl; [done|].
  apply IH. destruct (earlier_entry_out_cases acc e) as [-> | ->]; [done|].
  apply jsOrdered_prop_assign; [done|]. intros; lia.
Qed.

(** Over blocks that all have an identifier the loop changes no record and
    keeps every entry. *)
Lemma earlier_pass_settled es :
  forall heap (p : list (string * loc)),
    Forall (fun e => hasId heap e.2 = true) es ->
    fold_left LibNotion.sanitizeBlockEntry es (LibNotion.mkBlockPass heap p)
    = LibNotion.mkBlockPass
        heap (fold_left (fun out e => prop_assign e.1 e.2 out) es p).
Proof.
  induction es as [|e es IH]; intros heap p Hes; simpl; [done|].
  apply Forall_cons in Hes as [He Hes].
  assert (LibNotion.sanitizeBlockEntry (LibNotion.mkBlockPass heap p) e
          = LibNotion.mkBlockPass heap (prop_assign e.1 e.2 p)) as ->;
    [|by apply IH].
  unfold LibNotion.sanitizeBlockEntry, hasId in *. simpl.
  destruct (heap !! e.2) as [[meta [value|]]|] eqn:Hl; simpl in *; try done.
  rewrite earlier_backfillId_settled by done. rewrite He.
  by rewrite insert_id.
Qed.

Lemma earlier_result st rm blocks :
  block rm = Some blocks ->
  LibNotion.sanitizeRecordMap st rm
  = let bp := fold_left LibNotion.sanitizeBlockEntry blocks
                        (LibNotion.mkBlockPass (blockRecords st) []) in
    mkOutcome (mkStore (LibNotion.bp_heap bp) (collectionRecords st))
              (mkRecordMap (Some (LibNotion.sanitizedBlocks bp))
                           (collection rm) (passthrough rm))
              [].
Proof. intros Hb. unfold LibNotion.sanitizeRecordMap. by rewrite Hb. Qed.

Lemma earlier_output_ids st rm blocks c l :
  block rm = Some blocks ->
  prop_get c (default [] (block (out_map (LibNotion.sanitizeRecordMap st rm))))
  = Some l ->
  hasId (blockRecords (out_store (LibNotion.sanitizeRecordMap st rm))) l = true.
Proof.
  intros Hb Hc. rewrite (earlier_result _ _ _ Hb) in *. simpl in *.
  by apply earlier_pass_ids in Hc.
Qed.

(** X5.  Every binding of the block map the earlier routine returns leads
    to a record that holds a block with a non-empty identifier. *)
Theorem earlier_ids_valid st rm blocks blocks' c l :
  block rm = Some blocks ->
  let o := LibNotion.sanitizeRecordMap st rm in
  block (out_map o) = Some blocks' ->
  prop_get c blocks' = Some l ->
  exists r value,
    blockRecords (out_store o) !! l = Some r
    /\ rec_value r = Some value
    /\ truthy (get_field "id" value) = true.
Proof.
  intros Hb o Hout Hc. subst o.
  pose proof (earlier_output_ids st rm blocks c l Hb) as Hid.
  rewrite Hout in Hid. specialize (Hid Hc). unfold hasId in Hid.
  destruct (blockRecords _ !! l) as [r|]; simpl in Hid; [|done].
  destruct (rec_value r) as [value|] eqn:Hv; [|done].
  by exists r, value.
Qed.

Lemma earlier_pass_hasId es acc l :
  hasId (LibNotion.bp_heap acc) l = true ->
  hasId (LibNotion.bp_heap (fold_left LibNotion.sanitizeBlockEntry es acc)) l
  = true.
Proof.
  revert acc. induction es as [|e es IH]; intros acc Hid; simpl; [done|].
  apply IH. rewrite earlier_entry_heap. by apply hasId_keyed.
Qed.

(** X6.  The earlier routine keeps every block that has a value and a
    non-empty key other than [__proto__], bound under that key to the same
    record object; under the empty key it keeps a block that has an
    identifier of its own.  It leaves out the records without a value, and
    the block that has neither a key nor an identifier, and it binds nothing
    under [__proto__].  It binds nothing else: no second key, no other
    record. *)
Theorem earlier_keeps_keyed_blocks st rm blocks :
  block rm = Some blocks ->
  NoDup blocks.*1 ->
  let o := LibNotion.sanitizeRecordMap st rm in
  exists blocks',
    block (out_map o) = Some blocks'
    /\ (forall key l,
          (key, l) ∈ blocks -> key ≠ "" -> key ≠ "__proto__" ->
          hasValue (blockRecords st) l = true ->
          prop_get key blocks' = Some l)
    /\ (forall key l,
          (key, l) ∈ blocks ->
          hasValue (blockRecords st) l = false ->
          prop_get key blocks' = None)
    /\ prop_get "__proto__" blocks' = None
    /\ (forall l,
          ("", l) ∈ blocks ->
          hasId (blockRecords st) l = true ->
          prop_get "" blocks' = Some l)
    /\ (forall l,
          ("", l) ∈ blocks ->
          hasId (blockRecords st) l = false ->
          (forall key, (key, l) ∈ blocks -> key = "") ->
          prop_get "" blocks' = None)
    /\ (forall c l,
          prop_get c blocks' = Some l ->
          (c, l) ∈ blocks /\ hasValue (blockRecords st) l = true).
Proof.
  intros Hb Hnd o. subst o. rewrite (earlier_result _ _ _ Hb). simpl.
  eexists. split; [done|].
  set (acc0 := LibNotion.mkBlockPass (blockRecords st) []).
  assert (forall key l,
             (key, l) ∈ blocks -> key ≠ "__proto__" ->
             exists pre post,
               blocks = pre ++ (key, l) :: post
               /\ (key ∉ pre.*1)
               /\ prop_get key
                    (LibNotion.sanitizedBlocks
                       (fold_left LibNotion.sanitizeBlockEntry blocks acc0))
                  = if hasId (alter (keyedRecord key) l
                                (visitAll keyedRecord pre (blockRecords st))) l
                    then Some l else None) as Hsplit.
  { intros key l Hin Hp.
    apply list_elem_of_split in Hin as (pre & post & ->).
    rewrite fmap_app, fmap_cons in Hnd.
    apply NoDup_app in Hnd as (_ & Hdisj & Hnd).
    apply NoDup_cons in Hnd as [Hpost _].
    assert (key ∉ pre.*1) as Hpre.
    { intros Hin. apply (Hdisj _ Hin). left. }
    exists pre, post. split; [done|]. split; [done|].
    rewrite earlier_pass_lookup by done.
    rewrite earlier_pass_heap, earlier_pass_lookup_other by done. done. }
  assert (forall pre l,
             hasValue (visitAll keyedRecord pre (blockRecords st)) l
             = hasValue (blockRecords st) l) as Hval.
  { intros pre l.
    pose proof (earlier_pass_hasValue pre acc0 l) as H.
    by rewrite earlier_pass_heap in H. }
  split; [|split; [|split; [|split; [|split]]]].
  - intros key l Hin Hk Hp Hv.
    destruct (Hsplit key l Hin Hp) as (pre & post & _ & _ & ->).
    rewrite hasId_keyed_nonempty; [done..|]. by rewrite Hval.
  - intros key l Hin Hv.
    destruct (decide (key = "__proto__")) as [->|Hp];
      [by rewrite earlier_pass_lookup_proto|].
    destruct (Hsplit key l Hin Hp) as (pre & post & _ & _ & ->).
    destruct (hasId _ l) eqn:Hid; [|done].
    apply hasId_hasValue in Hid. rewrite hasValue_keyed, Hval in Hid.
    congruence.
  - by rewrite earlier_pass_lookup_proto.
  - intros l Hin Hid.
    destruct (Hsplit "" l Hin) as (pre & post & _ & _ & ->); [done|].
    rewrite hasId_keyed; [done|].
    pose proof (earlier_pass_hasId pre acc0 l Hid) as H.
    by rewrite earlier_pass_heap in H.
  - intros l Hin Hid Honly.
    destruct (Hsplit "" l Hin) as (pre & post & Heq & Hpre & ->); [done|].
    assert (l ∉ pre.*2) as Hl.
    { intros ([key l'] & -> & Hin')%list_elem_of_fmap. simpl in *.
      assert (key = "") as ->.
      { apply Honly. rewrite Heq. apply elem_of_app. by left. }
      apply Hpre. apply list_elem_of_fmap. by exists ("", l'). }
    unfold hasId in *. rewrite lookup_alter_eq, visitAll_lookup.
    destruct (blockRecords st !! l) as [r|]; simpl in *; [|done].
    by rewrite visits_untouched, keyedRecord_empty, Hid.
  - intros c l Hc.
    by apply earlier_pass_lookup_inv in Hc as [Hc|(? & ? & _)].
Qed.

(** X7.  The earlier routine touches nothing but the identifier of a block:
    the collection map, the other fields of the record map and the
    collection records are passed on as they are, nothing is logged, and a
    block record keeps its fields and its value, in which at most [id] is
    set, to a non-empty key the record is stored under, when the block had no
    identifier.  No wrapper is flattened and no type is filled in. *)
Theorem earlier_touches_only_id st rm :
  let o := LibNotion.sanitizeRecordMap st rm in
  collection (out_map o) = collection rm
  /\ passthrough (out_map o) = passthrough rm
  /\ collectionRecords (out_store o) = collectionRecords st
  /\ out_console o = []
  /\ (forall l, blockRecords st !! l = None ->
                blockRecords (out_store o) !! l = None)
  /\ (forall l r,
        blockRecords st !! l = Some r ->
        exists r',
          blockRecords (out_store o) !! l = Some r'
          /\ rec_meta r' = rec_meta r
          /\ (rec_value r = None -> rec_value r' = None)
          /\ (forall value,
                rec_value r = Some value ->
                exists value',
                  rec_value r' = Some value'
                  /\ (forall f, f ≠ "id" ->
                                get_field f value' = get_field f value)
                  /\ (truthy (get_field "id" value) = true -> value' = value)
                  /\ (value' = value
                      \/ exists key,
                           (key, l) ∈ default [] (block rm) /\ key ≠ ""
                           /\ value' = prop_set "id" (JStr key) value))).
Proof.
  intros o. subst o.
  destruct (block rm) as [blocks|] eqn:Hb.
  2:{ unfold LibNotion.sanitizeRecordMap. rewrite Hb. simpl.
      repeat split; try done.
      intros l r Hl. exists r. repeat split; try done.
      intros value Hv. exists value. repeat split; try done. by left. }
  rewrite (earlier_result _ _ _ Hb). simpl.
  repeat split; try done.
  - intros l Hl. rewrite earlier_pass_heap, visitAll_lookup. simpl.
    by rewrite Hl.
  - intros l r Hl. rewrite earlier_pass_heap, visitAll_lookup. simpl.
    rewrite Hl. simpl.
    eexists. split; [done|].
    pose (P := fun r' : record =>
            rec_meta r' = rec_meta r
            /\ match rec_value r with
               | None => rec_value r' = None
               | Some value =>
                   exists value',
                     rec_value r' = Some value'
                     /\ (value' = value
                         \/ (truthy (get_field "id" value) = false
                             /\ exists key,
                                  (key, l) ∈ blocks /\ key ≠ ""
                                  /\ value' = prop_set "id" (JStr key) value))
               end).
    assert (P (visits keyedRecord l blocks r)) as [Hmeta Hvalue].
    { apply (visits_invariant_on keyedRecord P).
      - apply Forall_forall. intros [key l'] Hin. simpl. intros -> r' [Hm Hv].
        split; [by rewrite keyedRecord_meta|].
        rewrite keyedRecord_value.
        destruct (rec_value r) as [value|]; [|by rewrite Hv].
        destruct Hv as (value' & -> & Hcase). simpl. eexists. split; [done|].
        destruct Hcase as [->|(Hid & key' & Hin' & Hk' & ->)].
        + destruct (earlier_backfillId_cases key value)
            as [->|(Hid & Hk & ->)]; [by left|].
          right. split; [done|]. by exists key.
        + right. split; [done|]. exists key'. split; [done|]. split; [done|].
          apply earlier_backfillId_settled. rewrite get_field_set. simpl.
          by destruct (String.eqb_spec key' "").
      - split; [done|]. destruct (rec_value r) as [value|]; [|done].
        exists value. split; [done|]. by left. }
    split; [done|]. split.
    + intros Hv. by rewrite Hv in Hvalue.
    + intros value Hv. rewrite Hv in Hvalue.
      destruct Hvalue as (value' & Hv' & Hcase). exists value'.
      split; [done|]. split; [|split].
      * intros f Hf. destruct Hcase as [->|(_ & key & _ & _ & ->)]; [done|].
        rewrite get_field_set. by destruct (String.eqb_spec "id" f).
      * intros Hid. destruct Hcase as [->|(Hno & _)]; [done|congruence].
      * destruct Hcase as [->|(_ & key & ? & ? & ->)]; [by left|].
        right. by exists key.
Qed.

(** X8.  The earlier routine is idempotent on every input: applied to its own
    result it returns the same record map and leaves every record as it
    is. *)
Theorem earlier_sanitize_twice st rm :
  let o1 := LibNotion.sanitizeRecordMap st rm in
  LibNotion.sanitizeRecordMap (out_store o1) (out_map o1) = o1.
Proof.
  intros o1. subst o1. destruct (block rm) as [blocks|] eqn:Hb.
  2:{ unfold LibNotion.sanitizeRecordMap. rewrite Hb. simpl. by rewrite Hb. }
  rewrite (earlier_result _ _ _ Hb). simpl.
  set (acc0 := LibNotion.mkBlockPass (blockRecords st) []).
  set (bp := fold_left LibNotion.sanitizeBlockEntry blocks acc0).
  unfold LibNotion.sanitizeRecordMap. simpl.
  assert (NoDup (LibNotion.sanitizedBlocks bp).*1) as Hnd
    by (apply earlier_pass_NoDup; constructor).
  rewrite earlier_pass_settled.
  - simpl. rewrite setAll_ordered; [done|done| |].
    + by apply earlier_pass_jsOrdered.
    + apply Forall_forall. intros [c l] Hin. simpl.
      apply (prop_get_NoDup _ _ _ Hnd) in Hin.
      by apply earlier_pass_lookup_inv in Hin as [Hin|(_ & _ & ?)].
  - apply Forall_forall. intros [c l] Hin. simpl.
    apply (earlier_pass_ids blocks acc0) with c; [done|].
    by apply prop_get_NoDup.
Qed.
End EarlierRoutine.

(** ** The two routines side by side *)

Section Agreement.
Local Open Scope list_scope.
Variable parsePageId : string -> option string.
Implicit Types (e : string * loc) (es : list (string * loc))
         (heap : gmap loc record) (l : loc) (r : record) (key : string)
         (value : obj).

Lemma sanitizeBlockValue_plain key value :
  key ≠ "" ->
  hasNestedValue value = false ->
  truthy (get_field "type" value) = true ->
  sanitizeBlockValue key value = LibNotion.backfillId key value.
Proof.
  intros Hk Hflat Hty. unfold sanitizeBlockValue.
  rewrite (flatten_settled _ Hflat).
  rewrite backfillType_settled by (by rewrite backfillId_other).
  rewrite finalId_settled by (by apply backfillId_id).
  unfold backfillId, LibNotion.backfillId. rewrite idUnset_truthy.
  destruct (String.eqb key "") eqn:Hkey; [by apply String.eqb_eq in Hkey|].
  simpl. rewrite Hkey. simpl. by rewrite andb_true_r.
Qed.

Lemma plainBlock_record heap l r value :
  plainBlock heap l = true -> heap !! l = Some r -> rec_value r = Some value ->
  hasNestedValue value = false /\ truthy (get_field "type" value) = true.
Proof.
  unfold plainBlock. intros Hp Hl Hv. rewrite Hl in Hp. simpl in Hp.
  rewrite Hv in Hp. apply andb_true_iff in Hp as [Hn Ht].
  split; [by apply negb_true_iff|done].
Qed.

Lemma sanitizedRecord_plain heap key l r :
  key ≠ "" -> plainBlock heap l = true -> heap !! l = Some r ->
  sanitizedRecord key r = keyedRecord key r.
Proof.
  intros Hk Hp Hl. unfold sanitizedRecord, keyedRecord.
  destruct (rec_value r) as [value|] eqn:Hv; [|done].
  destruct (plainBlock_record heap l r value Hp Hl Hv) as [Hn Ht].
  by rewrite sanitizeBlockValue_plain.
Qed.

Lemma plainBlock_keyed heap key l l' :
  plainBlock heap l' = true ->
  plainBlock (alter (keyedRecord key) l heap) l' = true.
Proof.
  unfold plainBlock. rewrite lookup_alter.
  destruct (decide (l = l')) as [<-|]; [|done].
  destruct (heap !! l) as [r|]; simpl; [|done].
  rewrite keyedRecord_value. destruct (rec_value r) as [value|]; simpl; [|done].
  unfold hasNestedValue. by rewrite !earlier_backfillId_other.
Qed.

Lemma entries_agree es :
  forall (acc : blockPass) (acc' : LibNotion.blockPass),
    bp_heap acc = LibNotion.bp_heap acc' ->
    sanitizedBlocks acc = LibNotion.sanitizedBlocks acc' ->
    Forall (fun e => e.1 ≠ "" /\ normalize parsePageId e.1 = e.1
                     /\ plainBlock (bp_heap acc) e.2 = true) es ->
    bp_heap (fold_left (sanitizeBlockEntry parsePageId) es acc)
    = LibNotion.bp_heap (fold_left LibNotion.sanitizeBlockEntry es acc')
    /\ sanitizedBlocks (fold_left (sanitizeBlockEntry parsePageId) es acc)
       = LibNotion.sanitizedBlocks
           (fold_left LibNotion.sanitizeBlockEntry es acc').
Proof.
  induction es as [|e es IH]; intros acc acc' Hheap Hout Hes; simpl; [done|].
  apply Forall_cons in Hes as [(Hk & Hn & Hp) Hes].
  assert (alter (sanitizedRecord e.1) e.2 (bp_heap acc)
          = alter (keyedRecord e.1) e.2 (bp_heap acc)) as Halter.
  { apply alter_ext. intros r Hl.
    by apply (sanitizedRecord_plain (bp_heap acc) e.1 e.2). }
  apply IH.
  - by rewrite sanitizeBlockEntry_heap, earlier_entry_heap, Halter, Hheap.
  - rewrite sanitizeBlockEntry_out, earlier_entry_out, <-Hheap, <-Hout.
    destruct (hasValue (bp_heap acc) e.2) eqn:Hv.
    + rewrite hasId_keyed_nonempty by done.
      by rewrite storeBlock_nonempty, Hn, String.eqb_refl.
    + destruct (hasId _ e.2) eqn:Hid; [|done].
      apply hasId_hasValue in Hid. rewrite hasValue_keyed in Hid. congruence.
  - rewrite sanitizeBlockEntry_heap, Halter.
    eapply Forall_impl; [exact Hes|]. intros e' (? & ? & ?).
    split; [done|]. split; [done|]. by apply plainBlock_keyed.
Qed.

(** X9.  On a record map whose block keys are non-empty and canonical and
    whose blocks are not wrapped and have a type, the routine and the
    earlier routine return the same block map and the same fields beside
    the two maps, and leave the block records in the same state: the one in
    which each entry, in order, has given its key as identifier to its block
    when that had none.  They differ in the rest.  The earlier routine
    passes the collection map and the collection records on as they are and
    logs nothing; the routine returns a collection map of its own, also
    when the input has none, holding the collection records that have a
    value, each flattened by every entry that refers to it, and logs the
    summary of the missing references. *)
Theorem routines_agree_on_plain_blocks st rm blocks :
  block rm = Some blocks ->
  Forall (fun e => e.1 ≠ "" /\ normalize parsePageId e.1 = e.1
                   /\ plainBlock (blockRecords st) e.2 = true) blocks ->
  let o := sanitizeRecordMap parsePageId st rm in
  let o' := LibNotion.sanitizeRecordMap st rm in
  let colls := default [] (collection rm) in
  block (out_map o) = block (out_map o')
  /\ blockRecords (out_store o) = blockRecords (out_store o')
  /\ blockRecords (out_store o')
     = visitAll keyedRecord blocks (blockRecords st)
  /\ passthrough (out_map o) = passthrough rm
  /\ passthrough (out_map o') = passthrough rm
  /\ collection (out_map o') = collection rm
  /\ collectionRecords (out_store o') = collectionRecords st
  /\ out_console o' = []
  /\ collection (out_map o)
     = Some (fold_left (fun out e => if hasValue (collectionRecords st) e.2
                                     then prop_assign e.1 e.2 out else out)
                       colls [])
  /\ collectionRecords (out_store o)
     = visitAll (fun _ => flattenedRecord) colls (collectionRecords st)
  /\ out_console o
     = missingSummary (resolveReferences parsePageId (blockRecords st)
                                         blocks).
Proof.
  intros Hb Hes o o' colls. subst o o' colls.
  rewrite (sanitize_collections _ _ _ _ Hb), (sanitize_console _ _ _ _ Hb).
  unfold sanitizeRecordMap, LibNotion.sanitizeRecordMap. rewrite Hb. simpl.
  destruct (entries_agree blocks
              (mkBlockPass (blockRecords st) []
                 (missingSummary (resolveReferences parsePageId
                                    (blockRecords st) blocks)))
              (LibNotion.mkBlockPass (blockRecords st) [])
              eq_refl eq_refl Hes) as [Hheap Hout].
  rewrite Hheap, Hout, earlier_pass_heap, collectionPass_heap.
  by repeat split.
Qed.
End Agreement.

(** ** The keys and the identifiers of the output block map *)

Section OutputKeys.
Local Open Scope list_scope.
Variable parsePageId : string -> option string.
Implicit Types (st : store) (rm : recordMap) (e : string * loc)
         (es blocks : list (string * loc)) (heap : gmap loc record) (l : loc)
         (key c : string).

Lemma prop_get_is_Some {V : Type} c (o : list (string * V)) :
  is_Some (prop_get c o) <-> c ∈ o.*1.
Proof.
  rewrite <-not_eq_None_Some, prop_get_None.
  split; [apply dec_stable | by intros ? ?].
Qed.

Lemma writesKey_spec key c :
  writesKey parsePageId key c = true
  <-> key ≠ "" /\ (c = key \/ c = normalize parsePageId key)
      /\ c ≠ "__proto__".
Proof.
  unfold writesKey.
  rewrite !andb_true_iff, !negb_true_iff, orb_true_iff.
  rewrite !String.eqb_eq, !String.eqb_neq. tauto.
Qed.

Lemma storeAll_bound heap es c :
  forall out : list (string * loc),
    is_Some (prop_get c
               (fold_left (fun out e => if hasValue heap e.2
                                        then storeBlock parsePageId e.1 e.2 out
                                        else out) es out))
    <-> is_Some (prop_get c out)
        \/ exists e, e ∈ es /\ hasValue heap e.2 = true
                     /\ writesKey parsePageId e.1 c = true.
Proof.
  induction es as [|e es IH]; intros out; simpl.
  { split; [by left|]. by intros [?|(? & ?%elem_of_nil & _)]. }
  rewrite IH. split.
  - intros [Hc|(e' & Hin & Hv & Hw)].
    + destruct (hasValue heap e.2) eqn:Hv; [|by left].
      rewrite storeBlock_lookup in Hc.
      destruct (writesKey parsePageId e.1 c) eqn:Hw; [|by left].
      right. exists e. split; [left|done].
    + right. exists e'. split; [by right|done].
  - intros [Hc|(e' & Hin & Hv & Hw)].
    + left. destruct (hasValue heap e.2); [|done].
      rewrite storeBlock_lookup. by destruct (writesKey parsePageId e.1 c).
    + apply elem_of_cons in Hin as [->|Hin].
      * left. by rewrite Hv, storeBlock_lookup, Hw.
      * right. by exists e'.
Qed.

(** X1.  The output block map has exactly these keys: the non-empty keys of
    the entries that hold a value, and their canonical forms, the name
    [__proto__] excepted.  Neither that name nor the empty key is ever a key
    of the output.  Each binding leads to the record of an entry that is
    stored under the bound key or has it as its canonical form. *)
Theorem output_keys_exact st rm blocks :
  block rm = Some blocks ->
  exists blocks',
    block (out_map (sanitizeRecordMap parsePageId st rm)) = Some blocks'
    /\ (forall c,
          c ∈ blocks'.*1
          <-> c ≠ "__proto__"
              /\ exists key l,
                   (key, l) ∈ blocks /\ key ≠ ""
                   /\ hasValue (blockRecords st) l = true
                   /\ (c = key \/ c = normalize parsePageId key))
    /\ ("__proto__" ∉ blocks'.*1)
    /\ ("" ∉ blocks'.*1)
    /\ (forall c l,
          prop_get c blocks' = Some l ->
          c ≠ "__proto__"
          /\ exists key,
               (key, l) ∈ blocks /\ key ≠ ""
               /\ hasValue (blockRecords st) l = true
               /\ (c = key \/ c = normalize parsePageId key)).
Proof.
  intros Hb. eexists. split; [by apply sanitize_blocks|].
  assert (forall c,
             c ∈ (fold_left (fun out e => if hasValue (blockRecords st) e.2
                                          then storeBlock parsePageId e.1 e.2
                                                          out
                                          else out) blocks []).*1
             <-> c ≠ "__proto__"
                 /\ exists key l,
                      (key, l) ∈ blocks /\ key ≠ ""
                      /\ hasValue (blockRecords st) l = true
                      /\ (c = key \/ c = normalize parsePageId key))
    as Hkeys.
  { intros c. rewrite <-prop_get_is_Some, storeAll_bound. simpl. split.
    + intros [[? [=]]|([key l] & Hin & Hv & Hw)].
      apply writesKey_spec in Hw as (Hk & Hc & Hp).
      split; [done|]. by exists key, l.
    + intros (Hp & key & l & Hin & Hk & Hv & Hc). right. exists (key, l).
      split; [done|]. split; [done|]. by apply writesKey_spec. }
  split; [done|]. split; [|split].
  - by intros [? _]%Hkeys.
  - intros (_ & key & l & _ & Hk & _ & [Hc|Hc])%Hkeys; [done|].
    by apply (normalize_nonempty parsePageId key).
  - intros c l Hc.
    apply storeAll_lookup_inv in Hc as [Hc|(key & Hin & Hv & Hw)]; [done|].
    apply writesKey_spec in Hw as (Hk & Hw & Hp).
    split; [done|]. by exists key.
Qed.

(** X2.  When no block key is empty, every binding of the output block map
    leads to a record that holds a block with a non-empty identifier. *)
Theorem output_ids_present st rm blocks blocks' c l :
  block rm = Some blocks ->
  "" ∉ blocks.*1 ->
  let o := sanitizeRecordMap parsePageId st rm in
  block (out_map o) = Some blocks' ->
  prop_get c blocks' = Some l ->
  exists r value,
    blockRecords (out_store o) !! l = Some r
    /\ rec_value r = Some value
    /\ truthy (get_field "id" value) = true.
Proof.
  intros Hb Hkeys o Hout Hc. subst o.
  rewrite (sanitize_blocks _ _ _ _ Hb) in Hout. injection Hout as <-.
  apply storeAll_lookup_inv in Hc as [Hc|(key & Hin & Hv & _)]; [done|].
  rewrite (sanitize_blockRecords _ _ _ _ _ Hb).
  unfold hasValue in Hv.
  destruct (blockRecords st !! l) as [r|] eqn:Hl; simpl in *; [|done].
  destruct (rec_value r) as [v|] eqn:Hr; [|done].
  destruct (last_visit blocks l) as (pre & key' & post & Heq & Hpost).
  { apply list_elem_of_fmap. by exists (key, l). }
  rewrite Heq, visits_last by done.
  assert (is_Some (rec_value (visits sanitizedRecord l pre r))) as [v' Hv'].
  { apply (visits_invariant _ (fun r => is_Some (rec_value r))).
    - intros key0 r0 [v0 Hv0]. rewrite sanitizedRecord_value, Hv0. by eexists.
    - by rewrite Hr. }
  eexists. exists (sanitizeBlockValue key' v').
  split; [done|]. split.
  - by rewrite sanitizedRecord_value, Hv'.
  - apply sanitizeBlockValue_id. intros ->. apply Hkeys.
    rewrite Heq, fmap_app, fmap_cons. apply elem_of_app. right. left.
Qed.
End OutputKeys.

(** ** Completeness of the reference resolver *)

Section Resolver.
Variable parsePageId : string -> option string.
Implicit Types (ks : list string) (blocks : list (string * loc))
         (heap : gmap loc record) (key c k : string).

Lemma normalizedBlockKeys_source ks x k :
  normalizedBlockKeys parsePageId ks !! x = Some k ->
  k ∈ ks /\ (normalize parsePageId k = x \/ k = x).
Proof.
  unfold normalizedBlockKeys.
  assert (forall (m : gmap string string),
             (forall x k, m !! x = Some k ->
                          normalize parsePageId k = x \/ k = x) ->
             forall x k,
               fold_left (fun m key => <[key:=key]>
                                         (<[normalize parsePageId key:=key]> m))
                         ks m !! x = Some k ->
               normalize parsePageId k = x \/ k = x) as Hgen.
  { induction ks as [|key ks IH]; intros m Hm y k'; simpl; [apply Hm|].
    apply IH. intros z k''. rewrite !lookup_insert.
    repeat case_decide; try (intros [= <-]; subst; by auto). apply Hm. }
  intros Hx. split; [by apply normalizedBlockKeys_values in Hx|].
  apply (Hgen ∅); [|done]. intros z k'. by rewrite lookup_empty.
Qed.

Lemma normalizedBlockKeys_canonical ks k :
  k ∈ ks ->
  is_Some (normalizedBlockKeys parsePageId ks !! normalize parsePageId k).
Proof.
  unfold normalizedBlockKeys.
  assert (forall (m : gmap string string),
             k ∈ ks \/ is_Some (m !! normalize parsePageId k) ->
             is_Some (fold_left
                        (fun m key => <[key:=key]>
                                        (<[normalize parsePageId key:=key]> m))
                        ks m !! normalize parsePageId k)) as Hgen.
  { induction ks as [|key ks IH]; intros m Hm; simpl.
    { by destruct Hm as [?%elem_of_nil|?]. }
    apply IH. destruct Hm as [[->|Hin]%elem_of_cons|Hm]; [|by left|].
    - right. rewrite !lookup_insert_is_Some.
      destruct (decide (key = normalize parsePageId key)); [by left|].
      right. split; [done|]. by left.
    - right. rewrite !lookup_insert_is_Some.
      destruct (decide (key = normalize parsePageId k)); [by left|].
      right. split; [done|].
      destruct (decide (normalize parsePageId key = normalize parsePageId k));
        [by left|by right]. }
  intros Hk. apply Hgen. by left.
Qed.

(** X3.  When no block key is empty, a child identifier that has the
    canonical form of some block key is resolved, never reported missing;
    the key it resolves to is a block key that is the identifier itself, or
    has its canonical form, or is its canonical form. *)
Theorem canonical_reference_resolves heap blocks key c :
  "" ∉ blocks.*1 ->
  key ∈ blocks.*1 ->
  normalize parsePageId c = normalize parsePageId key ->
  let keys := allBlockKeysSet blocks.*1 in
  let nm := normalizedBlockKeys parsePageId blocks.*1 in
  (exists k,
      classifyChild parsePageId keys nm (JStr c) = Some (Resolved k)
      /\ k ∈ blocks.*1
      /\ (k = c \/ normalize parsePageId k = normalize parsePageId c
          \/ k = normalize parsePageId c))
  /\ c ∉ missingBlockIds (resolveReferences parsePageId heap blocks).
Proof.
  intros Hne Hkey Hnorm keys nm.
  assert (exists k,
             classifyChild parsePageId keys nm (JStr c) = Some (Resolved k)
             /\ k ∈ blocks.*1
             /\ (k = c \/ normalize parsePageId k = normalize parsePageId c
                 \/ k = normalize parsePageId c)) as Hres.
  { subst keys nm. simpl. unfold resolveChild, allBlockKeysSet.
    destruct (decide (c ∈ list_to_set blocks.*1)) as [Hc|Hc].
    - apply elem_of_list_to_set in Hc. exists c.
      destruct (String.eqb_spec c "") as [->|_]; [done|]. auto.
    - destruct (normalizedBlockKeys_canonical blocks.*1 key Hkey) as [k Hk].
      rewrite Hnorm, Hk.
      apply normalizedBlockKeys_source in Hk as [Hin Hk].
      destruct (String.eqb_spec k "") as [->|_]; [done|]. simpl.
      exists k. destruct (String.eqb_spec k "") as [->|_]; [done|].
      split; [done|]. split; [done|]. by right. }
  split; [done|]. destruct Hres as (k & Hk & _).
  unfold resolveReferences. rewrite scan_missing.
  intros [Hm|(key' & l' & _ & _ & Hm)]; [done|].
  subst keys nm. congruence.
Qed.
End Resolver.

(** ** The dashed form of an identifier *)

(** X4.  The dashed form of a string of 32 characters has 36 characters:
    the 32 characters in their order, in groups of 8, 4, 4, 4 and 12 with a
    dash between two groups. *)
Theorem dashedId_grouping s :
  String.length s = 32%nat ->
  let d := dashedId s in
  String.length d = 36%nat
  /\ substring 8 1 d = "-" /\ substring 13 1 d = "-"
  /\ substring 18 1 d = "-" /\ substring 23 1 d = "-"
  /\ (substring 0 8 d ++ substring 9 4 d ++ substring 14 4 d
      ++ substring 19 4 d ++ substring 24 12 d)%string = s.
Proof.
  intros Hlen d. subst d.
  do 32 (destruct s as [|? s]; [discriminate|]).
  destruct s; [|discriminate]. repeat split.
Qed.

(** ** Fetching a page *)

Section FetchFacts.
Local Open Scope list_scope.
Variable parsePageId : string -> option string.
Variable cfg : config.
Variable svc : services.
Implicit Types (w : world) (rm page merged raw : recordMap)
         (maps : list recordMap) (ids : list jsval) (pageId : string).

Lemma notionGetPage_inv id options w rm w' :
  notionGetPage svc id options w = Some (rm, w') ->
  notion_getPage svc (mkRequest id options) w = Some (rm, w_store w')
  /\ w_requests w' = w_requests w ++ [mkRequest id options]
  /\ w_navigationLinkPages w' = w_navigationLinkPages w
  /\ w_console w' = w_console w.
Proof.
  unfold notionGetPage.
  destruct (notion_getPage svc _ w) as [[rm0 st]|]; [|done].
  by intros [= <- <-].
Qed.

Lemma previewImageMapOf_inv rm w v w' :
  previewImageMapOf svc rm w = Some (v, w') ->
  getPreviewImageMap svc rm w = Some (v, w_store w')
  /\ w_requests w' = w_requests w
  /\ w_navigationLinkPages w' = w_navigationLinkPages w
  /\ w_console w' = w_console w.
Proof.
  unfold previewImageMapOf.
  destruct (getPreviewImageMap svc rm w) as [[v0 st]|]; [|done].
  by intros [= <- <-].
Qed.

(** The calls a [pMap] over page identifiers makes. *)
Lemma pMap_requests options ids :
  forall w maps w',
    pMap (fun id => notionGetPage svc id options) ids w = Some (maps, w') ->
    w_requests w' = w_requests w ++ ((fun id => mkRequest id options) <$> ids)
    /\ length maps = length ids
    /\ w_navigationLinkPages w' = w_navigationLinkPages w
    /\ w_console w' = w_console w.
Proof.
  induction ids as [|id ids IH]; intros w maps w'; simpl.
  { intros [= <- <-]. by rewrite app_nil_r. }
  unfold await.
  destruct (notionGetPage svc id options w) as [[rm w1]|] eqn:H1; [|done].
  destruct (pMap _ ids w1) as [[maps' w2]|] eqn:H2; [|done].
  intros [= <- <-].
  apply notionGetPage_inv in H1 as (_ & Hr1 & Hn1 & Hc1).
  apply IH in H2 as (Hr2 & Hlen & Hn2 & Hc2).
  rewrite Hr2, Hr1, Hn2, Hn1, Hc2, Hc1, <-app_assoc. simpl.
  by rewrite Hlen.
Qed.

Lemma fetchNavigationLinkPages_inv w maps w' :
  fetchNavigationLinkPages cfg svc w = Some (maps, w') ->
  exists links,
    mapM pageIdOf (default [] (navigationLinks cfg)) = Some links
    /\ w_requests w'
       = w_requests w
         ++ (if String.eqb (navigationStyle cfg) "default" then []
             else ((fun id => mkRequest id (Some navigationOptions))
                   <$> filter (fun id => truthy id) links))
    /\ length maps
       = (if String.eqb (navigationStyle cfg) "default" then 0%nat
          else length (filter (fun id => truthy id) links))
    /\ w_navigationLinkPages w' = w_navigationLinkPages w
    /\ w_console w' = w_console w.
Proof.
  unfold fetchNavigationLinkPages, navigationLinkPageIds.
  destruct (mapM pageIdOf _) as [links|]; simpl; [|done].
  intros Hrun. exists links. split; [done|].
  destruct (String.eqb (navigationStyle cfg) "default"); simpl in Hrun.
  { injection Hrun as <- <-. by rewrite app_nil_r. }
  destruct (filter (fun id => truthy id) links) as [|id ids] eqn:Hids.
  { simpl in Hrun. injection Hrun as <- <-. by rewrite app_nil_r. }
  by apply pMap_requests in Hrun.
Qed.

(** What a [pMap] over page identifiers resolves to: the answers of the
    client, in the order of the identifiers. *)
Lemma pMap_answers options ids :
  forall w maps w',
    pMap (fun id => notionGetPage svc id options) ids w = Some (maps, w') ->
    Forall2 (fun id map => answerTo svc (mkRequest id options) map) ids maps.
Proof.
  induction ids as [|id ids IH]; intros w maps w'; simpl.
  { intros [= <- <-]. constructor. }
  unfold await.
  destruct (notionGetPage svc id options w) as [[rm w1]|] eqn:H1; [|done].
  destruct (pMap _ ids w1) as [[maps' w2]|] eqn:H2; [|done].
  intros [= <- <-].
  apply notionGetPage_inv in H1 as (H1 & _).
  constructor; [by exists w, (w_store w1) | by apply (IH w1 maps' w2)].
Qed.

Lemma fetchNavigationLinkPages_answers w maps w' :
  fetchNavigationLinkPages cfg svc w = Some (maps, w') ->
  navigationStyle cfg ≠ "default" ->
  exists links,
    mapM pageIdOf (default [] (navigationLinks cfg)) = Some links
    /\ Forall2 (fun id map =>
                  answerTo svc (mkRequest id (Some navigationOptions)) map)
               (filter (fun id => truthy id) links) maps.
Proof.
  unfold fetchNavigationLinkPages, navigationLinkPageIds.
  destruct (mapM pageIdOf _) as [links|]; simpl; [|done].
  intros Hrun Hd%String.eqb_neq. exists links. split; [done|].
  rewrite Hd in Hrun. simpl in Hrun.
  destruct (filter (fun id => truthy id) links) as [|id ids] eqn:Hids.
  { simpl in Hrun. injection Hrun as <- <-. constructor. }
  by apply pMap_answers in Hrun.
Qed.

(** What a call of [getNavigationLinkPages] that resolves keeps: what it
    resolves to, which is what was kept before or else the answers of the
    client. *)
Lemma getNavigationLinkPages_kept w maps w' :
  getNavigationLinkPages cfg svc w = Some (maps, w') ->
  navigationStyle cfg ≠ "default" ->
  w_navigationLinkPages w' = Some maps
  /\ match w_navigationLinkPages w with
     | Some kept => maps = kept
     | None =>
         exists links,
           mapM pageIdOf (default [] (navigationLinks cfg)) = Some links
           /\ Forall2 (fun id map =>
                         answerTo svc (mkRequest id (Some navigationOptions))
                                  map)
                      (filter (fun id => truthy id) links) maps
     end.
Proof.
  unfold getNavigationLinkPages. intros Hrun Hd.
  destruct (w_navigationLinkPages w) as [kept|] eqn:Hk.
  { injection Hrun as <- <-. by rewrite Hk. }
  destruct (fetchNavigationLinkPages cfg svc w) as [[maps0 w0]|] eqn:Hf;
    [|done].
  injection Hrun as <- <-. split; [done|].
  by apply fetchNavigationLinkPages_answers in Hf.
Qed.

(** X10.  The first call of [getNavigationLinkPages] that resolves asks the
    client for the pages of the navigation links that have a page
    identifier, in the order of the links and with the reduced options, and
    resolves to one record map per such link; with the default navigation
    style it asks for nothing and resolves to the empty list.  A call made
    when a result is kept resolves to that result and does nothing. *)
Theorem navigation_links_fetched_in_order w maps w' :
  getNavigationLinkPages cfg svc w = Some (maps, w') ->
  match w_navigationLinkPages w with
  | Some kept => maps = kept /\ w' = w
  | None =>
      exists links,
        mapM pageIdOf (default [] (navigationLinks cfg)) = Some links
        /\ w_requests w'
           = w_requests w
             ++ (if String.eqb (navigationStyle cfg) "default" then []
                 else ((fun id =>
                          mkRequest id
                            (Some (mkFetchOptions (Some 1%nat) (Some false)
                                                  (Some false) (Some false))))
                       <$> filter (fun id => truthy id) links))
        /\ length maps
           = (if String.eqb (navigationStyle cfg) "default" then 0%nat
              else length (filter (fun id => truthy id) links))
        /\ w_console w' = w_console w
  end.
Proof.
  unfold getNavigationLinkPages.
  destruct (w_navigationLinkPages w) as [kept|]; [by intros [= <- <-]|].
  destruct (fetchNavigationLinkPages cfg svc w) as [[maps0 w0]|] eqn:Hrun;
    [|done].
  intros [= <- <-]. simpl.
  apply fetchNavigationLinkPages_inv in Hrun
    as (links & Hlinks & Hreq & Hlen & _ & Hcon).
  by exists links.
Qed.

(** The steps of a call of [getPage] that resolves. *)
Lemma getPage_inv pageId w rm w' :
  getPage parsePageId cfg svc pageId w = Some (rm, w') ->
  exists page w1 maps w2 v w3,
    notionGetPage svc (JStr pageId) (Some pageOptions) w = Some (page, w1)
    /\ (if negb (String.eqb (navigationStyle cfg) "default")
           && String.eqb (rootNotionPageId cfg) pageId
        then getNavigationLinkPages cfg svc w1 = Some (maps, w2)
        else maps = [] /\ w2 = w1)
    /\ (if isPreviewImageSupportEnabled cfg
        then previewImageMapOf svc
               (fold_left (mergeRecordMaps svc) maps page) w2 = Some (v, w3)
        else w3 = w2)
    /\ sanitized parsePageId
         (if isPreviewImageSupportEnabled cfg
          then setPreviewImages v (fold_left (mergeRecordMaps svc) maps page)
          else fold_left (mergeRecordMaps svc) maps page) w3
       = Some (rm, w').
Proof.
  unfold getPage, await.
  destruct (notionGetPage svc (JStr pageId) (Some pageOptions) w)
    as [[page w1]|] eqn:H1; [|done].
  intros Hrun. exists page, w1.
  destruct (negb (String.eqb (navigationStyle cfg) "default")
            && String.eqb (rootNotionPageId cfg) pageId).
  - unfold await in Hrun.
    destruct (getNavigationLinkPages cfg svc w1) as [[maps w2]|] eqn:H2;
      [|done].
    assert ((if (0 <? length maps)%nat
             then resolve (fold_left (mergeRecordMaps svc) maps page)
             else resolve page) w2
            = Some (fold_left (mergeRecordMaps svc) maps page, w2)) as Hm.
    { by destruct maps. }
    rewrite Hm in Hrun. clear Hm.
    destruct (isPreviewImageSupportEnabled cfg).
    + unfold await in Hrun.
      destruct (previewImageMapOf svc _ w2) as [[v w3]|] eqn:H3; [|done].
      by exists maps, w2, v, w3.
    + by exists maps, w2, JUndefined, w2.
  - unfold resolve in Hrun at 1.
    destruct (isPreviewImageSupportEnabled cfg).
    + unfold await in Hrun.
      destruct (previewImageMapOf svc _ w1) as [[v w3]|] eqn:H3; [|done].
      by exists [], w1, v, w3.
    + by exists [], w1, JUndefined, w1.
Qed.

Lemma sanitized_inv raw w rm w' :
  sanitized parsePageId raw w = Some (rm, w') ->
  rm = out_map (sanitizeRecordMap parsePageId (w_store w) raw)
  /\ w_store w' = out_store (sanitizeRecordMap parsePageId (w_store w) raw)
  /\ w_requests w' = w_requests w
  /\ w_navigationLinkPages w' = w_navigationLinkPages w
  /\ w_console w'
     = w_console w
       ++ out_console (sanitizeRecordMap parsePageId (w_store w) raw).
Proof. unfold sanitized. by intros [= <- <-]. Qed.

(** What a call of [getPage] that resolves has asked the client and kept of
    the navigation pages. *)
Lemma getPage_trace pageId w rm w' :
  getPage parsePageId cfg svc pageId w = Some (rm, w') ->
  exists page w1 maps w2,
    notionGetPage svc (JStr pageId) (Some pageOptions) w = Some (page, w1)
    /\ (if negb (String.eqb (navigationStyle cfg) "default")
           && String.eqb (rootNotionPageId cfg) pageId
        then getNavigationLinkPages cfg svc w1 = Some (maps, w2)
        else maps = [] /\ w2 = w1)
    /\ w_requests w' = w_requests w2
    /\ w_navigationLinkPages w' = w_navigationLinkPages w2.
Proof.
  intros (page & w1 & maps & w2 & v & w3 & H1 & H2 & H3 & H4)%getPage_inv.
  exists page, w1, maps, w2. split; [done|]. split; [done|].
  apply sanitized_inv in H4 as (_ & _ & -> & -> & _).
  destruct (isPreviewImageSupportEnabled cfg); [|by subst].
  by apply previewImageMapOf_inv in H3 as (_ & -> & -> & _).
Qed.



(** X13.  With preview images enabled, the record map a call of [getPage]
    resolves to has, under [preview_images], the map that
    [getPreviewImageMap] computed from the record map of the page as it came
    from the client -- merged, for the root page of a site with a navigation
    style other than the default, with the record maps that
    [getNavigationLinkPages] resolved to after the page was fetched, in
    their order -- in the world these calls have left; the other fields
    beside the two maps are those of that record map: the sanitizer passes
    them on. *)
Theorem getPage_preview_images pageId w rm w' :
  isPreviewImageSupportEnabled cfg = true ->
  getPage parsePageId cfg svc pageId w = Some (rm, w') ->
  exists page w1 maps w2 previewImageMap w3,
    notionGetPage svc (JStr pageId) (Some pageOptions) w = Some (page, w1)
    /\ (if negb (String.eqb (navigationStyle cfg) "default")
           && String.eqb (rootNotionPageId cfg) pageId
        then getNavigationLinkPages cfg svc w1 = Some (maps, w2)
        else maps = [] /\ w2 = w1)
    /\ previewImageMapOf svc (fold_left (mergeRecordMaps svc) maps page) w2
       = Some (previewImageMap, w3)
    /\ get_field "preview_images" (passthrough rm) = previewImageMap
    /\ forall f, f ≠ "preview_images" ->
                 get_field f (passthrough rm)
                 = get_field f (passthrough
                                  (fold_left (mergeRecordMaps svc) maps page)).
Proof.
  intros Hon (page & w1 & maps & w2 & v & w3 & H1 & H2 & H3 & H4)%getPage_inv.
  rewrite Hon in H3, H4.
  apply sanitized_inv in H4 as (-> & _).
  exists page, w1, maps, w2, v, w3.
  split; [done|]. split; [done|]. split; [done|].
  assert (passthrough
            (out_map (sanitizeRecordMap parsePageId (w_store w3)
                        (setPreviewImages v
                           (fold_left (mergeRecordMaps svc) maps page))))
          = prop_set "preview_images" v
              (passthrough (fold_left (mergeRecordMaps svc) maps page)))
    as ->.
  { unfold sanitizeRecordMap. simpl. by destruct (block _). }
  split.
  - rewrite get_field_set. done.
  - intros f Hf. rewrite get_field_set.
    by destruct (String.eqb_spec "preview_images" f).
Qed.

(** X14.  Whatever the client, the preview extractor and the merge return,
    every binding of the block map of the record map a call of [getPage]
    resolves to leads to a record that holds a block with a non-empty type,
    and the call has logged at most one warning, of missing blocks. *)
Theorem getPage_blocks_typed pageId w rm w' :
  getPage parsePageId cfg svc pageId w = Some (rm, w') ->
  (forall blocks c l,
      block rm = Some blocks ->
      prop_get c blocks = Some l ->
      exists r value,
        blockRecords (w_store w') !! l = Some r
        /\ rec_value r = Some value
        /\ truthy (get_field "type" value) = true)
  /\ (w_console w' = w_console w
      \/ exists count, w_console w' = w_console w ++ [MissingBlocks count]).
Proof.
  intros (page & w1 & maps & w2 & v & w3 & H1 & H2 & H3 & H4)%getPage_inv.
  apply sanitized_inv in H4 as (-> & -> & _ & _ & ->).
  assert (w_console w3 = w_console w) as ->.
  { apply notionGetPage_inv in H1 as (_ & _ & _ & <-).
    assert (w_console w2 = w_console w1) as <-.
    { destruct (_ && _); [|by destruct H2 as [_ ->]].
      unfold getNavigationLinkPages in H2.
      destruct (w_navigationLinkPages w1); [by injection H2 as <- <-|].
      destruct (fetchNavigationLinkPages cfg svc w1) as [[maps0 w0]|] eqn:Hrun;
        [|done].
      injection H2 as <- <-. simpl.
      by apply fetchNavigationLinkPages_inv in Hrun
        as (_ & _ & _ & _ & _ & ->). }
    destruct (isPreviewImageSupportEnabled cfg); [|by subst].
    by apply previewImageMapOf_inv in H3 as (_ & _ & _ & ->). }
  set (raw := if isPreviewImageSupportEnabled cfg then _ else _).
  split.
  - intros blocks c l Hb Hc.
    destruct (block raw) as [blocks0|] eqn:Hraw.
    + eapply output_block_typed; [exact Hb| |exact Hc]. by rewrite Hraw.
    + rewrite (sanitize_no_block _ _ _ Hraw) in Hb. simpl in Hb. congruence.
  - destruct (block raw) as [blocks0|] eqn:Hraw.
    + rewrite (sanitize_console _ _ _ _ Hraw). unfold missingSummary.
      destruct (0 <? _)%nat; [right; by eexists | left; by rewrite app_nil_r].
    + rewrite (sanitize_no_block _ _ _ Hraw). simpl. left.
      by rewrite app_nil_r.
Qed.


(** The steps of a call of the earlier [getPage] that resolves. *)
Lemma earlier_getPage_inv pageId w rm w' :
  LibNotion.getPage cfg svc pageId w = Some (rm, w') ->
  exists page w1 raw w3,
    notionGetPage svc (JStr pageId) None w = Some (page, w1)
    /\ w_console w3 = w_console w1
    /\ LibNotion.sanitized raw w3 = Some (rm, w').
Proof.
  unfold LibNotion.getPage, await.
  destruct (notionGetPage svc (JStr pageId) None w) as [[page w1]|] eqn:H1;
    [|done].
  intros Hrun. exists page, w1.
  assert (forall maps w2,
             (if negb (String.eqb (navigationStyle cfg) "default")
                 && String.eqb (rootNotionPageId cfg) pageId
              then getNavigationLinkPages cfg svc w1 = Some (maps, w2)
              else maps = [] /\ w2 = w1) ->
             w_console w2 = w_console w1) as Hnav.
  { intros maps w2 H2. destruct (_ && _); [|by destruct H2 as [_ ->]].
    unfold getNavigationLinkPages in H2.
    destruct (w_navigationLinkPages w1); [by injection H2 as <- <-|].
    destruct (fetchNavigationLinkPages cfg svc w1) as [[maps0 w0]|] eqn:Hf;
      [|done].
    injection H2 as <- <-. simpl.
    by apply fetchNavigationLinkPages_inv in Hf as (_ & _ & _ & _ & _ & ->). }
  destruct (negb (String.eqb (navigationStyle cfg) "default")
            && String.eqb (rootNotionPageId cfg) pageId).
  - unfold await in Hrun.
    destruct (getNavigationLinkPages cfg svc w1) as [[maps w2]|] eqn:H2;
      [|done].
    assert ((if (0 <? length maps)%nat
             then resolve (fold_left (mergeRecordMaps svc) maps page)
             else resolve page) w2
            = Some (fold_left (mergeRecordMaps svc) maps page, w2)) as Hm.
    { by destruct maps. }
    rewrite Hm in Hrun. clear Hm.
    specialize (Hnav maps w2 eq_refl).
    destruct (isPreviewImageSupportEnabled cfg).
    + unfold await in Hrun.
      destruct (previewImageMapOf svc _ w2) as [[v w3]|] eqn:H3; [|done].
      apply previewImageMapOf_inv in H3 as (_ & _ & _ & Hc).
      eexists _, w3. split; [done|]. split; [congruence|exact Hrun].
    + eexists _, w2. split; [done|]. split; [done|exact Hrun].
  - unfold resolve in Hrun at 1.
    destruct (isPreviewImageSupportEnabled cfg).
    + unfold await in Hrun.
      destruct (previewImageMapOf svc _ w1) as [[v w3]|] eqn:H3; [|done].
      apply previewImageMapOf_inv in H3 as (_ & _ & _ & Hc).
      eexists _, w3. split; [done|]. split; [done|exact Hrun].
    + eexists _, w1. split; [done|]. split; [done|exact Hrun].
Qed.

(** X20.  The earlier [getPage] asks the client for the page first, without
    options, logs nothing, and every binding of the block map of the record
    map it resolves to leads to a record that holds a block with a non-empty
    identifier. *)
Theorem earlier_getPage_ids_valid pageId w rm w' :
  LibNotion.getPage cfg svc pageId w = Some (rm, w') ->
  (exists navigation,
      w_requests w'
      = w_requests w ++ mkRequest (JStr pageId) None :: navigation)
  /\ w_console w' = w_console w
  /\ (forall blocks c l,
        block rm = Some blocks ->
        prop_get c blocks = Some l ->
        exists r value,
          blockRecords (w_store w') !! l = Some r
          /\ rec_value r = Some value
          /\ truthy (get_field "id" value) = true).
Proof.
  intros Hrun. split; [|split].
  - unfold LibNotion.getPage, await in Hrun.
    destruct (notionGetPage svc (JStr pageId) None w) as [[page w1]|] eqn:H1;
      [|done].
    apply notionGetPage_inv in H1 as (_ & Hr1 & Hn1 & _).
    assert (exists tl, w_requests w' = w_requests w1 ++ tl) as [tl Htl].
    { revert Hrun.
      destruct (negb (String.eqb (navigationStyle cfg) "default")
                && String.eqb (rootNotionPageId cfg) pageId).
      - unfold await.
        destruct (getNavigationLinkPages cfg svc w1) as [[maps w2]|] eqn:H2;
          [|done].
        assert (exists tl, w_requests w2 = w_requests w1 ++ tl) as [tl Htl].
        { unfold getNavigationLinkPages in H2.
          destruct (w_navigationLinkPages w1).
          - injection H2 as <- <-. exists []. by rewrite app_nil_r.
          - destruct (fetchNavigationLinkPages cfg svc w1) as [[maps0 w0]|]
              eqn:Hf; [|done].
            injection H2 as <- <-. simpl.
            apply fetchNavigationLinkPages_inv in Hf
              as (links & _ & -> & _).
            by eexists. }
        assert ((if (0 <? length maps)%nat
                 then resolve (fold_left (mergeRecordMaps svc) maps page)
                 else resolve page) w2
                = Some (fold_left (mergeRecordMaps svc) maps page, w2)) as ->.
        { by destruct maps. }
        destruct (isPreviewImageSupportEnabled cfg).
        + unfold await.
          destruct (previewImageMapOf svc _ w2) as [[v w3]|] eqn:H3; [|done].
          apply previewImageMapOf_inv in H3 as (_ & Hr3 & _).
          unfold LibNotion.sanitized. intros [= <- <-]. simpl.
          rewrite Hr3, Htl. by eexists.
        + unfold LibNotion.sanitized, resolve. intros [= <- <-]. simpl.
          rewrite Htl. by eexists.
      - unfold resolve at 1.
        destruct (isPreviewImageSupportEnabled cfg).
        + unfold await.
          destruct (previewImageMapOf svc _ w1) as [[v w3]|] eqn:H3; [|done].
          apply previewImageMapOf_inv in H3 as (_ & Hr3 & _).
          unfold LibNotion.sanitized. intros [= <- <-]. simpl.
          rewrite Hr3. exists []. by rewrite app_nil_r.
        + unfold LibNotion.sanitized, resolve. intros [= <- <-]. simpl.
          exists []. by rewrite app_nil_r. }
    exists tl. by rewrite Htl, Hr1, <-app_assoc.
  - apply earlier_getPage_inv in Hrun
      as (page & w1 & raw & w3 & H1 & Hc & H4).
    apply notionGetPage_inv in H1 as (_ & _ & _ & Hc1).
    unfold LibNotion.sanitized in H4. injection H4 as <- <-. simpl.
    assert (out_console (LibNotion.sanitizeRecordMap (w_store w3) raw) = [])
      as ->.
    { unfold LibNotion.sanitizeRecordMap. by destruct (block raw). }
    rewrite app_nil_r. congruence.
  - intros blocks c l Hb Hc.
    apply earlier_getPage_inv in Hrun
      as (page & w1 & raw & w3 & _ & _ & H4).
    unfold LibNotion.sanitized in H4. injection H4 as <- <-. simpl in *.
    destruct (block raw) as [blocks0|] eqn:Hraw.
    + pose proof (earlier_output_ids (w_store w3) raw blocks0 c l Hraw) as Hid.
      rewrite Hb in Hid. specialize (Hid Hc). unfold hasId in Hid.
      destruct (blockRecords _ !! l) as [r|]; simpl in Hid; [|done].
      destruct (rec_value r) as [value|] eqn:Hv; [|done].
      by exists r, value.
    + unfold LibNotion.sanitizeRecordMap in Hb. rewrite Hraw in Hb.
      simpl in Hb. congruence.
Qed.
End FetchFacts.

(** ** The dark-mode hook *)

Section DarkModeFacts.
Variable JSON_parse : string -> option jsval.
Variable JSON_stringify : jsval -> string.
Implicit Types (b : browser) (h : hookState) (s : storage) (cl : gset string).

Lemma mount_client b : isClient (mount JSON_parse JSON_stringify b).1 = true.
Proof. done. Qed.

Lemma toggle_client (hb : hookState * browser) :
  isClient (toggleDarkMode JSON_stringify hb).1 = isClient hb.1.
Proof. done. Qed.

Lemma toggles_client (hb : hookState * browser) n :
  isClient (Nat.iter n (toggleDarkMode JSON_stringify) hb).1 = isClient hb.1.
Proof. induction n as [|n IH]; [done|]. simpl. by rewrite IH. Qed.

(** The class list the second effect leaves. *)
Lemma syncEffect_classes h b cl :
  isClient h = true ->
  classList b = Some cl ->
  exists cl',
    classList (syncEffect JSON_stringify h b) = Some cl'
    /\ (CLASS_NAME_DARK ∈ cl' <-> truthy (isDarkMode h) = true)
    /\ ("light-mode" ∈ cl' <-> truthy (isDarkMode h) = false)
    /\ (forall c, c ≠ CLASS_NAME_DARK -> c ≠ "light-mode" ->
                  c ∈ cl' <-> c ∈ cl).
Proof.
  intros Hc Hcl. unfold syncEffect. rewrite Hc, Hcl. simpl.
  eexists. split; [done|].
  assert (CLASS_NAME_DARK ≠ "light-mode") as Hne by done.
  destruct (truthy (isDarkMode h));
    (split; [|split]); try intros c Hcd Hcl0;
    rewrite ?elem_of_difference, ?elem_of_union, ?elem_of_difference,
      ?elem_of_singleton;
    intuition congruence.
Qed.

(** X15.  Once the component is mounted, and after any number of toggles,
    the body has the class [dark-mode] exactly when the mode is on and the
    class [light-mode] exactly when it is off; its other classes are the
    ones it had. *)
Theorem body_class_follows_mode b n cl :
  classList b = Some cl ->
  let hb := Nat.iter n (toggleDarkMode JSON_stringify)
                     (mount JSON_parse JSON_stringify b) in
  exists cl',
    classList hb.2 = Some cl'
    /\ (CLASS_NAME_DARK ∈ cl' <-> truthy (isDarkMode hb.1) = true)
    /\ ("light-mode" ∈ cl' <-> truthy (isDarkMode hb.1) = false)
    /\ (forall c, c ≠ CLASS_NAME_DARK -> c ≠ "light-mode" ->
                  c ∈ cl' <-> c ∈ cl).
Proof.
  intros Hcl hb. subst hb. induction n as [|n IH].
  - cbn [Nat.iter]. unfold mount. cbn [fst snd].
    by apply syncEffect_classes.
  - destruct IH as (cl1 & Hcl1 & _ & _ & Hrest).
    cbn [Nat.iter].
    pose proof (toggles_client (mount JSON_parse JSON_stringify b) n) as Hc.
    set (hb := Nat.iter n _ _) in *.
    unfold toggleDarkMode. cbn [fst snd].
    destruct (syncEffect_classes
                (mkHookState (JBool (negb (truthy (isDarkMode hb.1))))
                             (isClient hb.1)) hb.2 cl1)
      as (cl' & Hcl' & Hd & Hl & Hr); [done|done|].
    exists cl'. split; [done|]. split; [done|]. split; [done|].
    intros c Hcd Hcl0. by rewrite (Hr c Hcd Hcl0), (Hrest c Hcd Hcl0).
Qed.

(** X16.  A mode that has been toggled survives a reload: with a storage
    that works, and [JSON.parse] reading back the booleans that
    [JSON.stringify] writes, mounting the component again in the browser a
    toggle has left gives the mode the toggle has set. *)
Theorem toggled_mode_survives_reload h b s :
  (forall p, JSON_parse (JSON_stringify (JBool p)) = Some (JBool p)) ->
  isClient h = true ->
  localStorage b = Some s ->
  getItemThrows s = false ->
  setItemThrows s = false ->
  let hb := toggleDarkMode JSON_stringify (h, b) in
  isDarkMode (mount JSON_parse JSON_stringify hb.2).1 = isDarkMode hb.1.
Proof.
  intros Hjson Hc Hs Hget Hset hb. subst hb.
  unfold toggleDarkMode, mount, storedPreference, syncEffect. simpl.
  rewrite Hc, Hs. simpl. rewrite Hset. simpl. rewrite Hget.
  by rewrite lookup_insert_eq, Hjson.
Qed.

(** X17.  With a storage that works, a stored preference that parses is the
    mode after mounting, whatever the system prefers.  When nothing is
    stored the mode is the system preference, and mounting stores it: from
    then on a change of the system preference is not followed. *)
Theorem stored_preference_wins b s :
  localStorage b = Some s ->
  getItemThrows s = false ->
  setItemThrows s = false ->
  let hb := mount JSON_parse JSON_stringify b in
  (forall stored v,
      items s !! STORAGE_KEY = Some stored ->
      JSON_parse stored = Some v ->
      isDarkMode hb.1 = v)
  /\ (forall p,
        items s !! STORAGE_KEY = None ->
        prefersDark b = Some p ->
        isDarkMode hb.1 = JBool p
        /\ (exists s',
               localStorage hb.2 = Some s'
               /\ items s' !! STORAGE_KEY = Some (JSON_stringify (JBool p)))
        /\ (JSON_parse (JSON_stringify (JBool p)) = Some (JBool p) ->
            forall p',
              isDarkMode
                (mount JSON_parse JSON_stringify
                       (mkBrowser (localStorage hb.2) p' (classList hb.2))).1
              = JBool p)).
Proof.
  intros Hs Hget Hset hb. subst hb.
  unfold mount, storedPreference, syncEffect. simpl. rewrite Hs, Hget. simpl.
  split.
  - intros stored v -> ->. done.
  - intros p -> ->. simpl. split; [done|]. rewrite Hset. split.
    + eexists. split; [done|]. simpl. by rewrite lookup_insert_eq.
    + intros Hjson p'. simpl. rewrite Hget. simpl.
      by rewrite lookup_insert_eq, Hjson.
Qed.

(** X18.  A preference that cannot be read gives the light mode: when there
    is no storage, when reading it throws, when what is stored does not
    parse, and when nothing is stored and the system preference cannot be
    asked.  When writing throws, mounting leaves the storage as it is. *)
Theorem unreadable_preference_defaults b :
  let hb := mount JSON_parse JSON_stringify b in
  (localStorage b = None
   \/ (exists s,
          localStorage b = Some s
          /\ (getItemThrows s = true
              \/ (exists stored, getItemThrows s = false
                                 /\ items s !! STORAGE_KEY = Some stored
                                 /\ JSON_parse stored = None)
              \/ (getItemThrows s = false
                  /\ items s !! STORAGE_KEY = None
                  /\ prefersDark b = None))) ->
   isDarkMode hb.1 = JBool false
   /\ forall cl, classList b = Some cl ->
                 classList hb.2
                 = Some ((cl ∖ {[CLASS_NAME_DARK]}) ∪ {["light-mode"]}))
  /\ (forall s, localStorage b = Some s -> setItemThrows s = true ->
                localStorage hb.2 = Some s).
Proof.
  intros hb. subst hb. split.
  - intros Hcase.
    assert (isDarkMode (mount JSON_parse JSON_stringify b).1 = JBool false)
      as Hmode.
    { unfold mount, storedPreference. simpl.
      destruct Hcase
        as [->|(s & -> & [->|[(st & -> & -> & ->)|(-> & -> & ->)]])];
        done. }
    split; [done|]. intros cl Hcl.
    unfold mount in *. simpl in *. unfold syncEffect at 1. simpl.
    rewrite Hcl. simpl. by rewrite Hmode.
  - intros s Hs Hset. unfold mount, syncEffect. simpl.
    rewrite Hs. simpl. by rewrite Hset.
Qed.
(** Running the second effect again, with another state, undoes nothing
    but what the first run did. *)
Lemma syncEffect_absorb h h' b :
  isClient h = true -> isClient h' = true ->
  syncEffect JSON_stringify h (syncEffect JSON_stringify h' b)
  = syncEffect JSON_stringify h b.
Proof.
  intros Hc Hc'. unfold syncEffect. rewrite Hc, Hc'. simpl.
  assert (CLASS_NAME_DARK ≠ "light-mode") as Hne by done.
  f_equal.
  - destruct (localStorage b) as [s|]; simpl; [|done]. f_equal.
    destruct (setItemThrows s) eqn:Hset; simpl; rewrite ?Hset; [done|].
    simpl. by rewrite insert_insert_eq.
  - destruct (classList b) as [cl|]; simpl; [|done]. f_equal.
    apply set_eq. intros x.
    destruct (decide (x = CLASS_NAME_DARK)), (decide (x = "light-mode"));
      destruct (truthy (isDarkMode h)), (truthy (isDarkMode h'));
      repeat (rewrite elem_of_difference || rewrite elem_of_union
              || rewrite elem_of_singleton);
      intuition congruence.
Qed.

(** X21.  After the first toggle, toggling twice changes nothing: the mode,
    the stored preference and the classes of the body are what they were. *)
Theorem toggle_twice_restores b n :
  let hb := Nat.iter (S n) (toggleDarkMode JSON_stringify)
                     (mount JSON_parse JSON_stringify b) in
  toggleDarkMode JSON_stringify (toggleDarkMode JSON_stringify hb) = hb.
Proof.
  intros hb. subst hb.
  pose proof (toggles_client (mount JSON_parse JSON_stringify b) n) as Hc.
  rewrite mount_client in Hc.
  change (Nat.iter (S n) (toggleDarkMode JSON_stringify)
                   (mount JSON_parse JSON_stringify b))
    with (toggleDarkMode JSON_stringify
            (Nat.iter n (toggleDarkMode JSON_stringify)
                      (mount JSON_parse JSON_stringify b))).
  destruct (Nat.iter n _ _) as [h b0]. simpl in Hc.
  unfold toggleDarkMode. cbn [fst snd isDarkMode isClient truthy].
  by rewrite negb_involutive, !syncEffect_absorb.
Qed.
End DarkModeFacts.

(** ** Instances *)

Section Instances.
Local Open Scope list_scope.

Lemma output_keys_exact_witness :
  exists blocks',
    block (out_map (sanitizeRecordMap parsePageId_model sample_store
                                      proto_map)) = Some blocks'
    /\ "p" ∈ blocks'.*1
    /\ "__proto__" ∉ blocks'.*1.
Proof.
  destruct (output_keys_exact parsePageId_model sample_store proto_map _
              eq_refl) as (blocks' & Hb & Hkeys & Hproto & _).
  exists blocks'. split; [exact Hb|]. split; [|exact Hproto].
  apply Hkeys. split; [by_computation|].
  exists "p", 1%nat. split; [by_membership|]. split; [by_computation|].
  split; [reflexivity|]. left. reflexivity.
Defined.

Lemma output_ids_present_witness :
  exists r value,
    blockRecords (out_store (sanitizeRecordMap parsePageId_model sample_store
                                               sample_map)) !! 1%nat = Some r
    /\ rec_value r = Some value
    /\ truthy (get_field "id" value) = true.
Proof.
  apply (output_ids_present parsePageId_model sample_store sample_map
           [(dashed, 0%nat); ("p", 1%nat); ("q", 2%nat)]
           [(dashed, 0%nat); (undashed, 0%nat); ("p", 1%nat)] "p" 1%nat).
  - reflexivity.
  - by_computation.
  - reflexivity.
  - reflexivity.
Defined.

Lemma canonical_reference_resolves_witness :
  let blocks := [(dashed, 0%nat); ("p", 1%nat); ("q", 2%nat)] in
  (exists k,
      classifyChild parsePageId_model (allBlockKeysSet blocks.*1)
                    (normalizedBlockKeys parsePageId_model blocks.*1)
                    (JStr undashed) = Some (Resolved k)
      /\ k ∈ blocks.*1
      /\ (k = undashed
          \/ normalize parsePageId_model k
             = normalize parsePageId_model undashed
          \/ k = normalize parsePageId_model undashed))
  /\ undashed ∉ missingBlockIds
                  (resolveReferences parsePageId_model
                     (blockRecords sample_store) blocks).
Proof.
  apply (canonical_reference_resolves parsePageId_model
           (blockRecords sample_store)
           [(dashed, 0%nat); ("p", 1%nat); ("q", 2%nat)] dashed undashed).
  - by_computation.
  - by_membership.
  - reflexivity.
Defined.

Lemma dashedId_grouping_witness :
  String.length (dashedId undashed) = 36%nat
  /\ substring 8 1 (dashedId undashed) = "-"
  /\ substring 13 1 (dashedId undashed) = "-"
  /\ substring 18 1 (dashedId undashed) = "-"
  /\ substring 23 1 (dashedId undashed) = "-"
  /\ (substring 0 8 (dashedId undashed) ++ substring 9 4 (dashedId undashed)
      ++ substring 14 4 (dashedId undashed)
      ++ substring 19 4 (dashedId undashed)
      ++ substring 24 12 (dashedId undashed))%string = undashed.
Proof. apply (dashedId_grouping undashed). reflexivity. Defined.

Lemma earlier_ids_valid_witness :
  exists r value,
    blockRecords (out_store (LibNotion.sanitizeRecordMap sample_store
                                                         sample_map))
    !! 0%nat = Some r
    /\ rec_value r = Some value
    /\ truthy (get_field "id" value) = true.
Proof.
  apply (earlier_ids_valid sample_store sample_map
           [(dashed, 0%nat); ("p", 1%nat); ("q", 2%nat)]
           [(dashed, 0%nat); ("p", 1%nat)] dashed 0%nat);
    reflexivity.
Defined.

Lemma earlier_keeps_keyed_blocks_witness :
  exists blocks',
    block (out_map (LibNotion.sanitizeRecordMap sample_store keyless_map))
    = Some blocks'
    /\ prop_get "p" blocks' = Some 0%nat
    /\ prop_get "" blocks' = None
    /\ prop_get "__proto__" blocks' = None.
Proof.
  destruct (earlier_keeps_keyed_blocks sample_store keyless_map
              [("", 1%nat); ("p", 0%nat)] eq_refl ltac:(by_computation))
    as (blocks' & Hb & Hkeep & _ & Hproto & _ & Hdrop & _).
  exists blocks'. split; [exact Hb|]. split; [|split].
  - apply (Hkeep "p" 0%nat);
      [by_membership | by_computation | by_computation | reflexivity].
  - apply (Hdrop 1%nat); [by_membership | reflexivity |].
    intros key Hin. apply elem_of_cons in Hin as [Hin|Hin].
    + by injection Hin as ->.
    + apply elem_of_cons in Hin as [Hin|Hin]; [by injection Hin|].
      by apply elem_of_nil in Hin.
  - exact Hproto.
Defined.

Lemma earlier_touches_only_id_witness :
  exists r',
    blockRecords (out_store (LibNotion.sanitizeRecordMap sample_store
                                                         sample_map))
    !! 0%nat = Some r'
    /\ rec_meta r' = [("role", JStr "reader")]
    /\ exists value',
         rec_value r' = Some value'
         /\ get_field "value" value' = get_field "value" wrapped_page
         /\ get_field "type" value' = JUndefined.
Proof.
  destruct (earlier_touches_only_id sample_store sample_map)
    as (_ & _ & _ & _ & _ & H).
  destruct (H 0%nat (mkRecord [("role", JStr "reader")] (Some wrapped_page))
              eq_refl) as (r' & Hl & Hmeta & _ & Hvalue).
  destruct (Hvalue wrapped_page eq_refl) as (value' & Hv & Hother & _).
  exists r'. split; [exact Hl|]. split; [exact Hmeta|].
  exists value'. split; [exact Hv|]. split.
  - apply Hother. by_computation.
  - rewrite Hother by by_computation. reflexivity.
Defined.

Lemma routines_agree_on_plain_blocks_witness :
  let o := sanitizeRecordMap parsePageId_model plain_store plain_map in
  let o' := LibNotion.sanitizeRecordMap plain_store plain_map in
  block (out_map o) = block (out_map o')
  /\ blockRecords (out_store o) = blockRecords (out_store o')
  /\ blockRecords (out_store o') !! 0%nat
     = Some (mkRecord [("role", JStr "reader")]
                      (Some [("type", JStr "page"); ("id", JStr "p")]))
  /\ passthrough (out_map o) = passthrough (out_map o')
  /\ collection (out_map o') = None
  /\ collection (out_map o) = Some [].
Proof.
  intros o o'.
  destruct (routines_agree_on_plain_blocks parsePageId_model plain_store
              plain_map [("p", 0%nat); ("q", 1%nat)] eq_refl
              ltac:(repeat constructor; by_computation))
    as (Hb & Hr & Hr' & Hp & Hp' & Hc' & _ & _ & Hc & _).
  split; [exact Hb|]. split; [exact Hr|]. split; [|split; [|split]].
  - unfold o'. rewrite Hr'. reflexivity.
  - unfold o, o'. rewrite Hp, Hp'. reflexivity.
  - exact Hc'.
  - exact Hc.
Defined.

Lemma navigation_links_fetched_in_order_witness :
  exists maps w',
    getNavigationLinkPages custom_config sample_services empty_world
    = Some (maps, w')
    /\ w_requests w' = [mkRequest (JStr "about") (Some navigationOptions)]
    /\ length maps = 1%nat.
Proof.
  eexists. eexists. split; [reflexivity|].
  pose proof (navigation_links_fetched_in_order custom_config sample_services
                empty_world _ _ eq_refl) as H.
  cbn [w_navigationLinkPages empty_world] in H.
  destruct H as (links & Hlinks & Hreq & Hlen & _).
  vm_compute in Hlinks. injection Hlinks as <-.
  split; [exact Hreq | exact Hlen].
Defined.



(** The first call for the root page keeps the page of the navigation link;
    the second asks for the root page alone and merges what is kept. *)
Lemma root_page_twice :
  exists rm w1 rm' w2,
    getPage parsePageId_model custom_config linked_services "root" empty_world
    = Some (rm, w1)
    /\ getPage parsePageId_model custom_config linked_services "root" w1
       = Some (rm', w2)
    /\ w_navigationLinkPages w1 = Some [about_map]
    /\ w_navigationLinkPages w2 = Some [about_map]
    /\ w_requests w2
       = [mkRequest (JStr "root") (Some pageOptions);
          mkRequest (JStr "about") (Some navigationOptions);
          mkRequest (JStr "root") (Some pageOptions)]
    /\ get_field "preview_images" (passthrough rm') = JNum 4.
Proof.
  eexists. eexists. eexists. eexists.
  split; [vm_compute; reflexivity|]. split; [vm_compute; reflexivity|].
  repeat split; vm_compute; reflexivity.
Qed.

Lemma getPage_preview_images_witness :
  exists rm w',
    getPage parsePageId_model custom_config linked_services "root" empty_world
    = Some (rm, w')
    /\ exists page w1 maps w2 previewImageMap w3,
         notionGetPage linked_services (JStr "root") (Some pageOptions)
                       empty_world = Some (page, w1)
         /\ getNavigationLinkPages custom_config linked_services w1
            = Some (maps, w2)
         /\ previewImageMapOf linked_services
              (fold_left (mergeRecordMaps linked_services) maps page) w2
            = Some (previewImageMap, w3)
         /\ get_field "preview_images" (passthrough rm) = previewImageMap
         /\ forall f, f ≠ "preview_images" ->
                      get_field f (passthrough rm)
                      = get_field f
                          (passthrough
                             (fold_left (mergeRecordMaps linked_services)
                                        maps page)).
Proof.
  eexists. eexists. split; [reflexivity|].
  apply (getPage_preview_images parsePageId_model custom_config linked_services
           "root" empty_world _ _ eq_refl eq_refl).
Defined.

(** On the root page the extractor is given the page merged with the page
    of the navigation link: four blocks, where the page alone has three. *)
Lemma root_page_preview_images :
  exists rm w',
    getPage parsePageId_model custom_config linked_services "root" empty_world
    = Some (rm, w')
    /\ get_field "preview_images" (passthrough rm) = JNum 4
    /\ w_navigationLinkPages w' = Some [about_map].
Proof. eexists. eexists. split; [reflexivity|]. split; reflexivity. Qed.

Lemma getPage_blocks_typed_witness :
  exists rm w',
    getPage parsePageId_model custom_config sample_services "post" empty_world
    = Some (rm, w')
    /\ (exists r value,
           blockRecords (w_store w') !! 1%nat = Some r
           /\ rec_value r = Some value
           /\ truthy (get_field "type" value) = true)
    /\ (w_console w' = w_console empty_world
        \/ exists count,
             w_console w' = w_console empty_world ++ [MissingBlocks count]).
Proof.
  eexists. eexists. split; [reflexivity|].
  destruct (getPage_blocks_typed parsePageId_model custom_config
              sample_services "post" empty_world _ _ eq_refl) as [Hty Hlog].
  split; [|exact Hlog].
  apply (Hty [(dashed, 0%nat); (undashed, 0%nat); ("p", 1%nat)] "p" 1%nat);
    reflexivity.
Defined.

Lemma body_class_follows_mode_witness :
  exists cl',
    classList (Nat.iter 2 (toggleDarkMode stringifyBoolean)
                        (mount parseBoolean stringifyBoolean first_visit)).2
    = Some cl'
    /\ (CLASS_NAME_DARK ∈ cl'
        <-> truthy (isDarkMode
                      (Nat.iter 2 (toggleDarkMode stringifyBoolean)
                                (mount parseBoolean stringifyBoolean
                                       first_visit)).1) = true)
    /\ ("light-mode" ∈ cl'
        <-> truthy (isDarkMode
                      (Nat.iter 2 (toggleDarkMode stringifyBoolean)
                                (mount parseBoolean stringifyBoolean
                                       first_visit)).1) = false)
    /\ (forall c, c ≠ CLASS_NAME_DARK -> c ≠ "light-mode" ->
                  c ∈ cl' <-> c ∈ ({[ "notion"; "light-mode" ]} : gset string)).
Proof.
  apply (body_class_follows_mode parseBoolean stringifyBoolean first_visit 2
           {[ "notion"; "light-mode" ]}).
  reflexivity.
Defined.

Lemma toggled_mode_survives_reload_witness :
  isDarkMode
    (mount parseBoolean stringifyBoolean
           (toggleDarkMode stringifyBoolean
                           (mkHookState (JBool false) true, first_visit)).2).1
  = isDarkMode (toggleDarkMode stringifyBoolean
                               (mkHookState (JBool false) true, first_visit)).1.
Proof.
  apply (toggled_mode_survives_reload parseBoolean stringifyBoolean
           (mkHookState (JBool false) true) first_visit
           (mkStorage ∅ false false)).
  - intros [|]; reflexivity.
  - reflexivity.
  - reflexivity.
  - reflexivity.
  - reflexivity.
Defined.

Lemma stored_preference_wins_witness :
  isDarkMode (mount parseBoolean stringifyBoolean first_visit).1 = JBool true
  /\ exists s',
       localStorage (mount parseBoolean stringifyBoolean first_visit).2
       = Some s'
       /\ items s' !! STORAGE_KEY = Some "true".
Proof.
  destruct (stored_preference_wins parseBoolean stringifyBoolean first_visit
              (mkStorage ∅ false false) eq_refl eq_refl eq_refl) as [_ H].
  destruct (H true eq_refl eq_refl) as (Hmode & Hstored & _).
  split; [exact Hmode | exact Hstored].
Defined.

Lemma unreadable_preference_defaults_witness :
  isDarkMode (mount parseBoolean stringifyBoolean private_browser).1
  = JBool false
  /\ localStorage (mount parseBoolean stringifyBoolean private_browser).2
     = Some (mkStorage ∅ true true).
Proof.
  destruct (unreadable_preference_defaults parseBoolean stringifyBoolean
              private_browser) as [Hread Hwrite].
  split.
  - apply Hread. right. exists (mkStorage ∅ true true).
    split; [reflexivity|]. left. reflexivity.
  - apply (Hwrite (mkStorage ∅ true true)); reflexivity.
Defined.


Lemma earlier_getPage_ids_valid_witness :
  exists rm w',
    LibNotion.getPage custom_config sample_services "post" empty_world
    = Some (rm, w')
    /\ (exists navigation,
           w_requests w'
           = w_requests empty_world
             ++ mkRequest (JStr "post") None :: navigation)
    /\ w_console w' = w_console empty_world
    /\ exists r value,
         blockRecords (w_store w') !! 1%nat = Some r
         /\ rec_value r = Some value
         /\ truthy (get_field "id" value) = true.
Proof.
  eexists. eexists. split; [reflexivity|].
  destruct (earlier_getPage_ids_valid custom_config sample_services "post"
              empty_world _ _ eq_refl) as (Hreq & Hlog & Hids).
  split; [exact Hreq|]. split; [exact Hlog|].
  apply (Hids [(dashed, 0%nat); ("p", 1%nat)] "p" 1%nat); reflexivity.
Defined.
End Instances.
